(** * Meeting-Bridge: floor control, leader election, wire codec and audio
      scheduling, embedded from the TypeScript sources.

    What is embedded, and from where.
    - [useAppStore]: the binary helpers [float32ToBase64] and
      [base64ToFloat32], the callbacks registered by [initialize], the floor
      actions and [handleIncomingEvent].
    - [NetworkService]: the peer set, the presence listeners and the election
      [_handlePeerDiscovery].
    - [AudioService]: [downsampleBuffer], [setJitterLatency] and
      [playAudioQueue].
    - [types/schema.ts]: the records and enums these use.

    Conventions of the embedding.
    - A JavaScript string is a [string]: peer ids are alphanumeric and the
      binary strings handed to [btoa] / produced by [atob] hold code units
      below 256 only, so 8-bit characters lose nothing.  The default order of
      [Array.prototype.sort] (code-unit order) is [String.leb].
    - An [ArrayBuffer] is a [list byte]; a typed array is a view on it.  For
      transport a 32-bit float is its IEEE-754 bit pattern, a [Z] in
      [0, 2^32), stored little-endian.
    - Where the code does arithmetic on numbers (sample values, sample rates,
      clock readings) a JavaScript number is a rational [Q]; NaN and the
      infinities have no counterpart.  The arithmetic is exact, except that
      [downsampleBuffer] and [playAudioQueue] are given twice: in exact
      arithmetic, and as [downsampleBuffer_double] and
      [playAudioQueue_double], where the result of every operation is rounded
      to a Number (IEEE-754 binary64, to nearest, ties to even) and every
      store into a [Float32Array] to a 32-bit float, as the platform does.
      The two resamplers agree when the ratio of the rates is a whole number.
    - An object literal used as a map is a [gmap]; a property read on it also
      finds the names it inherits from [Object.prototype].
    - [a || b] follows JavaScript truthiness: [undefined], [null], the empty
      string and the number zero are falsy.
    - A function that can throw returns a sum, the exception on the left.
      A handler that calls out returns the new state with the list of calls it
      made; [crypto.randomUUID()] and [Date.now()] are read from an [Env]. *)

From Stdlib Require Import ZArith NArith QArith Qround Qabs Qpower List Bool Lia Lqa.
From Stdlib Require Import Ascii String Permutation.
From Stdlib.Strings Require Import Byte.
From Equations Require Import Equations.
From stdpp Require Import gmap strings.
Import ListNotations.

Local Open Scope string_scope.
Local Open Scope list_scope.

(** ** JavaScript helpers *)

(** [a || b] where [a] is an optional string. *)
Definition or_string (a : option string) (b : string) : string :=
  match a with
  | Some s => if String.eqb s "" then b else s
  | None => b
  end.

(** [a || null] where [a] is an optional string. *)
Definition or_null (a : option string) : option string :=
  match a with
  | Some s => if String.eqb s "" then None else Some s
  | None => None
  end.

(** [a || b] where [a] is an optional number. *)
Definition or_number (a : option Q) (b : Q) : Q :=
  match a with
  | Some v => if Qeq_bool v 0 then b else v
  | None => b
  end.

(** [x < y] on numbers. *)
Definition Qltb (x y : Q) : bool := negb (Qle_bool y x).

(** [Math.round]: the nearest integer, halves going up. *)
Definition Math_round (x : Q) : Z := Qfloor (x + (1 # 2)).

(** [Math.max] of two numbers. *)
Definition Math_max (x y : Q) : Q := if Qle_bool x y then y else x.

(** [arr[i]] for a numeric index that may be negative or out of range. *)
Definition index_at {A : Type} (arr : list A) (i : Z) : option A :=
  if (i <? 0)%Z then None else nth_error arr (Z.to_nat i).

(** Exceptions the modelled code can raise. *)
Inductive Exn : Type :=
| Error (message : string)
| RangeError
| InvalidCharacterError
| NotSupportedError
| TypeError.

(** ** Binary floating point *)

Section BinaryDefs.
Local Open Scope Q_scope.

(** [2 ^ e]. *)
Definition pow2 (e : Z) : Q := (2 # 1) ^ e.

(** [floor (log2 x)] for a positive [x]. *)
Definition Qlog2 (x : Q) : Z :=
  let d := (Z.log2 (Qnum x) - Z.log2 (Zpos (Qden x)))%Z in
  if Qle_bool (pow2 d) x then d else (d - 1)%Z.

(** The nearest integer, the even one of two that are equally near. *)
Definition round_half_even (x : Q) : Z :=
  let f := Qfloor x in
  match Qcompare (x - inject_Z f) (1 # 2) with
  | Lt => f
  | Gt => (f + 1)%Z
  | Eq => if Z.even f then f else (f + 1)%Z
  end.

(** The exponent of the unit in the last place of a positive [x] in a format
    with [prec] bits of significand and least exponent [emin]. *)
Definition exponent (prec emin : Z) (x : Q) : Z :=
  Z.max (Qlog2 x - (prec - 1)) emin.

Definition round_positive (prec emin : Z) (x : Q) : Q :=
  let e := exponent prec emin x in
  inject_Z (round_half_even (x / pow2 e)) * pow2 e.

(** Rounding to nearest, ties to even, in the format with [prec] bits of
    significand and least exponent [emin].  Magnitudes above the largest
    finite number of the format are not cut off. *)
Definition round_to (prec emin : Z) (x : Q) : Q :=
  match Qcompare x 0 with
  | Eq => 0
  | Gt => round_positive prec emin x
  | Lt => - round_positive prec emin (- x)
  end.

(** The result of an arithmetic operation on Numbers (IEEE-754 binary64),
    and of a store into a [Float32Array] (binary32, [Math.fround]). *)
Definition double : Q -> Q := round_to 53 (-1074).
Definition fround : Q -> Q := round_to 24 (-149).

(** Whether a rational is the value of a finite Number, and of a finite
    32-bit float. *)
Definition is_double (x : Q) : bool :=
  Qeq_bool (double x) x && negb (Qle_bool (pow2 1024) (Qabs x)).

Definition is_float32 (x : Q) : bool :=
  Qeq_bool (fround x) x && negb (Qle_bool (pow2 128) (Qabs x)).

End BinaryDefs.

(** ** The platform's [btoa] and [atob] (RFC 4648 alphabet, forgiving decode) *)

Module Base64.

Definition alphabet : string :=
  "ABCDEFGHIJKLMNOPQRSTUVWXYZabcdefghijklmnopqrstuvwxyz0123456789+/".

Definition pad_char : ascii := "="%char.

Definition char_of_sextet (n : N) : ascii :=
  match String.get (N.to_nat n) alphabet with
  | Some c => c
  | None => pad_char
  end.

Definition sextet_of_char (c : ascii) : option N :=
  let n := N_of_ascii c in
  if (65 <=? n)%N && (n <=? 90)%N then Some (n - 65)%N
  else if (97 <=? n)%N && (n <=? 122)%N then Some (n - 71)%N
  else if (48 <=? n)%N && (n <=? 57)%N then Some (n + 4)%N
  else if (n =? 43)%N then Some 62%N
  else if (n =? 47)%N then Some 63%N
  else None.

Definition is_pad (c : ascii) : bool := Ascii.eqb c pad_char.

(** TAB, LF, FF, CR and SPACE. *)
Definition is_ascii_whitespace (c : ascii) : bool :=
  let n := N_of_ascii c in
  (n =? 9)%N || (n =? 10)%N || (n =? 12)%N || (n =? 13)%N || (n =? 32)%N.

(** The four sextets of a three-byte group. *)
Definition s0 (a : N) : N := (a / 4)%N.
Definition s1 (a b : N) : N := ((a mod 4) * 16 + b / 16)%N.
Definition s2 (b c : N) : N := ((b mod 16) * 4 + c / 64)%N.
Definition s3 (c : N) : N := (c mod 64)%N.

(** The three bytes of a four-sextet group. *)
Definition byte0 (x y : N) : N := (x * 4 + y / 16)%N.
Definition byte1 (y z : N) : N := ((y mod 16) * 16 + z / 4)%N.
Definition byte2 (z w : N) : N := ((z mod 4) * 64 + w)%N.

Fixpoint encode_groups (l : list N) : list ascii :=
  match l with
  | a :: b :: c :: rest =>
      char_of_sextet (s0 a) :: char_of_sextet (s1 a b)
        :: char_of_sextet (s2 b c) :: char_of_sextet (s3 c) :: encode_groups rest
  | [a; b] =>
      [char_of_sextet (s0 a); char_of_sextet (s1 a b); char_of_sextet (s2 b 0); pad_char]
  | [a] => [char_of_sextet (s0 a); char_of_sextet (s1 a 0); pad_char; pad_char]
  | [] => []
  end.

(** [btoa]: every code unit of the argument is below 256 by its type. *)
Definition btoa (s : string) : string :=
  string_of_list_ascii (encode_groups (map N_of_ascii (list_ascii_of_string s))).

(** Remove one or two trailing padding characters. *)
Definition strip_padding (l : list ascii) : list ascii :=
  match rev l with
  | c1 :: r1 =>
      if is_pad c1 then
        match r1 with
        | c2 :: r2 => if is_pad c2 then rev r2 else rev r1
        | [] => rev r1
        end
      else l
  | [] => l
  end.

Fixpoint sextets (l : list ascii) : option (list N) :=
  match l with
  | [] => Some []
  | c :: rest =>
      match sextet_of_char c, sextets rest with
      | Some n, Some ns => Some (n :: ns)
      | _, _ => None
      end
  end.

(** Four sextets give three bytes; a tail of three gives two bytes and a tail
    of two gives one, the spare low bits being dropped. *)
Fixpoint decode_groups (l : list N) : list N :=
  match l with
  | x :: y :: z :: w :: rest => byte0 x y :: byte1 y z :: byte2 z w :: decode_groups rest
  | [x; y; z] => [byte0 x y; byte1 y z]
  | [x; y] => [byte0 x y]
  | _ => []
  end.

(** [atob]: [inl InvalidCharacterError] when the data is not base64. *)
Definition atob (s : string) : Exn + string :=
  let data := List.filter (fun c => negb (is_ascii_whitespace c)) (list_ascii_of_string s) in
  let data := if (length data mod 4 =? 0)%nat then strip_padding data else data in
  if (length data mod 4 =? 1)%nat then inl InvalidCharacterError
  else match sextets data with
       | None => inl InvalidCharacterError
       | Some v => inr (string_of_list_ascii (map ascii_of_N (decode_groups v)))
       end.

(** The encoding without its padding, and the padding alone. *)
Fixpoint core (l : list N) : list ascii :=
  match l with
  | a :: b :: c :: rest =>
      char_of_sextet (s0 a) :: char_of_sextet (s1 a b)
        :: char_of_sextet (s2 b c) :: char_of_sextet (s3 c) :: core rest
  | [a; b] => [char_of_sextet (s0 a); char_of_sextet (s1 a b); char_of_sextet (s2 b 0)]
  | [a] => [char_of_sextet (s0 a); char_of_sextet (s1 a 0)]
  | [] => []
  end.

Fixpoint padding (l : list N) : list ascii :=
  match l with
  | _ :: _ :: _ :: rest => padding rest
  | [_; _] => [pad_char]
  | [_] => [pad_char; pad_char]
  | [] => []
  end.

(** What the decoder needs of an alphabet character. *)
Definition sextet_char_ok (n : N) : bool :=
  let c := char_of_sextet n in
  match sextet_of_char c with
  | Some m => (m =? n)%N
  | None => false
  end && negb (is_pad c) && negb (is_ascii_whitespace c).

(** The value of a byte. *)
Definition is_byte (n : N) : Prop := (n < 256)%N.

End Base64.

(** ** Typed arrays *)

(** The value of a byte of an [ArrayBuffer], and the byte holding the low
    eight bits of an integer. *)
Definition Z_of_byte (b : byte) : Z := Z.of_N (Byte.to_N b).

Definition byte_of_Z (z : Z) : byte :=
  match Byte.of_N (Z.to_N (z mod 256)) with
  | Some b => b
  | None => x00
  end.

(** A 32-bit float as its bit pattern. *)
Definition is_f32 (w : Z) : Prop := (0 <= w < 2 ^ 32)%Z.

(** Little-endian storage of one element. *)
Definition f32_bytes (w : Z) : list byte :=
  [byte_of_Z w; byte_of_Z (w / 2 ^ 8); byte_of_Z (w / 2 ^ 16); byte_of_Z (w / 2 ^ 24)].

Definition f32_of_bytes (b0 b1 b2 b3 : byte) : Z :=
  (Z_of_byte b0 + 2 ^ 8 * Z_of_byte b1 + 2 ^ 16 * Z_of_byte b2 + 2 ^ 24 * Z_of_byte b3)%Z.

Fixpoint f32_elements (bytes : list byte) : list Z :=
  match bytes with
  | b0 :: b1 :: b2 :: b3 :: rest => f32_of_bytes b0 b1 b2 b3 :: f32_elements rest
  | _ => []
  end.

(** A [Float32Array] is a window of [length] elements, [byteOffset] bytes
    into its [buffer]. *)
Module Float32Array.
Record t : Type := {
  buffer : list byte;
  byteOffset : nat;
  length : nat
}.
End Float32Array.

(** The samples seen through the window. *)
Definition samples (a : Float32Array.t) : list Z :=
  f32_elements
    (firstn (4 * Float32Array.length a)
       (skipn (Float32Array.byteOffset a) (Float32Array.buffer a))).

(** [new Float32Array(xs)]: a fresh buffer holding exactly the samples. *)
Definition Float32Array_of (xs : list Z) : Float32Array.t :=
  {| Float32Array.buffer := flat_map f32_bytes xs;
     Float32Array.byteOffset := 0;
     Float32Array.length := length xs |}.

(** [new Float32Array(arrayBuffer)]: the window is the whole buffer, whose
    byte length must be a multiple of four. *)
Definition Float32Array_on (bytes : list byte) : Exn + Float32Array.t :=
  if (length bytes mod 4 =? 0)%nat
  then inr {| Float32Array.buffer := bytes;
            Float32Array.byteOffset := 0;
            Float32Array.length := length bytes / 4 |}
  else inl RangeError.

(** [bytes.subarray(i, j)] of a [Uint8Array] spanning its buffer. *)
Definition subarray (bytes : list byte) (i j : nat) : list byte :=
  firstn (j - i) (skipn i bytes).

(** [String.fromCharCode(...chunk)]. *)
Definition String_fromCharCode (chunk : list byte) : string :=
  string_of_list_byte chunk.

(** [s.charCodeAt(i)] stored into a [Uint8Array] slot (NaN is stored as 0). *)
Definition charCodeAt_u8 (s : string) (i : nat) : byte :=
  match String.get i s with
  | Some c => byte_of_ascii c
  | None => x00
  end.

(** ** Binary helpers of the store (useAppStore) *)

#[local] Set Warnings "-abstract-large-number".
Definition chunkSize : nat := 8192.

(** The loop of [float32ToBase64]:
    [for (let i = 0; i < len; i += chunkSize) binary += String.fromCharCode(...chunk)]. *)
Equations? fromCharCode_loop (bytes : list byte) (i : nat) (binary : string) : string
  by wf (length bytes - i) lt :=
fromCharCode_loop bytes i binary with lt_dec i (length bytes) := {
  | left _ =>
      fromCharCode_loop bytes (i + chunkSize)
        (binary ++ String_fromCharCode
                     (subarray bytes i (Nat.min (i + chunkSize) (length bytes))))
  | right _ => binary }.
Proof.
  assert (0 < chunkSize) by (apply Nat.ltb_lt; vm_compute; reflexivity).
  lia.
Qed.

Definition float32ToBase64 (buffer : Float32Array.t) : string :=
  let bytes := Float32Array.buffer buffer in
  let binary := fromCharCode_loop bytes 0 "" in
  Base64.btoa binary.

Definition base64ToFloat32 (base64 : string) : Exn + Float32Array.t :=
  match Base64.atob base64 with
  | inl e => inl e
  | inr binary =>
      let len := String.length binary in
      let bytes := map (charCodeAt_u8 binary) (seq 0 len) in
      Float32Array_on bytes
  end.

(** ** AudioService *)

Local Open Scope Q_scope.

(** [downsampleBuffer]: linear interpolation at fractional source indices,
    in exact arithmetic: no operation and no store into the result array
    rounds.  When the ratio of the rates is a whole number the platform
    computes the same values ([downsampleBuffer_double], further down, is its
    arithmetic). *)
Definition downsampleBuffer (buffer : list Q) (sourceRate targetRate : Q)
  : Exn + list Q :=
  if Qeq_bool targetRate sourceRate then inr buffer
  else if Qltb sourceRate targetRate
  then inl (Error "Upsampling not supported in this utility")
  else
    let ratio := sourceRate / targetRate in
    let newLength := Math_round (inject_Z (Z.of_nat (length buffer)) / ratio) in
    if (newLength <? 0)%Z then inl RangeError
    else
      inr (map (fun i : nat =>
                  let originalIndex := inject_Z (Z.of_nat i) * ratio in
                  let indexFloor := Qfloor originalIndex in
                  let indexCeil := Qceiling originalIndex in
                  let weight := originalIndex - inject_Z indexFloor in
                  let val1 := or_number (index_at buffer indexFloor) 0 in
                  let val2 := or_number (index_at buffer indexCeil) val1 in
                  val1 * (1 - weight) + val2 * weight)
               (seq 0 (Z.to_nat newLength))).

(** The capture rate of the scenario and the wire rate [INPUT_SAMPLE_RATE]. *)
Definition rate48k : Q := 48000 # 1.
Definition rate16k : Q := 16000 # 1.

(** The playback state of [AudioService]. *)
Record AudioService : Type := {
  nextStartTime : Q;
  jitterLatency : Q
}.

(** Field initialisers of the class: cursor 0, latency 50 ms. *)
Definition AudioService_new : AudioService :=
  {| nextStartTime := 0; jitterLatency := 5 # 100 |}.

Definition setJitterLatency (seconds : Q) (this : AudioService) : AudioService :=
  {| nextStartTime := nextStartTime this; jitterLatency := Math_max 0 seconds |}.

(** [outputContext.createBuffer(1, length, sampleRate).duration].  The
    platform refuses a buffer of no frames and a sample rate that is not
    positive (browsers may refuse more rates; a refused frame is never
    scheduled). *)
Definition createBuffer_duration (length : nat) (sampleRate : Q) : Exn + Q :=
  if (length =? 0)%nat || Qle_bool sampleRate 0 then inl NotSupportedError
  else inr (inject_Z (Z.of_nat length) / sampleRate).

(** What [source.start] was asked to do, with the clock reading, the latency
    and the outcome of the underrun test at that moment. *)
Record Scheduled : Type := {
  startAt : Q;
  duration : Q;
  clock : Q;
  latency : Q;
  underrun : bool
}.

(** [playAudioQueue] in exact arithmetic; [currentTime] is the reading of
    [outputContext.currentTime].  [playAudioQueue_double], further down, is
    the arithmetic of the platform. *)
Definition playAudioQueue (audioData : Float32Array.t) (sampleRate currentTime : Q)
    (this : AudioService) : Exn + (AudioService * Scheduled) :=
  match createBuffer_duration (Float32Array.length audioData) sampleRate with
  | inl e => inl e
  | inr buffer_duration =>
      let behind := Qltb (nextStartTime this) currentTime in
      let start :=
        if behind then currentTime + jitterLatency this else nextStartTime this in
      inr ({| nextStartTime := start + buffer_duration;
              jitterLatency := jitterLatency this |},
           {| startAt := start; duration := buffer_duration;
              clock := currentTime; latency := jitterLatency this;
              underrun := behind |})
  end.

Inductive AudioCall : Type :=
| CallSetJitterLatency (seconds : Q)
| CallPlayAudioQueue (audioData : Float32Array.t) (sampleRate currentTime : Q).

(** A sequence of calls on one service; a call that throws changes nothing.
    The result pairs the final state with the frames scheduled, oldest first. *)
Fixpoint run_audio (calls : list AudioCall) (this : AudioService)
  : AudioService * list Scheduled :=
  match calls with
  | [] => (this, [])
  | CallSetJitterLatency seconds :: rest => run_audio rest (setJitterLatency seconds this)
  | CallPlayAudioQueue audioData sampleRate currentTime :: rest =>
      match playAudioQueue audioData sampleRate currentTime this with
      | inl _ => run_audio rest this
      | inr (this', frame) =>
          let (final, frames) := run_audio rest this' in (final, frame :: frames)
      end
  end.

(** *** Playback in the arithmetic of the platform *)

Section Platform.

(** The sample rates the implementation supports for a buffer: every
    implementation supports those from 8000 to 96000, and which others is
    left to it. *)
Variable supported : Q -> bool.

(** [outputContext.createBuffer(1, frames, sampleRate).duration] on the
    platform.  The binding takes the rate as a 32-bit float and refuses one
    that is not finite; a buffer of no frames and a rate that is not positive
    or not supported are refused; the duration is the quotient of the frame
    count by the rate, a Number. *)
Definition createBuffer_duration_double (frames : Z) (sampleRate : Q) : Exn + Q :=
  let rate := fround sampleRate in
  if Qle_bool (pow2 128) (Qabs rate) then inl TypeError
  else if (frames =? 0)%Z || Qle_bool rate 0 || negb (supported rate)
  then inl NotSupportedError
  else inr (double (inject_Z frames / rate)).

(** [playAudioQueue] with every sum rounded to a Number.  The binding takes
    the frame count modulo [2 ^ 32], and [set] refuses samples that do not
    fit the buffer.  The result is the new state with the time given to
    [source.start]. *)
Definition playAudioQueue_double (audioData : Float32Array.t)
    (sampleRate currentTime : Q) (this : AudioService) : Exn + (AudioService * Q) :=
  let frames := (Z.of_nat (Float32Array.length audioData) mod 2 ^ 32)%Z in
  match createBuffer_duration_double frames sampleRate with
  | inl e => inl e
  | inr buffer_duration =>
      if (frames <? Z.of_nat (Float32Array.length audioData))%Z then inl RangeError
      else
        let start :=
          if Qltb (nextStartTime this) currentTime
          then double (currentTime + jitterLatency this)
          else nextStartTime this in
        inr ({| nextStartTime := double (start + buffer_duration);
                jitterLatency := jitterLatency this |},
             start)
  end.

(** One accepted call of [playAudioQueue] as its caller sees it: the cursor
    [this.nextStartTime] and [this.jitterLatency] on entry, the arguments
    (sample count of [audioData], [sampleRate], the reading of the clock),
    the time given to [source.start], and the cursor on return. *)
Record Submission : Type := {
  cursorBefore : Q;
  latencyBefore : Q;
  submittedAt : Q;
  frameCount : nat;
  frameRate : Q;
  startedAt : Q;
  cursorAfter : Q
}.

(** The accepted calls of a sequence, oldest first; a call that throws
    changes nothing. *)
Fixpoint play_log (calls : list AudioCall) (this : AudioService) : list Submission :=
  match calls with
  | [] => []
  | CallSetJitterLatency seconds :: rest => play_log rest (setJitterLatency seconds this)
  | CallPlayAudioQueue audioData sampleRate currentTime :: rest =>
      match playAudioQueue_double audioData sampleRate currentTime this with
      | inl _ => play_log rest this
      | inr (this', start) =>
          {| cursorBefore := nextStartTime this;
             latencyBefore := jitterLatency this;
             submittedAt := currentTime;
             frameCount := Float32Array.length audioData;
             frameRate := sampleRate;
             startedAt := start;
             cursorAfter := nextStartTime this' |} :: play_log rest this'
      end
  end.

(** The frames of a sequence of calls that have samples, fewer than
    [2 ^ 32], and a positive, supported rate, as (sample count, sample rate,
    clock reading). *)
Definition submitted (calls : list AudioCall) : list (nat * Q * Q) :=
  flat_map (fun call =>
              match call with
              | CallSetJitterLatency _ => []
              | CallPlayAudioQueue audioData sampleRate currentTime =>
                  let n := Z.of_nat (Float32Array.length audioData) in
                  if (0 <? n)%Z && (n <? 2 ^ 32)%Z
                     && Qltb 0 sampleRate && supported (fround sampleRate)
                  then [(Float32Array.length audioData, sampleRate, currentTime)]
                  else []
              end) calls.

End Platform.

(** The rates every implementation supports. *)
Definition nominal_rate (rate : Q) : bool :=
  Qle_bool (8000 # 1) rate && Qle_bool rate (96000 # 1).

(** Whether the sample rates of a sequence of calls are 32-bit floats, as
    16000, 24000, 44100 and 48000 are. *)
Definition rates_are_float32 (calls : list AudioCall) : bool :=
  forallb (fun call =>
             match call with
             | CallSetJitterLatency _ => true
             | CallPlayAudioQueue _ sampleRate _ => is_float32 sampleRate
             end) calls.

(** The playing time of a frame, [buffer.duration]: sample count over
    sample rate, a Number. *)
Definition playingTime (s : Submission) : Q :=
  double (inject_Z (Z.of_nat (frameCount s)) / frameRate s).

(** What one entry of the log says about its own call: the start is the
    cursor, or the sum of the clock and the latency when the cursor was
    behind the clock; the cursor then moves by the playing time of the
    frame, which is positive. *)
Definition entry_ok (s : Submission) : Prop :=
  0 <= latencyBefore s
  /\ cursorBefore s <= startedAt s
  /\ (cursorBefore s < submittedAt s ->
      startedAt s = double (submittedAt s + latencyBefore s))
  /\ (submittedAt s <= cursorBefore s -> startedAt s = cursorBefore s)
  /\ cursorAfter s == double (startedAt s + playingTime s)
  /\ 0 < playingTime s.

(** The cursor met by each call is [cursor] for the first and, for each
    next one, where the frame before it ends. *)
Fixpoint cursor_chain (cursor : Q) (log : list Submission) : Prop :=
  match log with
  | [] => True
  | s :: rest => cursorBefore s = cursor /\ cursor_chain (cursorAfter s) rest
  end.

Local Close Scope Q_scope.

(** ** NetworkService *)

(** [Set<string>], kept in insertion order. *)
Definition Set_has (x : string) (s : list string) : bool :=
  existsb (String.eqb x) s.

Definition Set_add (x : string) (s : list string) : list string :=
  if Set_has x s then s else s ++ [x].

Definition Set_delete (x : string) (s : list string) : list string :=
  List.filter (fun y => negb (String.eqb y x)) s.

(** [Array.prototype.sort()] with the default comparison. *)
Fixpoint insert_sorted (x : string) (l : list string) : list string :=
  match l with
  | [] => [x]
  | y :: rest => if String.leb x y then x :: l else y :: insert_sorted x rest
  end.

Definition Array_sort (l : list string) : list string :=
  fold_right insert_sorted [] l.

(** [lower h l]: [h] is below every element of [l]. *)
Definition lower (h : string) (l : list string) : Prop :=
  forall x, In x l -> String.leb h x = true.

Module NetworkService.

Record t : Type := {
  selfId : string;
  room : bool;
  peers : list string;
  peerJoinCallback : bool;
  peerLeaveCallback : bool;
  hostChangedCallback : bool
}.

(** What the service tells its registered callbacks. *)
Inductive Notification : Type :=
| PeerJoin (peerId : string)
| PeerLeave (peerId : string)
| HostChanged (hostId : string).

(** The constructor: only the local id is known. *)
Definition new (self : string) : t :=
  {| selfId := self; room := false; peers := [self];
     peerJoinCallback := false; peerLeaveCallback := false;
     hostChangedCallback := false |}.

Definition set_peers (ps : list string) (this : t) : t :=
  {| selfId := selfId this; room := room this; peers := ps;
     peerJoinCallback := peerJoinCallback this;
     peerLeaveCallback := peerLeaveCallback this;
     hostChangedCallback := hostChangedCallback this |}.

Definition set_room (r : bool) (this : t) : t :=
  {| selfId := selfId this; room := r; peers := peers this;
     peerJoinCallback := peerJoinCallback this;
     peerLeaveCallback := peerLeaveCallback this;
     hostChangedCallback := hostChangedCallback this |}.

(** [onPeerJoin], [onPeerLeave] and [onHostChanged] store one callback each. *)
Definition register_callbacks (this : t) : t :=
  {| selfId := selfId this; room := room this; peers := peers this;
     peerJoinCallback := true; peerLeaveCallback := true;
     hostChangedCallback := true |}.

(** The value of [newHostId] in [_handlePeerDiscovery]; [None] when the
    function returns before computing it. *)
Definition newHostId (allPeers : list string) : option string :=
  if (length allPeers =? 0)%nat then None
  else match Array_sort allPeers with
       | first :: _ => Some first
       | [] => None
       end.

Definition _handlePeerDiscovery (this : t) : list Notification :=
  match newHostId (peers this) with
  | None => []
  | Some host => if hostChangedCallback this then [HostChanged host] else []
  end.

(** The listener given to [room.onPeerJoin]. *)
Definition room_onPeerJoin (peerId : string) (this : t) : t * list Notification :=
  let this' := set_peers (Set_add peerId (peers this)) this in
  (this',
   (if peerJoinCallback this' then [PeerJoin peerId] else [])
     ++ _handlePeerDiscovery this').

(** The listener given to [room.onPeerLeave]. *)
Definition room_onPeerLeave (peerId : string) (this : t) : t * list Notification :=
  let this' := set_peers (Set_delete peerId (peers this)) this in
  (this',
   (if peerLeaveCallback this' then [PeerLeave peerId] else [])
     ++ _handlePeerDiscovery this').

Definition leaveRoom (this : t) : t :=
  set_room false (set_peers (Set_add (selfId this) []) this).

(** [joinRoom] when the transport accepts the join: a room that was open is
    left first, and the host is computed once with the ids known so far. *)
Definition joinRoom (this : t) : t * list Notification :=
  let this1 := if room this then leaveRoom this else this in
  let this2 := set_room true this1 in
  (this2, _handlePeerDiscovery this2).

(** Presence events delivered by the transport after the join. *)
Inductive Presence : Type :=
| Joined (peerId : string)
| Left (peerId : string).

Fixpoint deliver (events : list Presence) (this : t) : t * list Notification :=
  match events with
  | [] => (this, [])
  | e :: rest =>
      let (this', out) :=
        match e with
        | Joined p => room_onPeerJoin p this
        | Left p => room_onPeerLeave p this
        end in
      let (final, out') := deliver rest this' in
      (final, out ++ out')
  end.

(** The host-changed notifications among what was emitted. *)
Definition hostChanges (out : list Notification) : list string :=
  flat_map (fun n => match n with HostChanged h => [h] | _ => [] end) out.

End NetworkService.

(** ** Schema (types/schema.ts) *)

Inductive PeerRole : Type := HOST | GUEST.

Module Peer.
Record t : Type := {
  id : string;
  name : string;
  role : PeerRole;
  batteryLevel : option Q;
  isOnline : bool;
  joinedAt : Z
}.
End Peer.

Record LanguageConfig : Type := {
  sourceLanguage : string;
  targetLanguage : string
}.

Record RoomState : Type := {
  roomId : string;
  hostId : string;
  speakerId : option string;
  languageConfig : LanguageConfig;
  isActive : bool;
  peers : gmap string Peer.t
}.

Inductive EventType : Type :=
| AUDIO_CHUNK
| TRANSCRIPTION
| TRANSLATION
| CONTROL_SIGNAL
| STATE_UPDATE.

(** The enum of the schema; [OTHER_SIGNAL s] is a string [s] found in its
    place on the wire that is none of the five names (the heartbeat sends
    the text HEARTBEAT). *)
Inductive ControlSignal : Type :=
| REQUEST_TOKEN
| RELEASE_TOKEN
| GRANT_TOKEN
| MUTE_PEER
| KICK_PEER
| OTHER_SIGNAL (literal : string).

(** [payload : any]: one of the payload shapes of the schema. *)
Inductive Payload : Type :=
| AudioChunkPayload (data : string) (sampleRate : option Q) (sequenceId : Z)
| TranscriptionPayload (text : string) (isFinal : bool) (originalLanguage : string)
| TranslationPayload (originalText translatedText targetLang : string)
| ControlPayload (signal : ControlSignal) (targetPeerId : option string).

Module TranslationEvent.
Record t : Type := {
  id : string;
  type : EventType;
  senderId : string;
  timestamp : Z;
  payload : Payload
}.
End TranslationEvent.

(** Reading a field through an unchecked cast: absent on another shape. *)
Definition payload_signal (p : Payload) : option ControlSignal :=
  match p with ControlPayload signal _ => Some signal | _ => None end.

Definition payload_targetPeerId (p : Payload) : option string :=
  match p with ControlPayload _ target => target | _ => None end.

Definition payload_sampleRate (p : Payload) : option Q :=
  match p with AudioChunkPayload _ rate _ => rate | _ => None end.

(** [payload.data] as [atob] receives it: a missing field reads as the
    text of [undefined]. *)
Definition payload_data (p : Payload) : string :=
  match p with AudioChunkPayload data _ _ => data | _ => "undefined" end.

Definition is_signal (s : ControlSignal) (o : option ControlSignal) : bool :=
  match o, s with
  | Some REQUEST_TOKEN, REQUEST_TOKEN
  | Some RELEASE_TOKEN, RELEASE_TOKEN
  | Some GRANT_TOKEN, GRANT_TOKEN => true
  | _, _ => false
  end.

(** ** The store (useAppStore) *)

Record TranscriptItem : Type := {
  item : Payload;
  item_senderId : string;
  item_timestamp : Z
}.

Record AppState : Type := {
  myId : string;
  isInitialized : bool;
  isMicActive : bool;
  roomState : RoomState;
  transcripts : list TranscriptItem;
  onAudioChunkReceived : bool
}.

(** Calls the store makes on the services. *)
Inductive Effect : Type :=
| Broadcast (event : TranslationEvent.t)
| SendToPeer (peerId : string) (event : TranslationEvent.t)
| PlayAudioQueue (audioData : Float32Array.t) (sampleRate : Q)
| AudioChunkReceived (data : Float32Array.t) (senderId : string)
| Throw (e : Exn).

(** The values of [crypto.randomUUID()] and [Date.now()] at a call. *)
Record Env : Type := {
  randomUUID : string;
  now : Z
}.

(** [{ ...roomState, speakerId }], [{ ...roomState, hostId }] and
    [{ ...roomState, peers }]. *)
Definition with_speakerId (speaker : option string) (r : RoomState) : RoomState :=
  {| roomId := roomId r; hostId := hostId r; speakerId := speaker;
     languageConfig := languageConfig r; isActive := isActive r; peers := peers r |}.

Definition with_hostId (host : string) (r : RoomState) : RoomState :=
  {| roomId := roomId r; hostId := host; speakerId := speakerId r;
     languageConfig := languageConfig r; isActive := isActive r; peers := peers r |}.

Definition with_peers (ps : gmap string Peer.t) (r : RoomState) : RoomState :=
  {| roomId := roomId r; hostId := hostId r; speakerId := speakerId r;
     languageConfig := languageConfig r; isActive := isActive r; peers := ps |}.

(** [set({ roomState })] and [set({ transcripts })]. *)
Definition set_roomState (r : RoomState) (s : AppState) : AppState :=
  {| myId := myId s; isInitialized := isInitialized s; isMicActive := isMicActive s;
     roomState := r; transcripts := transcripts s;
     onAudioChunkReceived := onAudioChunkReceived s |}.

Definition set_transcripts (ts : list TranscriptItem) (s : AppState) : AppState :=
  {| myId := myId s; isInitialized := isInitialized s; isMicActive := isMicActive s;
     roomState := roomState s; transcripts := ts;
     onAudioChunkReceived := onAudioChunkReceived s |}.

(** The initial state of the store. *)
Definition AppState_initial (self : string) : AppState :=
  {| myId := self; isInitialized := false; isMicActive := false;
     roomState :=
       {| roomId := ""; hostId := ""; speakerId := None;
          languageConfig := {| sourceLanguage := "en-US"; targetLanguage := "es-ES" |};
          isActive := true; peers := ∅ |};
     transcripts := []; onAudioChunkReceived := false |}.

Definition control_event (env : Env) (sender : string) (signal : ControlSignal)
    (target : option string) : TranslationEvent.t :=
  {| TranslationEvent.id := randomUUID env;
     TranslationEvent.type := CONTROL_SIGNAL;
     TranslationEvent.senderId := sender;
     TranslationEvent.timestamp := now env;
     TranslationEvent.payload := ControlPayload signal target |}.

(** [roomState.speakerId === peerId]. *)
Definition speaker_is (peerId : string) (r : RoomState) : bool :=
  match speakerId r with
  | Some s => String.eqb s peerId
  | None => false
  end.

(** The callback given to [networkService.onHostChanged]. *)
Definition onHostChanged (host : string) (state : AppState) : AppState :=
  set_roomState (with_hostId host (roomState state)) state.

(** The property names that an object literal inherits from
    [Object.prototype]: those of the language and of its Annex B.  Each reads
    as a function or, for [__proto__], as the prototype itself, so as a
    truthy value. *)
Definition Object_prototype : list string :=
  [ "constructor"; "hasOwnProperty"; "isPrototypeOf"; "propertyIsEnumerable";
    "toLocaleString"; "toString"; "valueOf"; "__proto__";
    "__defineGetter__"; "__defineSetter__"; "__lookupGetter__";
    "__lookupSetter__" ].

Definition inherited (key : string) : bool :=
  existsb (String.eqb key) Object_prototype.

(** The truthiness of [obj[key]] for an object literal whose own values are
    records: the key is looked up on the object, then on its prototype. *)
Definition truthy_at (key : string) (obj : gmap string Peer.t) : bool :=
  match obj !! key with
  | Some _ => true
  | None => inherited key
  end.

(** The callback given to [networkService.onPeerJoin]. *)
Definition onPeerJoin (env : Env) (peerId : string) (state : AppState) : AppState :=
  let newPeers := peers (roomState state) in
  let newPeers :=
    if negb (truthy_at peerId newPeers)
    then <[peerId := {| Peer.id := peerId;
                        Peer.name := "User " ++ String.substring 0 4 peerId;
                        Peer.role := GUEST;
                        Peer.batteryLevel := None;
                        Peer.isOnline := true;
                        Peer.joinedAt := now env |}]> newPeers
    else newPeers in
  set_roomState (with_peers newPeers (roomState state)) state.

(** The callback given to [networkService.onPeerLeave]. *)
Definition onPeerLeave (peerId : string) (state : AppState) : AppState :=
  let newPeers := delete peerId (peers (roomState state)) in
  let speaker :=
    if speaker_is peerId (roomState state) then None
    else speakerId (roomState state) in
  set_roomState (with_speakerId speaker (with_peers newPeers (roomState state))) state.

Definition requestTalkingStick (env : Env) (state : AppState)
  : AppState * list Effect :=
  let myId := myId state in
  let roomState := roomState state in
  let isHost := String.eqb myId (hostId roomState) in
  if isHost then
    (set_roomState (with_speakerId (Some myId) roomState) state,
     [Broadcast (control_event env myId GRANT_TOKEN (Some myId))])
  else
    (state,
     [SendToPeer (hostId roomState)
        (control_event env myId REQUEST_TOKEN (Some myId))]).

Definition releaseTalkingStick (env : Env) (state : AppState)
  : AppState * list Effect :=
  let myId := myId state in
  let roomState := roomState state in
  if speaker_is myId roomState then
    (set_roomState (with_speakerId None roomState) state,
     [Broadcast (control_event env myId RELEASE_TOKEN None)])
  else (state, []).

(** The call [audioService.playAudioQueue(floatArray, rate)] followed by
    [next]; when the call throws, the exception leaves the handler and [next]
    does not happen. *)
Definition play (floatArray : Float32Array.t) (rate : Q) (next : list Effect)
  : list Effect :=
  match createBuffer_duration (Float32Array.length floatArray) rate with
  | inl e => [PlayAudioQueue floatArray rate; Throw e]
  | inr _ => PlayAudioQueue floatArray rate :: next
  end.

(** [handleIncomingEvent].  [myId] and [roomState] are read once on entry;
    every [set({ roomState: { ...roomState, speakerId } })] rebuilds the room
    from that snapshot. *)
Definition handleIncomingEvent (env : Env) (event : TranslationEvent.t)
    (senderId : string) (state : AppState) : AppState * list Effect :=
  let myId := myId state in
  let roomState := roomState state in
  let payload := TranslationEvent.payload event in
  match TranslationEvent.type event with
  | AUDIO_CHUNK =>
      if negb (String.eqb senderId myId) then
        match base64ToFloat32 (payload_data payload) with
        | inl e => (state, [Throw e])
        | inr floatArray =>
            if String.eqb senderId "TRANSLATOR_BOT" then
              (state,
               play floatArray (or_number (payload_sampleRate payload) (24000 # 1)) [])
            else
              (state,
               play floatArray (or_number (payload_sampleRate payload) (16000 # 1))
                 (if onAudioChunkReceived state
                  then [AudioChunkReceived floatArray senderId] else []))
        end
      else (state, [])
  | CONTROL_SIGNAL =>
      let signal := payload_signal payload in
      let '(state1, sent) :=
        if is_signal REQUEST_TOKEN signal then
          if String.eqb myId (hostId roomState) then
            let granteeId := or_string (payload_targetPeerId payload) senderId in
            let grantEvent := control_event env myId GRANT_TOKEN (Some granteeId) in
            (set_roomState (with_speakerId (Some granteeId) roomState) state,
             [Broadcast grantEvent])
          else (state, [])
        else (state, []) in
      let state2 :=
        if is_signal GRANT_TOKEN signal then
          let newSpeakerId := payload_targetPeerId payload in
          set_roomState (with_speakerId (or_null newSpeakerId) roomState) state1
        else state1 in
      let state3 :=
        if is_signal RELEASE_TOKEN signal then
          set_roomState (with_speakerId None roomState) state2
        else state2 in
      (state3, sent)
  | TRANSCRIPTION =>
      (set_transcripts
         (transcripts state
            ++ [{| item := payload; item_senderId := senderId;
                   item_timestamp := TranslationEvent.timestamp event |}])
         state,
       [])
  | TRANSLATION | STATE_UPDATE => (state, [])
  end.

(** The wiring made by [initialize]: each notification of the network
    service runs the callback the store registered for it. *)
Definition notify (env : Env) (n : NetworkService.Notification) (state : AppState)
  : AppState :=
  match n with
  | NetworkService.PeerJoin peerId => onPeerJoin env peerId state
  | NetworkService.PeerLeave peerId => onPeerLeave peerId state
  | NetworkService.HostChanged host => onHostChanged host state
  end.

Definition notify_all (env : Env) (out : list NetworkService.Notification)
    (state : AppState) : AppState :=
  fold_left (fun s n => notify env n s) out state.

(** ** The store driven by a sequence of events *)

Inductive Action : Type :=
| Incoming (env : Env) (event : TranslationEvent.t) (senderId : string)
| PeerLeft (peerId : string)
| PeerJoined (env : Env) (peerId : string)
| HostChange (hostId : string)
| RequestStick (env : Env)
| ReleaseStick (env : Env).

Definition step (a : Action) (state : AppState) : AppState * list Effect :=
  match a with
  | Incoming env event senderId => handleIncomingEvent env event senderId state
  | PeerLeft peerId => (onPeerLeave peerId state, [])
  | PeerJoined env peerId => (onPeerJoin env peerId state, [])
  | HostChange host => (onHostChanged host state, [])
  | RequestStick env => requestTalkingStick env state
  | ReleaseStick env => releaseTalkingStick env state
  end.

(** The states passed through, one after each action. *)
Fixpoint trace (actions : list Action) (state : AppState) : list AppState :=
  match actions with
  | [] => []
  | a :: rest => let state' := fst (step a state) in state' :: trace rest state'
  end.

(** The peers the room records as holding the floor. *)
Definition granted (r : RoomState) : list string :=
  match speakerId r with
  | Some p => [p]
  | None => []
  end.

(** The room records no speaker or exactly one: the peers counted as
    granted are none or a single id, and any two ids that test as the speaker
    ([roomState.speakerId === id]) are the same id. *)
Definition single_speaker (r : RoomState) : Prop :=
  (speakerId r = None /\ granted r = []
   \/ exists p, speakerId r = Some p /\ granted r = [p])
  /\ (forall p q, speaker_is p r = true -> speaker_is q r = true -> p = q).

(** A broadcast or unicast of a [GRANT_TOKEN]. *)
Definition is_grant (e : Effect) : bool :=
  match e with
  | Broadcast ev | SendToPeer _ ev =>
      is_signal GRANT_TOKEN (payload_signal (TranslationEvent.payload ev))
  | _ => false
  end.

(** A [REQUEST_TOKEN] control event, as the handler recognises it. *)
Definition is_control (s : ControlSignal) (event : TranslationEvent.t) : Prop :=
  TranslationEvent.type event = CONTROL_SIGNAL /\
  payload_signal (TranslationEvent.payload event) = Some s.

(** ** Concrete scenarios *)

Definition env0 : Env := {| randomUUID := "00000000-0000-4000-8000-000000000000"; now := 0 |}.

(** Peer [B], a guest of host [A], while guest [G] holds the floor. *)
Definition guest_state : AppState :=
  set_roomState
    (with_speakerId (Some "G") (with_hostId "A" (roomState (AppState_initial "B"))))
    (AppState_initial "B").

(** Peer [A], host of the room, floor open. *)
Definition host_state : AppState :=
  onHostChanged "A" (AppState_initial "A").

Definition request_from (peerId : string) : TranslationEvent.t :=
  control_event env0 peerId REQUEST_TOKEN (Some peerId).

Definition grant_to (target : option string) : TranslationEvent.t :=
  control_event env0 "A" GRANT_TOKEN target.

(** Scenario C and more: [G] asks for the floor, the host grants it, [C] asks
    too, [G] leaves, the host releases. *)
Definition floor_scenario : list Action :=
  [ Incoming env0 (request_from "G") "G";
    Incoming env0 (grant_to (Some "G")) "A";
    Incoming env0 (request_from "C") "C";
    PeerLeft "C";
    PeerLeft "G";
    RequestStick env0;
    ReleaseStick env0 ].

(** The bit patterns of 0.0, 1.0, -1.0 and 0.5. *)
Definition some_samples : list Z := [0; 1065353216; 3212836864; 1056964608]%Z.

(** Three frames of four samples at 16 kHz: on time, late, then after the
    latency was raised to 100 ms. *)
Definition playback_scenario : list AudioCall :=
  [ CallPlayAudioQueue (Float32Array_of some_samples) (16000 # 1) 0;
    CallPlayAudioQueue (Float32Array_of some_samples) (16000 # 1) (1 # 1);
    CallSetJitterLatency (1 # 10);
    CallPlayAudioQueue (Float32Array_of some_samples) (16000 # 1) (2 # 1);
    CallPlayAudioQueue (Float32Array_of []) (16000 # 1) (2 # 1);
    CallPlayAudioQueue (Float32Array_of some_samples) (24000 # 1) (2 # 1) ].

(** A window of one element, four bytes into a buffer of three elements. *)
Definition middle_window : Float32Array.t :=
  {| Float32Array.buffer := flat_map f32_bytes [0; 1065353216; 3212836864]%Z;
     Float32Array.byteOffset := 4;
     Float32Array.length := 1 |}.

(** Seven samples of the constant 1/4. *)
Definition dc_buffer : list Q := repeat (1 # 4)%Q 7.

(** ** More of the store: the capture callback and a whole run *)

(** The callback [toggleMic] hands to [audioService.startCapture]: audio is
    forwarded to the listener and broadcast only while this peer holds the
    floor.  [sequenceId] is the second reading of [Date.now()]. *)
Definition onCapturedAudio (env : Env) (sequenceId : Z) (data : Float32Array.t)
    (state : AppState) : list Effect :=
  let roomState := roomState state in
  let myId := myId state in
  if speaker_is myId roomState then
    (if onAudioChunkReceived state then [AudioChunkReceived data myId] else [])
      ++ [Broadcast
            {| TranslationEvent.id := randomUUID env;
               TranslationEvent.type := AUDIO_CHUNK;
               TranslationEvent.senderId := myId;
               TranslationEvent.timestamp := now env;
               TranslationEvent.payload :=
                 AudioChunkPayload (float32ToBase64 data) (Some (16000 # 1)%Q) sequenceId |}]
  else [].

(** The state after a sequence of actions. *)
Definition run (actions : list Action) (state : AppState) : AppState :=
  fold_left (fun s a => fst (step a s)) actions state.

(** What an action adds to the transcript log. *)
Definition logged (a : Action) : list TranscriptItem :=
  match a with
  | Incoming _ event senderId =>
      match TranslationEvent.type event with
      | TRANSCRIPTION =>
          [{| item := TranslationEvent.payload event; item_senderId := senderId;
              item_timestamp := TranslationEvent.timestamp event |}]
      | _ => []
      end
  | _ => []
  end.

(** The effects that hand audio to the translation listener. *)
Definition is_forward (e : Effect) : bool :=
  match e with AudioChunkReceived _ _ => true | _ => false end.

(** ** More of AudioService: voice activity, volume, the capture path *)

Local Open Scope Q_scope.

Definition INPUT_SAMPLE_RATE : Q := 16000 # 1.
Definition VAD_THRESHOLD : Q := 15 # 1000.
Definition VAD_HANGOVER_TIME : Z := 500.

Module VoiceActivityDetector.

Record t : Type := {
  isSpeaking : bool;
  lastActivityTime : Z;
  callback : bool
}.

(** Field initialisers of the class. *)
Definition new : t :=
  {| isSpeaking := false; lastActivityTime := 0; callback := false |}.

Definition setCallback (this : t) : t :=
  {| isSpeaking := isSpeaking this; lastActivityTime := lastActivityTime this;
     callback := true |}.

Definition emitChange (isActive : bool) (this : t) : list bool :=
  if callback this then [isActive] else [].

Section Process.

(** [Math.sqrt], which has no exact counterpart on rationals. *)
Variable Math_sqrt : Q -> Q.

(** The value of [rms]: [None] is the NaN of an empty frame (0 / 0). *)
Definition rms_of (data : list Q) : option Q :=
  let sum := fold_left (fun sum x => sum + x * x) data 0 in
  if (length data =? 0)%nat then None
  else Some (Math_sqrt (sum / inject_Z (Z.of_nat (length data)))).

(** [rms > VAD_THRESHOLD]; a comparison with NaN is false. *)
Definition above_threshold (rms : option Q) : bool :=
  match rms with
  | Some r => Qltb VAD_THRESHOLD r
  | None => false
  end.

(** [process]; [now] is the reading of [Date.now()].  The result is the new
    state, the notifications given to the callback, and [rms]. *)
Definition process (now : Z) (data : list Q) (this : t)
  : t * list bool * option Q :=
  let rms := rms_of data in
  if above_threshold rms then
    let this1 :=
      {| isSpeaking := isSpeaking this; lastActivityTime := now;
         callback := callback this |} in
    if negb (isSpeaking this1) then
      let this2 :=
        {| isSpeaking := true; lastActivityTime := lastActivityTime this1;
           callback := callback this1 |} in
      (this2, emitChange true this2, rms)
    else (this1, [], rms)
  else if isSpeaking this && (now - lastActivityTime this >? VAD_HANGOVER_TIME)%Z then
    let this1 :=
      {| isSpeaking := false; lastActivityTime := lastActivityTime this;
         callback := callback this |} in
    (this1, emitChange false this1, rms)
  else (this, [], rms).

(** The detector fed a sequence of frames, each with its clock reading; the
    result lists, per frame, the reading and what was notified. *)
Fixpoint feed (frames : list (Z * list Q)) (this : t)
  : t * list (Z * list bool) :=
  match frames with
  | [] => (this, [])
  | (now, data) :: rest =>
      let '(this', emitted, _) := process now data this in
      let (final, log) := feed rest this' in
      (final, (now, emitted) :: log)
  end.

(** The frame is loud enough to count as activity. *)
Definition loud (data : list Q) : bool := above_threshold (rms_of data).

End Process.

End VoiceActivityDetector.

(** Notifications that alternate, the first being [first]. *)
Fixpoint alternating (first : bool) (l : list bool) : Prop :=
  match l with
  | [] => True
  | b :: rest => b = first /\ alternating (negb first) rest
  end.

(** Clock readings that never go back. *)
Fixpoint nondecreasing (l : list Z) : Prop :=
  match l with
  | [] => True
  | t :: rest => List.Forall (fun u => (t <= u)%Z) rest /\ nondecreasing rest
  end.

(** [getVolumeLevel] for a volume that is a number. *)
Definition getVolumeLevel (currentVolume : Q) : Z :=
  Z.min 100 (Math_round (currentVolume * (500 # 1))).

(** Every sample lies between [lo] and [hi]. *)
Definition within (lo hi : Q) (l : list Q) : Prop :=
  List.Forall (fun x => lo <= x /\ x <= hi) l.

Local Close Scope Q_scope.

(** The effects that put an event on the network. *)
Definition is_send (e : Effect) : bool :=
  match e with Broadcast _ | SendToPeer _ _ => true | _ => false end.

(** The three signals [handleIncomingEvent] acts on. *)
Definition floor_signals : list ControlSignal :=
  [REQUEST_TOKEN; GRANT_TOKEN; RELEASE_TOKEN].

(** Each frame either was an underrun or starts exactly at [cursor], the end
    of the frame before it. *)
Fixpoint gapless_from (cursor : Q) (frames : list Scheduled) : Prop :=
  match frames with
  | [] => True
  | f :: rest =>
      (underrun f = false -> startAt f = cursor)
      /\ gapless_from (startAt f + duration f)%Q rest
  end.

(** The notifications of a run, in order. *)
Definition notifications (log : list (Z * list bool)) : list bool :=
  flat_map snd log.

(** ** GeminiHostService: the PCM helpers *)

Local Open Scope Q_scope.

(** [Math.min] of two numbers. *)
Definition Math_min (x y : Q) : Q := if Qle_bool x y then x else y.

(** Storing a number into an [Int16Array] slot: the fraction is dropped
    (towards zero) and the integer wraps modulo 2^16 into the signed range. *)
Definition truncate (v : Q) : Z := if Qltb v 0 then Qceiling v else Qfloor v.

Definition ToInt16 (v : Q) : Z := ((truncate v + 32768) mod 65536 - 32768)%Z.

(** [floatTo16BitPCM], on the numeric values of the samples. *)
Definition floatTo16BitPCM (input : list Q) : list Z :=
  map (fun x =>
         let s := Math_max (-1 # 1) (Math_min 1 x) in
         ToInt16 (if Qltb s 0 then s * (32768 # 1) else s * (32767 # 1)))
      input.

(** The little-endian bytes of an [Int16Array], and the elements of an
    [Int16Array] laid over bytes. *)
Definition int16_bytes (v : Z) : list byte :=
  [byte_of_Z v; byte_of_Z (v / 2 ^ 8)].

Definition Int16Array_buffer (elements : list Z) : list byte :=
  flat_map int16_bytes elements.

Definition int16_of_bytes (b0 b1 : byte) : Z :=
  let u := (Z_of_byte b0 + 2 ^ 8 * Z_of_byte b1)%Z in
  if (u <? 2 ^ 15)%Z then u else (u - 2 ^ 16)%Z.

Fixpoint int16_elements (bytes : list byte) : list Z :=
  match bytes with
  | b0 :: b1 :: rest => int16_of_bytes b0 b1 :: int16_elements rest
  | _ => []
  end.

(** [new Int16Array(arrayBuffer)]: the byte length must be even. *)
Definition Int16Array_on (bytes : list byte) : Exn + list Z :=
  if (length bytes mod 2 =? 0)%nat then inr (int16_elements bytes)
  else inl RangeError.

(** [base64Encode] of the first revision: one character per byte. *)
Definition base64Encode_bytewise (buffer : list byte) : string :=
  let binary :=
    fold_left (fun binary b => (binary ++ String_fromCharCode [b])%string) buffer "" in
  Base64.btoa binary.

(** [base64Encode] of the second revision: chunks of 8192 bytes. *)
Definition base64Encode (buffer : list byte) : string :=
  let binary := fromCharCode_loop buffer 0 "" in
  Base64.btoa binary.

(** The [data] that [pushAudio] sends when the session is connected. *)
Definition pushAudio (isConnected session : bool) (data : list Q) : option string :=
  if negb isConnected || negb session then None
  else
    let pcmData := floatTo16BitPCM data in
    Some (base64Encode (Int16Array_buffer pcmData)).

(** [decodeBase64ToFloat32] of the service: 16-bit PCM to numbers. *)
Definition decodeBase64ToFloat32 (base64 : string) : Exn + list Q :=
  match Base64.atob base64 with
  | inl e => inl e
  | inr binary =>
      let len := String.length binary in
      let bytes := map (charCodeAt_u8 binary) (seq 0 len) in
      match Int16Array_on bytes with
      | inl e => inl e
      | inr int16 => inr (map (fun v => inject_Z v / (32768 # 1)) int16)
      end
  end.

(** Two sample sequences of equal length whose samples differ by at most
    [eps], position by position. *)
Definition close_to (eps : Q) (xs ys : list Q) : Prop :=
  Forall2 (fun x y => - eps <= x - y /\ x - y <= eps) xs ys.

Local Close Scope Q_scope.

(** The number [floatTo16BitPCM] stores for a sample: the sample clamped to
    [-1, 1] and scaled. *)
Definition scaled (x : Q) : Q :=
  let s := Math_max (-1 # 1) (Math_min 1 x) in
  if Qltb s 0 then (s * (32768 # 1))%Q else (s * (32767 # 1))%Q.

(** The range of a 16-bit signed integer. *)
Definition is_int16 (v : Z) : Prop := (- 2 ^ 15 <= v < 2 ^ 15)%Z.

(** ** [downsampleBuffer] in the arithmetic of the platform *)

Local Open Scope Q_scope.

(** The body of the loop of [downsampleBuffer] for output index [i], as the
    platform computes it: the result of every arithmetic operation is rounded
    to a Number, and the store into the result array to a 32-bit float. *)
Definition resample_at (buffer : list Q) (ratio : Q) (i : nat) : Q :=
  let originalIndex := double (inject_Z (Z.of_nat i) * ratio) in
  let indexFloor := Qfloor originalIndex in
  let indexCeil := Qceiling originalIndex in
  let weight := double (originalIndex - inject_Z indexFloor) in
  let val1 := or_number (index_at buffer indexFloor) 0 in
  let val2 := or_number (index_at buffer indexCeil) val1 in
  fround (double (double (val1 * double (1 - weight)) + double (val2 * weight))).

(** [downsampleBuffer] as the platform computes it.  The samples are values
    of 32-bit floats and the rates values of Numbers.  A zero target rate
    gives the ratio [Infinity] and so no output; a ratio that rounds to zero
    gives the length [Infinity], which [new Float32Array] refuses, or [NaN],
    which it reads as 0, when the buffer is empty; a length of [2 ^ 53] or
    more is refused (the platform may refuse smaller ones). *)
Definition downsampleBuffer_double (buffer : list Q) (sourceRate targetRate : Q)
  : Exn + list Q :=
  if Qeq_bool targetRate sourceRate then inr buffer
  else if Qltb sourceRate targetRate
  then inl (Error "Upsampling not supported in this utility")
  else if Qeq_bool targetRate 0 then inr []
  else
    let ratio := double (sourceRate / targetRate) in
    if Qeq_bool ratio 0
    then match buffer with [] => inr [] | _ :: _ => inl RangeError end
    else
      let newLength :=
        Math_round (double (inject_Z (Z.of_nat (length buffer)) / ratio)) in
      if (newLength <? 0)%Z || (2 ^ 53 <=? newLength)%Z then inl RangeError
      else inr (map (resample_at buffer ratio) (seq 0 (Z.to_nat newLength))).

Local Close Scope Q_scope.

(** ** More concrete scenarios *)

(** Peer [G], a guest of host [A], holding the floor, with a listener. *)
Definition speaker_state : AppState :=
  {| myId := "G"; isInitialized := true; isMicActive := true;
     roomState :=
       with_speakerId (Some "G") (with_hostId "A" (roomState (AppState_initial "G")));
     transcripts := []; onAudioChunkReceived := true |}.

Definition heartbeat : TranslationEvent.t :=
  control_event env0 "C" (OTHER_SIGNAL "HEARTBEAT") None.

Definition audio_from (sender : string) (xs : list Z) : TranslationEvent.t :=
  {| TranslationEvent.id := randomUUID env0;
     TranslationEvent.type := AUDIO_CHUNK;
     TranslationEvent.senderId := sender;
     TranslationEvent.timestamp := 0;
     TranslationEvent.payload :=
       AudioChunkPayload (float32ToBase64 (Float32Array_of xs)) (Some (24000 # 1)%Q) 0 |}.

(** The local peer [C] with its callbacks registered, and the peers [A] and
    [B] joining. *)
Definition net_C : NetworkService.t :=
  NetworkService.register_callbacks (NetworkService.new "C").

Definition presence_scenario : list NetworkService.Presence :=
  [NetworkService.Joined "A"; NetworkService.Joined "B"].

(** [C] in a room, knowing [A] and [B]. *)
Definition net_C_in_room : NetworkService.t :=
  fst (NetworkService.deliver presence_scenario (fst (NetworkService.joinRoom net_C))).

(** The frames scheduled in the playback scenario, and a frame to stand for
    a missing one. *)
Definition scheduled_frames : list Scheduled :=
  snd (run_audio playback_scenario AudioService_new).

Definition no_frame : Scheduled :=
  {| startAt := 0; duration := 0; clock := 0; latency := 0; underrun := false |}.

(** The log of the playback scenario, and an entry to stand for a missing
    one. *)
Definition playback_log : list Submission :=
  play_log nominal_rate playback_scenario AudioService_new.

Definition no_submission : Submission :=
  {| cursorBefore := 0; latencyBefore := 0; submittedAt := 0; frameCount := 0;
     frameRate := 0; startedAt := 0; cursorAfter := 0 |}.

Definition ramp : list Q := [1 # 8; 2 # 8; 3 # 8; 4 # 8; 5 # 8; 6 # 8; 7 # 8]%Q.

(** A square root good enough to run the detector on the frames below. *)
Definition sqrt_stub (x : Q) : Q := x.

Definition loud_frame : list Q := [1; -1 # 1; 1]%Q.
Definition quiet_frame : list Q := [0; 0; 0]%Q.

Definition vad_scenario : list (Z * list Q) :=
  [(0, quiet_frame); (100, loud_frame); (300, loud_frame);
   (400, quiet_frame); (900, quiet_frame); (1000, quiet_frame)]%Z.

Definition pcm_input : list Q := [1 # 2; -1 # 4; 1; 3; -2 # 1]%Q.

(** Fifteen samples of 1 followed by five of 0, and what the platform makes
    of them from 15000 Hz to 11000 Hz. *)
Definition step_buffer : list Q := (repeat 1 15 ++ repeat 0 5)%Q.

Definition step_resampled : list Q :=
  Eval vm_compute in
    match downsampleBuffer_double step_buffer (15000 # 1) (11000 # 1) with
    | inr out => out
    | inl _ => []
    end.
(** * Properties *)

(** ** Facts about the base64 model *)

Section Base64Facts.
Import Base64.

Example btoa_Man : btoa "Man" = "TWFu". Proof. reflexivity. Qed.
Example btoa_Ma : btoa "Ma" = "TWE=". Proof. reflexivity. Qed.
Example btoa_M : btoa "M" = "TQ==". Proof. reflexivity. Qed.
Example atob_TWE : atob "TWE=" = inr "Ma". Proof. reflexivity. Qed.
Example atob_ws : atob " T Q " = inr "M". Proof. reflexivity. Qed.
Example atob_bad : atob "T" = inl InvalidCharacterError. Proof. reflexivity. Qed.

Lemma list_ind3 {A : Type} (P : list A -> Prop) :
  P [] -> (forall a, P [a]) -> (forall a b, P [a; b]) ->
  (forall a b c l, P l -> P (a :: b :: c :: l)) ->
  forall l, P l.
Proof.
  intros H0 H1 H2 H3.
  fix IH 1.
  intros [|a [|b [|c l]]];
    [apply H0 | apply H1 | apply H2 | apply H3, IH].
Qed.

Lemma sextet_char_ok_all :
  forallb sextet_char_ok (map N.of_nat (seq 0 64)) = true.
Proof. vm_compute. reflexivity. Qed.

Lemma sextet_char_ok_lt n : (n < 64)%N -> sextet_char_ok n = true.
Proof.
  intros Hn.
  pose proof sextet_char_ok_all as Hall.
  rewrite List.forallb_forall in Hall. apply Hall.
  apply List.in_map_iff. exists (N.to_nat n). split; [lia|].
  apply List.in_seq. lia.
Qed.

Lemma sextet_of_char_of_sextet n :
  (n < 64)%N -> sextet_of_char (char_of_sextet n) = Some n.
Proof.
  intros Hn. pose proof (sextet_char_ok_lt n Hn) as Hok.
  unfold sextet_char_ok in Hok.
  destruct (sextet_of_char (char_of_sextet n)) as [m|]; simpl in Hok; [|discriminate].
  apply andb_prop in Hok as [Hok _]. apply andb_prop in Hok as [Hok _].
  apply N.eqb_eq in Hok. congruence.
Qed.

Lemma char_of_sextet_not_pad n : (n < 64)%N -> is_pad (char_of_sextet n) = false.
Proof.
  intros Hn. pose proof (sextet_char_ok_lt n Hn) as Hok.
  unfold sextet_char_ok in Hok.
  apply andb_prop in Hok as [Hok _]. apply andb_prop in Hok as [_ Hok].
  now apply negb_true_iff in Hok.
Qed.

Lemma char_of_sextet_not_ws n :
  (n < 64)%N -> is_ascii_whitespace (char_of_sextet n) = false.
Proof.
  intros Hn. pose proof (sextet_char_ok_lt n Hn) as Hok.
  unfold sextet_char_ok in Hok.
  apply andb_prop in Hok as [_ Hok].
  now apply negb_true_iff in Hok.
Qed.

Lemma pad_not_ws : is_ascii_whitespace pad_char = false.
Proof. reflexivity. Qed.

Lemma s0_lt a : (a < 256)%N -> (s0 a < 64)%N.
Proof. unfold s0. intros. apply N.Div0.div_lt_upper_bound. lia. Qed.

Lemma s1_lt a b : (b < 256)%N -> (s1 a b < 64)%N.
Proof.
  unfold s1. intros Hb.
  assert (a mod 4 < 4)%N by (apply N.mod_lt; lia).
  assert (b / 16 < 16)%N by (apply N.Div0.div_lt_upper_bound; lia).
  lia.
Qed.

Lemma s2_lt b c : (c < 256)%N -> (s2 b c < 64)%N.
Proof.
  unfold s2. intros Hc.
  assert (b mod 16 < 16)%N by (apply N.mod_lt; lia).
  assert (c / 64 < 4)%N by (apply N.Div0.div_lt_upper_bound; lia).
  lia.
Qed.

Lemma s3_lt c : (s3 c < 64)%N.
Proof. unfold s3. apply N.mod_lt. lia. Qed.

Lemma byte0_s a b : (b < 256)%N -> byte0 (s0 a) (s1 a b) = a.
Proof.
  unfold byte0, s0, s1. intros Hb.
  assert (a mod 4 < 4)%N by (apply N.mod_lt; lia).
  assert (b / 16 < 16)%N by (apply N.Div0.div_lt_upper_bound; lia).
  rewrite N.div_add_l by lia.
  rewrite (N.div_small (b / 16) 16) by lia.
  pose proof (N.div_mod a 4). lia.
Qed.

Lemma byte1_s a b c : (b < 256)%N -> (c < 256)%N -> byte1 (s1 a b) (s2 b c) = b.
Proof.
  unfold byte1, s1, s2. intros Hb Hc.
  assert (b / 16 < 16)%N by (apply N.Div0.div_lt_upper_bound; lia).
  assert (c / 64 < 4)%N by (apply N.Div0.div_lt_upper_bound; lia).
  rewrite (N.add_comm (a mod 4 * 16)), N.Div0.mod_add, (N.mod_small (b / 16) 16) by lia.
  rewrite N.div_add_l by lia.
  rewrite (N.div_small (c / 64) 4) by lia.
  pose proof (N.div_mod b 16). lia.
Qed.

Lemma byte2_s b c : (c < 256)%N -> byte2 (s2 b c) (s3 c) = c.
Proof.
  unfold byte2, s2, s3. intros Hc.
  assert (c / 64 < 4)%N by (apply N.Div0.div_lt_upper_bound; lia).
  rewrite (N.add_comm (b mod 16 * 4)), N.Div0.mod_add, (N.mod_small (c / 64) 4) by lia.
  pose proof (N.div_mod c 64). lia.
Qed.

Lemma encode_groups_split l : encode_groups l = core l ++ padding l.
Proof.
  induction l as [| a | a b | a b c l IH] using list_ind3; simpl; try reflexivity.
  now rewrite IH.
Qed.

Lemma padding_cases l :
  padding l = [] \/ padding l = [pad_char] \/ padding l = [pad_char; pad_char].
Proof.
  induction l as [| a | a b | a b c l IH] using list_ind3; simpl; auto.
Qed.

Lemma core_clean l :
  Forall is_byte l ->
  Forall (fun c => is_pad c = false /\ is_ascii_whitespace c = false) (core l).
Proof.
  assert (Hc : forall n, (n < 64)%N ->
            is_pad (char_of_sextet n) = false /\
            is_ascii_whitespace (char_of_sextet n) = false)
    by (intros n Hn; split;
        [apply char_of_sextet_not_pad | apply char_of_sextet_not_ws]; exact Hn).
  assert (Hs : forall l', Forall is_byte l' -> forall n, In n l' -> (n < 256)%N)
    by (intros l' Hl'; apply List.Forall_forall; exact Hl').
  induction l as [| a | a b | a b c l IH] using list_ind3; intros Hl; simpl;
    repeat (apply List.Forall_cons;
            [apply Hc;
             first [apply s0_lt | apply s1_lt | apply s2_lt | apply s3_lt];
             first [apply (Hs _ Hl); simpl; tauto | lia] |]);
    try apply List.Forall_nil.
  apply IH. now inversion_clear Hl as [|? ? _ Hl']; inversion_clear Hl' as [|? ? _ Hl''];
    inversion_clear Hl'' as [|? ? _ Hl3].
Qed.

Lemma sextets_core l :
  Forall is_byte l ->
  exists v, sextets (core l) = Some v /\ decode_groups v = l.
Proof.
  induction l as [| a | a b | a b c l IH] using list_ind3; intros Hl; simpl.
  - exists []. split; reflexivity.
  - inversion_clear Hl as [|? ? Ha _]. unfold is_byte in Ha.
    rewrite !sextet_of_char_of_sextet by (first [apply s0_lt | apply s1_lt]; lia).
    eexists. split; [reflexivity|]. simpl.
    now rewrite byte0_s by lia.
  - inversion_clear Hl as [|? ? Ha Hl']. inversion_clear Hl' as [|? ? Hb _].
    unfold is_byte in Ha, Hb.
    rewrite !sextet_of_char_of_sextet
      by (first [apply s0_lt | apply s1_lt | apply s2_lt]; lia).
    eexists. split; [reflexivity|]. simpl.
    now rewrite byte0_s, byte1_s by lia.
  - inversion_clear Hl as [|? ? Ha Hl']. inversion_clear Hl' as [|? ? Hb Hl''].
    inversion_clear Hl'' as [|? ? Hc Hl]. unfold is_byte in Ha, Hb, Hc.
    destruct (IH Hl) as [v [Hv Hd]].
    rewrite !sextet_of_char_of_sextet
      by (first [apply s0_lt | apply s1_lt | apply s2_lt | apply s3_lt]; lia).
    rewrite Hv. eexists. split; [reflexivity|]. simpl.
    now rewrite byte0_s, byte1_s, byte2_s, Hd by lia.
Qed.

Lemma length_encode_groups l : exists k, length (encode_groups l) = 4 * k.
Proof.
  induction l as [| a | a b | a b c l [k IH]] using list_ind3; simpl.
  - now exists 0.
  - now exists 1.
  - now exists 1.
  - exists (S k). rewrite IH. lia.
Qed.

Lemma length_core l :
  exists k r, length (core l) = r + k * 4 /\ (r = 0 \/ r = 2 \/ r = 3).
Proof.
  induction l as [| a | a b | a b c l [k [r [IH Hr]]]] using list_ind3; simpl.
  - exists 0, 0. auto.
  - exists 0, 2. auto.
  - exists 0, 3. auto.
  - exists (S k), r. rewrite IH. split; [lia | exact Hr].
Qed.

Lemma strip_padding_core l p :
  Forall (fun c => is_pad c = false /\ is_ascii_whitespace c = false) l ->
  p = [] \/ p = [pad_char] \/ p = [pad_char; pad_char] ->
  strip_padding (l ++ p) = l.
Proof.
  intros Hl Hp.
  assert (Hhd : match rev l with c :: _ => is_pad c = false | [] => True end).
  { apply List.Forall_rev in Hl. destruct (rev l); [exact I|].
    inversion_clear Hl as [|? ? [H _] _]. exact H. }
  unfold strip_padding. rewrite rev_app_distr.
  destruct Hp as [-> | [-> | ->]]; simpl.
  - destruct (rev l) as [|c r] eqn:E.
    + now rewrite app_nil_r.
    + rewrite Hhd. now rewrite app_nil_r.
  - destruct (rev l) as [|c r] eqn:E.
    + apply (f_equal (@rev ascii)) in E. rewrite List.rev_involutive in E. now subst l.
    + rewrite Hhd. rewrite <- E. apply rev_involutive.
  - apply rev_involutive.
Qed.

Lemma filter_clean l :
  Forall (fun c => is_ascii_whitespace c = false) l ->
  List.filter (fun c => negb (is_ascii_whitespace c)) l = l.
Proof.
  induction 1 as [|c l Hc _ IH]; simpl; [reflexivity|].
  now rewrite Hc, IH.
Qed.

Lemma bytes_of_string s :
  Forall is_byte (map N_of_ascii (list_ascii_of_string s)).
Proof.
  apply List.Forall_forall. intros n Hn. apply List.in_map_iff in Hn as [c [<- _]].
  apply N_ascii_bounded.
Qed.

(** Decoding what [btoa] produced gives the binary string back. *)
Lemma atob_btoa s : atob (btoa s) = inr s.
Proof.
  unfold atob, btoa.
  rewrite list_ascii_of_string_of_list_ascii.
  set (l := map N_of_ascii (list_ascii_of_string s)).
  pose proof (bytes_of_string s) as Hl. fold l in Hl.
  pose proof (core_clean l Hl) as Hclean.
  rewrite filter_clean.
  2:{ rewrite encode_groups_split. apply List.Forall_app. split.
      - eapply List.Forall_impl; [|exact Hclean]. now intros c [_ H].
      - destruct (padding_cases l) as [-> | [-> | ->]];
          repeat constructor; apply pad_not_ws. }
  destruct (length_encode_groups l) as [k Hk]. rewrite Hk.
  replace (4 * k) with (k * 4) by lia. rewrite Nat.Div0.mod_mul.
  rewrite Nat.eqb_refl.
  rewrite encode_groups_split, strip_padding_core
    by (try exact Hclean; apply padding_cases).
  destruct (length_core l) as [k' [r [Hlen Hr]]]. rewrite Hlen.
  rewrite Nat.Div0.mod_add.
  replace ((r mod 4 =? 1)%nat) with false
    by (destruct Hr as [-> | [-> | ->]]; reflexivity).
  destruct (sextets_core l Hl) as [v [-> Hd]]. rewrite Hd.
  unfold l. rewrite map_map.
  rewrite (map_ext _ (fun c => c)) by (intros c; apply ascii_N_embedding).
  rewrite map_id. now rewrite string_of_list_ascii_of_string.
Qed.

End Base64Facts.

(** ** Typed arrays and the binary helpers *)

Section BinaryHelpers.

Lemma Z_of_byte_of_Z z : Z_of_byte (byte_of_Z z) = (z mod 256)%Z.
Proof.
  unfold Z_of_byte, byte_of_Z.
  assert (Hr : (0 <= z mod 256 < 256)%Z) by (apply Z.mod_pos_bound; lia).
  destruct (Byte.of_N (Z.to_N (z mod 256))) as [b|] eqn:E.
  - apply Byte.to_of_N in E. rewrite E. lia.
  - apply Byte.of_N_None_iff in E. lia.
Qed.

Lemma f32_of_bytes_f32_bytes w :
  is_f32 w ->
  f32_of_bytes (byte_of_Z w) (byte_of_Z (w / 2 ^ 8))
               (byte_of_Z (w / 2 ^ 16)) (byte_of_Z (w / 2 ^ 24)) = w.
Proof.
  unfold is_f32, f32_of_bytes. intros Hw.
  rewrite !Z_of_byte_of_Z.
  change (2 ^ 8)%Z with 256%Z. change (2 ^ 16)%Z with 65536%Z.
  change (2 ^ 24)%Z with 16777216%Z. change (2 ^ 32)%Z with 4294967296%Z in Hw.
  Z.to_euclidean_division_equations. lia.
Qed.

Lemma f32_elements_flat_map xs :
  List.Forall is_f32 xs -> f32_elements (flat_map f32_bytes xs) = xs.
Proof.
  induction 1 as [|w xs Hw _ IH]; [reflexivity|].
  cbn [flat_map f32_bytes app f32_elements].
  now rewrite f32_of_bytes_f32_bytes, IH.
Qed.

Lemma length_flat_map_f32_bytes xs :
  length (flat_map f32_bytes xs) = length xs * 4.
Proof.
  induction xs as [|w xs IH]; [reflexivity|].
  cbn [flat_map f32_bytes app length]. rewrite IH. lia.
Qed.

Lemma append_nil_l (s : string) : ("" ++ s)%string = s.
Proof. reflexivity. Qed.

Lemma append_cons (c : ascii) (s t : string) :
  (String c s ++ t)%string = String c (s ++ t)%string.
Proof. reflexivity. Qed.

Lemma append_nil_r (s : string) : (s ++ "")%string = s.
Proof.
  induction s as [|c s IH]; [reflexivity|]. now rewrite append_cons, IH.
Qed.

Lemma string_of_list_byte_app l1 l2 :
  string_of_list_byte (l1 ++ l2)
  = (string_of_list_byte l1 ++ string_of_list_byte l2)%string.
Proof.
  unfold string_of_list_byte. rewrite map_app.
  induction (map ascii_of_byte l1) as [|c l IH]; [reflexivity|].
  cbn [app string_of_list_ascii]. now rewrite append_cons, IH.
Qed.

Lemma string_app_assoc (a b c : string) :
  ((a ++ b) ++ c = a ++ (b ++ c))%string.
Proof.
  induction a as [|x a IH]; [reflexivity|]. now rewrite !append_cons, IH.
Qed.

Lemma subarray_chunk bytes i :
  i < length bytes ->
  subarray bytes i (Nat.min (i + chunkSize) (length bytes))
    ++ skipn (i + chunkSize) bytes
  = skipn i bytes.
Proof.
  intros Hi. unfold subarray.
  replace (skipn (i + chunkSize) bytes) with (skipn chunkSize (skipn i bytes))
    by (rewrite List.skipn_skipn; f_equal; lia).
  pose proof (List.length_skipn i bytes) as Hlen.
  destruct (Nat.le_gt_cases (i + chunkSize) (length bytes)) as [Hle | Hgt].
  - rewrite Nat.min_l by exact Hle.
    replace (i + chunkSize - i) with chunkSize by lia.
    apply List.firstn_skipn.
  - rewrite Nat.min_r by lia.
    rewrite List.firstn_all2 by lia.
    rewrite (List.skipn_all2 (n := chunkSize)) by lia. apply app_nil_r.
Qed.

(** The chunked loop builds the binary string of the bytes from [i] on. *)
Lemma fromCharCode_loop_spec bytes i binary :
  fromCharCode_loop bytes i binary
  = (binary ++ string_of_list_byte (skipn i bytes))%string.
Proof.
  funelim (fromCharCode_loop bytes i binary).
  - rewrite H. unfold String_fromCharCode.
    rewrite string_app_assoc, <- string_of_list_byte_app.
    now rewrite subarray_chunk by assumption.
  - rewrite List.skipn_all2 by lia. symmetry. apply append_nil_r.
Qed.

Lemma charCodes_of_string s :
  map (charCodeAt_u8 s) (seq 0 (String.length s)) = list_byte_of_string s.
Proof.
  induction s as [|c s IH]; [reflexivity|].
  cbn [String.length seq map]. rewrite <- List.seq_shift, map_map.
  unfold list_byte_of_string in *. cbn [list_ascii_of_string map].
  f_equal. exact IH.
Qed.

(** Decoding an encoded array rebuilds a window on the same bytes. *)
Lemma base64ToFloat32_float32ToBase64 a :
  base64ToFloat32 (float32ToBase64 a) = Float32Array_on (Float32Array.buffer a).
Proof.
  unfold base64ToFloat32, float32ToBase64.
  rewrite atob_btoa, fromCharCode_loop_spec. cbn [skipn]. rewrite append_nil_l.
  now rewrite charCodes_of_string, list_byte_of_string_of_list_byte.
Qed.

End BinaryHelpers.

(** ** Floor control *)

Section FloorControl.

Lemma speaker_is_true peerId r :
  speaker_is peerId r = true <-> speakerId r = Some peerId.
Proof.
  unfold speaker_is. destruct (speakerId r) as [s|]; [|split; discriminate].
  rewrite String.eqb_eq. split; congruence.
Qed.

Lemma speaker_is_unique p q r :
  speaker_is p r = true -> speaker_is q r = true -> p = q.
Proof. rewrite !speaker_is_true. congruence. Qed.

Lemma granted_at_most_one r : (length (granted r) <= 1)%nat.
Proof. unfold granted. destruct (speakerId r); simpl; lia. Qed.

Lemma In_granted p r : In p (granted r) <-> speakerId r = Some p.
Proof.
  unfold granted. destruct (speakerId r) as [s|]; simpl.
  - split; [intros [-> | []]; reflexivity | intros [= ->]; now left].
  - split; [intros [] | discriminate].
Qed.

(** The handler of a control event, signal by signal. *)
Lemma handle_request env event senderId state :
  is_control REQUEST_TOKEN event ->
  handleIncomingEvent env event senderId state
  = if String.eqb (myId state) (hostId (roomState state)) then
      let granteeId :=
        or_string (payload_targetPeerId (TranslationEvent.payload event)) senderId in
      (set_roomState (with_speakerId (Some granteeId) (roomState state)) state,
       [Broadcast (control_event env (myId state) GRANT_TOKEN (Some granteeId))])
    else (state, []).
Proof.
  intros [Ht Hs]. unfold handleIncomingEvent. rewrite Ht, Hs. cbn [is_signal].
  now destruct (String.eqb (myId state) (hostId (roomState state))).
Qed.

Lemma handle_grant env event senderId state :
  is_control GRANT_TOKEN event ->
  handleIncomingEvent env event senderId state
  = (set_roomState
       (with_speakerId (or_null (payload_targetPeerId (TranslationEvent.payload event)))
          (roomState state)) state, []).
Proof.
  intros [Ht Hs]. unfold handleIncomingEvent. rewrite Ht, Hs. reflexivity.
Qed.

Lemma handle_release env event senderId state :
  is_control RELEASE_TOKEN event ->
  handleIncomingEvent env event senderId state
  = (set_roomState (with_speakerId None (roomState state)) state, []).
Proof.
  intros [Ht Hs]. unfold handleIncomingEvent. rewrite Ht, Hs. reflexivity.
Qed.

(** Whoever holds the floor after a step held it before or was named as
    grantee by that very step. *)
Lemma step_speaker a state p :
  speakerId (roomState (fst (step a state))) = Some p ->
  speakerId (roomState state) = Some p \/
  match a with
  | Incoming _ event senderId =>
      p = senderId \/
      payload_targetPeerId (TranslationEvent.payload event) = Some p
  | RequestStick _ => p = myId state
  | _ => False
  end.
Proof.
  destruct a as [env event senderId | peerId | env peerId | host | env | env];
    cbn [step fst].
  - unfold handleIncomingEvent.
    destruct (TranslationEvent.type event); cbn [fst];
      try (intros H; left; exact H).
    + destruct (negb (String.eqb senderId (myId state))); [|now left].
      destruct (base64ToFloat32 _); [now left|].
      destruct (String.eqb senderId "TRANSLATOR_BOT"); now left.
    + destruct (payload_signal (TranslationEvent.payload event)) as [[| | | | |lit]|];
        cbn [is_signal fst roomState set_roomState speakerId with_speakerId];
        try (intros H; left; exact H); try discriminate.
      * destruct (String.eqb (myId state) (hostId (roomState state)));
          cbn [fst roomState set_roomState speakerId with_speakerId];
          [|now left].
        intros [= <-]. right. unfold or_string.
        destruct (payload_targetPeerId _) as [s|]; [|now left].
        destruct (String.eqb s ""); [now left | now right].
      * unfold or_null.
        destruct (payload_targetPeerId _) as [s|]; [|discriminate].
        destruct (String.eqb s ""); [discriminate|].
        intros [= <-]. right. now right.
  - unfold onPeerLeave. cbn [roomState set_roomState speakerId with_speakerId with_peers].
    destruct (speaker_is peerId (roomState state)); [discriminate | now left].
  - now left.
  - now left.
  - unfold requestTalkingStick.
    destruct (String.eqb (myId state) (hostId (roomState state)));
      cbn [fst roomState set_roomState speakerId with_speakerId]; [|now left].
    intros [= <-]. now right.
  - unfold releaseTalkingStick.
    destruct (speaker_is (myId state) (roomState state));
      cbn [fst roomState set_roomState speakerId with_speakerId];
      [discriminate | now left].
Qed.

(** The leave of a peer as the store sees it through the network service:
    the peer-leave callback, then the callback of the election that follows.
    The floor is cleared exactly when the leaver held it. *)
Lemma transport_leave_speaker env peerId net state :
  NetworkService.peerLeaveCallback net = true ->
  speakerId (roomState
               (notify_all env (snd (NetworkService.room_onPeerLeave peerId net)) state))
  = if speaker_is peerId (roomState state) then None
    else speakerId (roomState state).
Proof.
  intros Hcb. unfold NetworkService.room_onPeerLeave. cbn [snd].
  cbn [NetworkService.set_peers NetworkService.peerLeaveCallback]. rewrite Hcb.
  unfold NetworkService._handlePeerDiscovery.
  destruct (NetworkService.newHostId _) as [h|];
    [destruct (NetworkService.hostChangedCallback _)|]; reflexivity.
Qed.

End FloorControl.

(** C1. Whatever sequence of inbound events (control signals among them),
    peer-leave notifications and local floor actions the store processes,
    the room after every step records no speaker or exactly one: the peers it
    counts as granted are none or a single id, and two ids that both test as
    the speaker are the same id. *)
Theorem single_speaker_invariant (actions : list Action) (state0 : AppState) :
  List.Forall (fun state => single_speaker (roomState state))
    (trace actions state0).
Proof.
  revert state0.
  induction actions as [|a actions IH]; intros state0; cbn [trace].
  - constructor.
  - constructor; [|apply IH].
    split.
    + unfold granted.
      destruct (speakerId (roomState (fst (step a state0)))) as [p|];
        [right; exists p; split; reflexivity | left; split; reflexivity].
    + intros p q. apply speaker_is_unique.
Qed.

(** C2. A peer that is not the host ignores a [REQUEST_TOKEN]: the store is
    left as it was, so [speakerId] is unchanged, and nothing is sent, so no
    [GRANT_TOKEN] is broadcast. *)
Theorem request_ignored_by_non_host
    (env : Env) (event : TranslationEvent.t) (senderId : string) (state : AppState) :
  is_control REQUEST_TOKEN event ->
  myId state <> hostId (roomState state) ->
  let (state', sent) := handleIncomingEvent env event senderId state in
  speakerId (roomState state') = speakerId (roomState state)
  /\ existsb is_grant sent = false
  /\ state' = state /\ sent = [].
Proof.
  intros Hreq Hhost. rewrite (handle_request _ _ _ _ Hreq).
  apply String.eqb_neq in Hhost. rewrite Hhost.
  repeat split; reflexivity.
Qed.

(** C5. When a peer leaves, the peer-leave handler alone clears the floor if
    the leaver held it, no [RELEASE_TOKEN] being involved, and leaves
    [speakerId] as it was otherwise. *)
Theorem peer_leave_releases_floor (peerId : string) (state : AppState) :
  (speakerId (roomState state) = Some peerId ->
   speakerId (roomState (fst (step (PeerLeft peerId) state))) = None)
  /\ (speakerId (roomState state) <> Some peerId ->
      speakerId (roomState (fst (step (PeerLeft peerId) state)))
      = speakerId (roomState state)).
Proof.
  cbn [step fst]. unfold onPeerLeave.
  cbn [roomState set_roomState speakerId with_speakerId with_peers].
  destruct (speaker_is peerId (roomState state)) eqn:E.
  - apply speaker_is_true in E. split; [reflexivity | congruence].
  - split; [|reflexivity].
    intros H. apply speaker_is_true in H. congruence.
Qed.

(** C10. A [GRANT_TOKEN] whose payload has no [targetPeerId] clears the
    floor: [speakerId] becomes [null], nothing is sent and nothing is thrown. *)
Theorem grant_without_target_clears_floor
    (env : Env) (event : TranslationEvent.t) (senderId : string) (state : AppState) :
  TranslationEvent.type event = CONTROL_SIGNAL ->
  TranslationEvent.payload event = ControlPayload GRANT_TOKEN None ->
  let (state', sent) := handleIncomingEvent env event senderId state in
  speakerId (roomState state') = None /\ sent = [].
Proof.
  intros Ht Hp.
  rewrite handle_grant by (split; [exact Ht | now rewrite Hp]).
  rewrite Hp. split; reflexivity.
Qed.

(** ** Leader election *)

Section LeaderElection.
Import NetworkService.

Lemma leb_refl s : String.leb s s = true.
Proof. destruct (String.leb_total s s); assumption. Qed.

Lemma leb_trans s1 s2 s3 :
  String.leb s1 s2 = true -> String.leb s2 s3 = true -> String.leb s1 s3 = true.
Proof.
  intros H12 H23. apply Is_true_true.
  apply (@transitivity _ String.le _ s1 s2 s3); apply Is_true_true; assumption.
Qed.

Lemma leb_false_flip s1 s2 : String.leb s1 s2 = false -> String.leb s2 s1 = true.
Proof. intros H. destruct (String.leb_total s1 s2); congruence. Qed.

Lemma insert_sorted_head x l :
  (forall h rest, l = h :: rest -> lower h l) ->
  exists h rest, insert_sorted x l = h :: rest
                 /\ In h (x :: l) /\ lower h (x :: l).
Proof.
  intros Hl. destruct l as [|y r]; cbn [insert_sorted].
  - exists x, []. repeat split; [now left|].
    intros z [<- | []]. apply leb_refl.
  - specialize (Hl y r eq_refl).
    destruct (String.leb x y) eqn:E.
    + exists x, (y :: r). repeat split; [now left|].
      intros z [<- | Hz]; [apply leb_refl|].
      eapply leb_trans; [exact E | apply Hl, Hz].
    + exists y, (insert_sorted x r). repeat split; [right; now left|].
      intros z [<- | Hz]; [now apply leb_false_flip | apply Hl, Hz].
Qed.

Lemma In_insert_sorted x l z : In z (insert_sorted x l) <-> z = x \/ In z l.
Proof.
  induction l as [|y r IH]; cbn [insert_sorted].
  - simpl. intuition.
  - destruct (String.leb x y); simpl; [intuition|].
    rewrite IH. simpl. intuition.
Qed.

Lemma In_Array_sort l z : In z (Array_sort l) <-> In z l.
Proof.
  induction l as [|x l IH]; [reflexivity|].
  cbn [Array_sort fold_right]. fold (Array_sort l).
  rewrite In_insert_sorted, IH. simpl. intuition.
Qed.

(** The first element of the sorted copy is a member below all members. *)
Lemma Array_sort_head l h rest :
  Array_sort l = h :: rest -> In h l /\ lower h l.
Proof.
  revert h rest. induction l as [|x l IH]; intros h rest; [discriminate|].
  cbn [Array_sort fold_right]. fold (Array_sort l). intros E.
  destruct (insert_sorted_head x (Array_sort l)) as [h' [rest' [E' [Hin Hlow]]]].
  - intros h0 r0 E0. intros z Hz. apply (IH h0 r0 E0). now apply In_Array_sort.
  - rewrite E in E'. injection E' as <- <-.
    split.
    + destruct Hin as [-> | Hin]; [now left | right; now apply In_Array_sort].
    + intros z [<- | Hz]; apply Hlow; [now left | right; now apply In_Array_sort].
Qed.

(** The local id stays known as long as the transport does not report it
    as leaving, so the set the election sees is not empty. *)
Lemma deliver_keeps_self events this :
  In (selfId this) (NetworkService.peers this) ->
  ~ In (Left (selfId this)) events ->
  let this' := fst (deliver events this) in
  selfId this' = selfId this /\ In (selfId this) (NetworkService.peers this').
Proof.
  revert this. induction events as [|e events IH]; intros this Hin Hnot.
  - cbn. tauto.
  - cbn [deliver].
    assert (Hstep : exists this1 out1,
               match e with
               | Joined p => room_onPeerJoin p this
               | Left p => room_onPeerLeave p this
               end = (this1, out1)
               /\ selfId this1 = selfId this
               /\ In (selfId this) (NetworkService.peers this1)).
    { destruct e as [p | p]; eexists; eexists; (split; [reflexivity|]);
        cbn [set_peers selfId NetworkService.peers]; (split; [reflexivity|]).
      - unfold Set_add. destruct (Set_has p (NetworkService.peers this));
          [exact Hin | apply in_or_app; now left].
      - unfold Set_delete. apply List.filter_In. split; [exact Hin|].
        apply negb_true_iff, String.eqb_neq. intros E. apply Hnot. left. now rewrite E. }
    destruct Hstep as (this1 & out1 & -> & Hself & Hin1).
    specialize (IH this1). rewrite Hself in IH.
    specialize (IH Hin1 (fun H => Hnot (or_intror H))).
    destruct (deliver events this1) as [final out']. cbn [fst] in *. exact IH.
Qed.

Lemma newHostId_some l :
  l <> [] -> exists h, newHostId l = Some h /\ In h l /\ lower h l.
Proof.
  intros Hl. unfold newHostId.
  destruct l as [|x l]; [congruence|]. cbn [length Nat.eqb].
  destruct (Array_sort (x :: l)) as [|h rest] eqn:E.
  - assert (In x (Array_sort (x :: l))) by (apply In_Array_sort; now left).
    rewrite E in H. destruct H.
  - exists h. split; [reflexivity|]. exact (Array_sort_head _ _ _ E).
Qed.

End LeaderElection.

(** C3. For a non-empty set of known ids the election computes a host that
    is a member of the set and is lexicographically below every member.  Two
    insertion histories that leave the same members (in any order) compute the
    same host; taking the same set twice, re-running the election gives the
    same host again. *)
Theorem election_smallest_id (known known' : list string) :
  known <> [] ->
  (forall x, In x known <-> In x known') ->
  exists host,
    NetworkService.newHostId known = Some host
    /\ NetworkService.newHostId known' = Some host
    /\ In host known
    /\ (forall x, In x known -> String.leb host x = true).
Proof.
  intros Hne Hsame.
  destruct (newHostId_some known Hne) as [h [Eh [Hin Hlow]]].
  assert (Hne' : known' <> []).
  { intros ->. apply Hsame in Hin. destruct Hin. }
  destruct (newHostId_some known' Hne') as [h' [Eh' [Hin' Hlow']]].
  assert (h' = h) as ->.
  { apply String.leb_antisym; [apply Hlow', Hsame, Hin | apply Hlow, Hsame, Hin']. }
  exists h. repeat split; assumption.
Qed.

(** ** Wire codec *)

(** C6. Encoding a sequence of 32-bit float samples with [float32ToBase64]
    and decoding the payload with [base64ToFloat32] succeeds and gives an
    array with the same bytes, hence the same samples bit for bit. *)
Theorem wire_round_trip (xs : list Z) :
  List.Forall is_f32 xs ->
  exists decoded,
    base64ToFloat32 (float32ToBase64 (Float32Array_of xs)) = inr decoded
    /\ samples decoded = xs
    /\ decoded = Float32Array_of xs.
Proof.
  intros Hxs. exists (Float32Array_of xs).
  rewrite base64ToFloat32_float32ToBase64.
  unfold Float32Array_on, Float32Array_of, samples. cbn [Float32Array.buffer Float32Array.byteOffset Float32Array.length].
  rewrite length_flat_map_f32_bytes, Nat.Div0.mod_mul, Nat.eqb_refl.
  rewrite Nat.div_mul by discriminate.
  repeat split.
  rewrite List.skipn_O, List.firstn_all2
    by (rewrite length_flat_map_f32_bytes; lia).
  now apply f32_elements_flat_map.
Qed.

(** ** Binary floating point *)

Section Rounding.
Local Open Scope Q_scope.

Lemma two_not_0 : ~ (2 # 1) == 0.
Proof. discriminate. Qed.

Lemma pow2_pos e : 0 < pow2 e.
Proof. apply Qpower_0_lt. reflexivity. Qed.

Lemma pow2_add a b : pow2 (a + b) == pow2 a * pow2 b.
Proof. apply Qpower_plus, two_not_0. Qed.

Lemma pow2_succ e : pow2 (e + 1) == 2 * pow2 e.
Proof. rewrite pow2_add. unfold pow2 at 2. rewrite Qpower_1_r. ring. Qed.

Lemma pow2_pred e : pow2 e == 2 * pow2 (e - 1).
Proof. rewrite <- pow2_succ. now replace (e - 1 + 1)%Z with e by lia. Qed.

Lemma pow2_le a b : (a <= b)%Z -> pow2 a <= pow2 b.
Proof. intros H. apply Qpower_le_compat_l; [exact H | discriminate]. Qed.

Lemma pow2_lt a b : (a < b)%Z -> pow2 a < pow2 b.
Proof. intros H. apply Qpower_lt_compat_l; [exact H | reflexivity]. Qed.

Lemma pow2_lt_inv a b : pow2 a < pow2 b -> (a < b)%Z.
Proof. intros H. apply (Qpower_lt_compat_l_inv (2 # 1)); [exact H | reflexivity]. Qed.

Lemma pow2_Z n : (0 <= n)%Z -> pow2 n == inject_Z (2 ^ n).
Proof. intros H. unfold pow2. now rewrite Zpower_Qpower. Qed.

Lemma pow2_0 : pow2 0 == 1.
Proof. reflexivity. Qed.

(** Scaling by a power of two and back. *)
Lemma div_mul_pow2 x e : x / pow2 e * pow2 e == x.
Proof. field. pose proof (pow2_pos e). intros H0. rewrite H0 in H. discriminate. Qed.

Lemma div_pow2_le x y e : x <= y -> x / pow2 e <= y / pow2 e.
Proof.
  intros H. unfold Qdiv. apply Qmult_le_compat_r; [exact H|].
  apply Qlt_le_weak, Qinv_lt_0_compat, pow2_pos.
Qed.

Lemma div_pow2_lt x y e : x < y -> x / pow2 e < y / pow2 e.
Proof.
  intros H. unfold Qdiv. apply Qmult_lt_compat_r; [|exact H].
  apply Qinv_lt_0_compat, pow2_pos.
Qed.

Lemma pow2_div a b : pow2 a / pow2 b == pow2 (a - b).
Proof. symmetry. apply Qpower_minus, two_not_0. Qed.

(** *** The binary logarithm *)

Lemma Qnum_pos x : 0 < x -> (0 < Qnum x)%Z.
Proof. destruct x as [a b]. unfold Qlt. cbn. lia. Qed.

Lemma Qlog2_spec x : 0 < x -> pow2 (Qlog2 x) <= x /\ x < pow2 (Qlog2 x + 1).
Proof.
  intros Hx. pose proof (Qnum_pos x Hx) as Ha.
  destruct x as [a b]. cbn [Qnum] in Ha. unfold Qlog2. cbn [Qnum Qden].
  set (la := Z.log2 a). set (lb := Z.log2 (Z.pos b)).
  destruct (Z.log2_spec a Ha) as [Ha1 Ha2]. fold la in Ha1, Ha2.
  destruct (Z.log2_spec (Z.pos b) eq_refl) as [Hb1 Hb2]. fold lb in Hb1, Hb2.
  assert (Hla : (0 <= la)%Z) by apply Z.log2_nonneg.
  assert (Hlb : (0 <= lb)%Z) by apply Z.log2_nonneg.
  assert (Hxb : (a # b) * inject_Z (Z.pos b) == inject_Z a).
  { unfold Qeq, Qmult, inject_Z. cbn. lia. }
  (* upper bound with exponent la - lb + 1 *)
  assert (Hup : (a # b) < pow2 (la - lb + 1)).
  { apply Qmult_lt_r with (pow2 lb); [apply pow2_pos|].
    rewrite <- pow2_add. replace (la - lb + 1 + lb)%Z with (Z.succ la) by lia.
    apply Qle_lt_trans with (inject_Z a).
    - rewrite <- Hxb. apply Qmult_le_l; [exact Hx|].
      rewrite pow2_Z by exact Hlb. now rewrite <- Zle_Qle.
    - rewrite pow2_Z by lia. now rewrite <- Zlt_Qlt. }
  (* lower bound with exponent la - lb - 1 *)
  assert (Hlow : pow2 (la - lb - 1) <= (a # b)).
  { apply Qmult_le_r with (pow2 (Z.succ lb)); [apply pow2_pos|].
    rewrite <- pow2_add. replace (la - lb - 1 + Z.succ lb)%Z with la by lia.
    apply Qle_trans with (inject_Z a).
    - rewrite pow2_Z by exact Hla. now rewrite <- Zle_Qle.
    - rewrite <- Hxb. apply Qmult_le_l; [exact Hx|].
      rewrite pow2_Z by lia. rewrite <- Zle_Qle. lia. }
  destruct (Qle_bool (pow2 (la - lb)) (a # b)) eqn:E.
  - apply Qle_bool_iff in E. split; assumption.
  - split; [exact Hlow|].
    replace (la - lb - 1 + 1)%Z with (la - lb)%Z by lia.
    apply Qnot_le_lt. intros H. apply Qle_bool_iff in H. congruence.
Qed.

Lemma Qlog2_unique x l : pow2 l <= x -> x < pow2 (l + 1) -> Qlog2 x = l.
Proof.
  intros H1 H2.
  assert (Hx : 0 < x) by (apply Qlt_le_trans with (pow2 l); [apply pow2_pos | exact H1]).
  destruct (Qlog2_spec x Hx) as [H3 H4].
  assert (Qlog2 x < l + 1)%Z
    by (apply pow2_lt_inv; apply Qle_lt_trans with x; assumption).
  assert (l < Qlog2 x + 1)%Z
    by (apply pow2_lt_inv; apply Qle_lt_trans with x; assumption).
  lia.
Qed.

Lemma Qlog2_comp x y : 0 < x -> x == y -> Qlog2 x = Qlog2 y.
Proof.
  intros Hx E. destruct (Qlog2_spec x Hx) as [H1 H2].
  symmetry. apply Qlog2_unique; rewrite <- E; assumption.
Qed.

Lemma Qlog2_lt x k : 0 < x -> x < pow2 k -> (Qlog2 x < k)%Z.
Proof.
  intros Hx H. destruct (Qlog2_spec x Hx) as [H1 _].
  apply pow2_lt_inv. now apply Qle_lt_trans with x.
Qed.

Lemma Qlog2_ge x k : pow2 k <= x -> (k <= Qlog2 x)%Z.
Proof.
  intros H.
  assert (Hx : 0 < x) by (apply Qlt_le_trans with (pow2 k); [apply pow2_pos | exact H]).
  destruct (Qlog2_spec x Hx) as [_ H2].
  assert (k < Qlog2 x + 1)%Z
    by (apply pow2_lt_inv; now apply Qle_lt_trans with x).
  lia.
Qed.

Lemma Qlog2_le x y : 0 < x -> x <= y -> (Qlog2 x <= Qlog2 y)%Z.
Proof.
  intros Hx H. destruct (Qlog2_spec x Hx) as [H1 _].
  apply Qlog2_ge. now apply Qle_trans with x.
Qed.

(** *** Rounding to an integer *)

Lemma round_half_even_cases x :
  (round_half_even x = Qfloor x /\ x - inject_Z (Qfloor x) <= 1 # 2)
  \/ (round_half_even x = (Qfloor x + 1)%Z /\ 1 # 2 <= x - inject_Z (Qfloor x)).
Proof.
  unfold round_half_even.
  destruct (Qcompare (x - inject_Z (Qfloor x)) (1 # 2)) eqn:E.
  - apply Qeq_alt in E. destruct (Z.even (Qfloor x)).
    + left. split; [reflexivity|]. rewrite E. apply Qle_refl.
    + right. split; [reflexivity|]. rewrite E. apply Qle_refl.
  - apply Qlt_alt in E. left. split; [reflexivity | now apply Qlt_le_weak].
  - apply Qgt_alt in E. right. split; [reflexivity | now apply Qlt_le_weak].
Qed.

Lemma round_half_even_error x :
  x - (1 # 2) <= inject_Z (round_half_even x)
  /\ inject_Z (round_half_even x) <= x + (1 # 2).
Proof.
  pose proof (Qfloor_le x) as H1. pose proof (Qlt_floor x) as H2.
  rewrite inject_Z_plus in H2. change (inject_Z 1) with 1 in H2.
  destruct (round_half_even_cases x) as [[-> H] | [-> H]].
  - split; lra.
  - rewrite inject_Z_plus. change (inject_Z 1) with 1. split; lra.
Qed.

Lemma round_half_even_comp x y : x == y -> round_half_even x = round_half_even y.
Proof.
  intros E. unfold round_half_even.
  rewrite (Qfloor_comp _ _ E).
  assert (E' : x - inject_Z (Qfloor y) == y - inject_Z (Qfloor y)) by (rewrite E; reflexivity).
  now rewrite (Qcompare_comp _ _ E' _ _ (Qeq_refl (1 # 2))).
Qed.

Lemma round_half_even_near (z : Z) x :
  - (1 # 2) < x - inject_Z z -> x - inject_Z z < 1 # 2 -> round_half_even x = z.
Proof.
  intros H1 H2. destruct (round_half_even_error x) as [H3 H4].
  assert (Ha : inject_Z (round_half_even x) < inject_Z (z + 1)).
  { rewrite inject_Z_plus. change (inject_Z 1) with 1. lra. }
  assert (Hb : inject_Z (z - 1) < inject_Z (round_half_even x)).
  { replace (z - 1)%Z with (z + -1)%Z by lia. rewrite inject_Z_plus.
    change (inject_Z (-1)) with (-1 # 1). lra. }
  rewrite <- Zlt_Qlt in Ha, Hb. lia.
Qed.

Lemma round_half_even_Z (z : Z) : round_half_even (inject_Z z) = z.
Proof. apply round_half_even_near; ring_simplify; reflexivity. Qed.

Lemma round_half_even_le x y : x <= y -> (round_half_even x <= round_half_even y)%Z.
Proof.
  intros H. destruct (Qlt_le_dec x y) as [Hlt | Hge].
  - destruct (round_half_even_error x) as [_ H1].
    destruct (round_half_even_error y) as [H2 _].
    assert (Ha : inject_Z (round_half_even x) < inject_Z (round_half_even y + 1)).
    { rewrite inject_Z_plus. change (inject_Z 1) with 1. lra. }
    rewrite <- Zlt_Qlt in Ha. lia.
  - rewrite (round_half_even_comp x y); [lia|]. now apply Qle_antisym.
Qed.

End Rounding.

Section Format.
Local Open Scope Q_scope.
Variables prec emin : Z.
Hypothesis Hprec : (1 <= prec)%Z.

Lemma exponent_comp x y : 0 < x -> x == y -> exponent prec emin x = exponent prec emin y.
Proof. intros Hx E. unfold exponent. now rewrite (Qlog2_comp x y Hx E). Qed.

Lemma exponent_ge x : (emin <= exponent prec emin x)%Z.
Proof. unfold exponent. lia. Qed.

Lemma exponent_le x y :
  0 < x -> x <= y -> (exponent prec emin x <= exponent prec emin y)%Z.
Proof.
  intros Hx H. unfold exponent. pose proof (Qlog2_le x y Hx H). lia.
Qed.

(** A positive number below [2 ^ (K + 1)] has its last place at
    [max (K - (prec - 1)) emin] or below. *)
Lemma exponent_below x K :
  0 < x -> x < pow2 (K + 1) ->
  (exponent prec emin x <= Z.max (K - (prec - 1)) emin)%Z.
Proof.
  intros Hx H. unfold exponent. pose proof (Qlog2_lt x (K + 1) Hx H). lia.
Qed.

Lemma round_positive_comp x y :
  0 < x -> x == y -> round_positive prec emin x == round_positive prec emin y.
Proof.
  intros Hx E. unfold round_positive. rewrite (exponent_comp x y Hx E).
  assert (E' : x / pow2 (exponent prec emin y) == y / pow2 (exponent prec emin y))
    by (rewrite E; reflexivity).
  now rewrite (round_half_even_comp _ _ E').
Qed.

Lemma round_positive_nonneg x : 0 < x -> 0 <= round_positive prec emin x.
Proof.
  intros Hx. unfold round_positive.
  set (e := exponent prec emin x).
  apply Qmult_le_0_compat; [|apply Qlt_le_weak, pow2_pos].
  change 0 with (inject_Z 0). rewrite <- Zle_Qle.
  rewrite <- (round_half_even_Z 0). apply round_half_even_le.
  assert (Hz : 0 / pow2 e <= x / pow2 e) by (apply div_pow2_le; now apply Qlt_le_weak).
  unfold Qdiv in Hz at 1. rewrite Qmult_0_l in Hz. exact Hz.
Qed.

(** A number with a significand of [prec] bits is not changed. *)
Lemma round_positive_exact x (m e0 : Z) :
  (0 < m < 2 ^ prec)%Z -> (emin <= e0)%Z -> x == inject_Z m * pow2 e0 ->
  round_positive prec emin x == x.
Proof.
  intros Hm He0 E.
  assert (Hx : 0 < x).
  { rewrite E. apply Qmult_lt_0_compat; [|apply pow2_pos].
    change 0 with (inject_Z 0). rewrite <- Zlt_Qlt. lia. }
  assert (Hup : x < pow2 (prec + e0)).
  { rewrite E, pow2_add. apply Qmult_lt_compat_r; [apply pow2_pos|].
    rewrite pow2_Z by lia. rewrite <- Zlt_Qlt. lia. }
  unfold round_positive. set (e := exponent prec emin x).
  assert (He : (e <= e0)%Z).
  { subst e. unfold exponent. pose proof (Qlog2_lt x _ Hx Hup). lia. }
  assert (Hscaled : x / pow2 e == inject_Z (m * 2 ^ (e0 - e))).
  { rewrite inject_Z_mult, <- pow2_Z by lia. rewrite E.
    replace e0 with (e0 - e + e)%Z at 1 by lia. rewrite pow2_add.
    field. pose proof (pow2_pos e) as Hp. intros H0. rewrite H0 in Hp. discriminate. }
  rewrite (round_half_even_comp _ _ Hscaled), round_half_even_Z.
  rewrite <- Hscaled. apply div_mul_pow2.
Qed.

Lemma round_positive_le x y :
  0 < x -> x <= y -> round_positive prec emin x <= round_positive prec emin y.
Proof.
  intros Hx H.
  assert (Hy : 0 < y) by (now apply Qlt_le_trans with x).
  pose proof (exponent_le x y Hx H) as He.
  unfold round_positive.
  set (ex := exponent prec emin x) in *. set (ey := exponent prec emin y) in *.
  destruct (Z.eq_dec ex ey) as [Heq | Hne].
  - rewrite Heq. apply Qmult_le_compat_r; [|apply Qlt_le_weak, pow2_pos].
    rewrite <- Zle_Qle. apply round_half_even_le. now apply div_pow2_le.
  - assert (Hlt : (ex < ey)%Z) by lia.
    destruct (Qlog2_spec x Hx) as [_ Hx2]. destruct (Qlog2_spec y Hy) as [Hy1 _].
    assert (Hey : ey = (Qlog2 y - (prec - 1))%Z).
    { subst ey ex. unfold exponent in *. lia. }
    assert (Hex : (Qlog2 x + 1 <= ex + prec)%Z).
    { subst ex. unfold exponent. lia. }
    (* x rounds to at most 2 ^ (prec + ex) *)
    assert (H1 : inject_Z (round_half_even (x / pow2 ex)) * pow2 ex <= pow2 (prec + ex)).
    { rewrite pow2_add. apply Qmult_le_compat_r; [|apply Qlt_le_weak, pow2_pos].
      rewrite (pow2_Z prec) by lia. rewrite <- Zle_Qle.
      rewrite <- (round_half_even_Z (2 ^ prec)). apply round_half_even_le.
      rewrite <- (pow2_Z prec) by lia. apply Qlt_le_weak.
      apply Qmult_lt_r with (pow2 ex); [apply pow2_pos|].
      rewrite div_mul_pow2, <- pow2_add.
      apply Qlt_le_trans with (pow2 (Qlog2 x + 1)); [exact Hx2|].
      apply pow2_le. lia. }
    (* y rounds to at least 2 ^ (prec - 1 + ey) *)
    assert (H2 : pow2 (prec - 1 + ey) <= inject_Z (round_half_even (y / pow2 ey)) * pow2 ey).
    { rewrite pow2_add. apply Qmult_le_compat_r; [|apply Qlt_le_weak, pow2_pos].
      rewrite (pow2_Z (prec - 1)) by lia. rewrite <- Zle_Qle.
      rewrite <- (round_half_even_Z (2 ^ (prec - 1))). apply round_half_even_le.
      rewrite <- (pow2_Z (prec - 1)) by lia.
      apply Qmult_le_r with (pow2 ey); [apply pow2_pos|].
      rewrite div_mul_pow2, <- pow2_add.
      replace (prec - 1 + ey)%Z with (Qlog2 y) by lia. exact Hy1. }
    apply Qle_trans with (pow2 (prec + ex)); [exact H1|].
    apply Qle_trans with (pow2 (prec - 1 + ey)); [|exact H2].
    apply pow2_le. lia.
Qed.

(** The rounding error is at most half a unit in the last place. *)
Lemma round_positive_error x (e0 : Z) :
  0 < x -> (exponent prec emin x <= e0)%Z ->
  - pow2 (e0 - 1) <= round_positive prec emin x - x
  /\ round_positive prec emin x - x <= pow2 (e0 - 1).
Proof.
  intros Hx He. unfold round_positive. set (e := exponent prec emin x) in *.
  destruct (round_half_even_error (x / pow2 e)) as [H1 H2].
  pose proof (pow2_pos e) as Hp. pose proof (div_mul_pow2 x e) as Hs.
  pose proof (pow2_pred e) as Hhalf.
  assert (Hle : pow2 (e - 1) <= pow2 (e0 - 1)) by (apply pow2_le; lia).
  set (r := inject_Z (round_half_even (x / pow2 e))) in *.
  set (z := x / pow2 e) in *.
  assert (Ha : (z - (1 # 2)) * pow2 e <= r * pow2 e)
    by (apply Qmult_le_compat_r; [exact H1 | now apply Qlt_le_weak]).
  assert (Hb : r * pow2 e <= (z + (1 # 2)) * pow2 e)
    by (apply Qmult_le_compat_r; [exact H2 | now apply Qlt_le_weak]).
  split; lra.
Qed.

(** A number near enough to one of the format rounds to it. *)
Lemma round_positive_snap c D :
  0 < c -> round_positive prec emin c == c ->
  - pow2 (exponent prec emin c - 2) < D - c ->
  D - c < pow2 (exponent prec emin c - 2) ->
  0 < D /\ round_positive prec emin D == c.
Proof.
  intros Hc Hfix Hlo Hhi.
  set (e := exponent prec emin c) in *. set (L := Qlog2 c).
  set (M := round_half_even (c / pow2 e)).
  assert (Hform : c == inject_Z M * pow2 e) by (symmetry; exact Hfix).
  destruct (Qlog2_spec c Hc) as [HL1 HL2]. fold L in HL1, HL2.
  pose proof (pow2_pos e) as Hpe.
  assert (HM : (1 <= M)%Z).
  { assert (H0 : inject_Z 0 < inject_Z M); [|rewrite <- Zlt_Qlt in H0; lia].
    apply Qmult_lt_r with (pow2 e); [exact Hpe|].
    change (inject_Z 0) with 0. rewrite Qmult_0_l, <- Hform. exact Hc. }
  assert (Hce : pow2 e <= c).
  { rewrite Hform. rewrite <- (Qmult_1_l (pow2 e)) at 1.
    apply Qmult_le_compat_r; [|now apply Qlt_le_weak].
    change 1 with (inject_Z 1). rewrite <- Zle_Qle. exact HM. }
  assert (HeL : (e <= L)%Z) by (apply Qlog2_ge; exact Hce).
  assert (HeL' : (L - (prec - 1) <= e)%Z) by (subst e L; unfold exponent; lia).
  (* the next number of the format is at most 2 ^ (L + 1) *)
  assert (Hnext : c + pow2 e <= pow2 (L + 1)).
  { assert (HM2 : (M < 2 ^ (L + 1 - e))%Z).
    { rewrite Zlt_Qlt. apply Qmult_lt_r with (pow2 e); [exact Hpe|].
      rewrite <- Hform, <- pow2_Z by lia. rewrite <- pow2_add.
      now replace (L + 1 - e + e)%Z with (L + 1)%Z by lia. }
    replace (L + 1)%Z with (L + 1 - e + e)%Z by lia.
    rewrite pow2_add, (pow2_Z (L + 1 - e)) by lia.
    assert (H1 : inject_Z (M + 1) <= inject_Z (2 ^ (L + 1 - e)))
      by (rewrite <- Zle_Qle; lia).
    rewrite inject_Z_plus in H1. change (inject_Z 1) with 1 in H1.
    assert (H2 : (inject_Z M + 1) * pow2 e <= inject_Z (2 ^ (L + 1 - e)) * pow2 e)
      by (apply Qmult_le_compat_r; [exact H1 | now apply Qlt_le_weak]).
    rewrite Hform. lra. }
  pose proof (pow2_pred e) as He1. pose proof (pow2_pred (e - 1)) as He2.
  replace (e - 1 - 1)%Z with (e - 2)%Z in He2 by lia.
  pose proof (pow2_pos (e - 2)) as Hpe2.
  pose proof (pow2_pred L) as HL3.
  assert (HD1 : pow2 (L - 1) <= D).
  { assert (pow2 (e - 2) <= pow2 (L - 1)) by (apply pow2_le; lia). lra. }
  assert (HD2 : D < pow2 (L - 1 + 1 + 1)).
  { replace (L - 1 + 1 + 1)%Z with (L + 1)%Z by lia. lra. }
  assert (HD : 0 < D) by (pose proof (pow2_pos (L - 1)); lra).
  split; [exact HD|].
  unfold round_positive. set (eD := exponent prec emin D).
  assert (HeD : (e - 1 <= eD <= e)%Z).
  { pose proof (Qlog2_ge D _ HD1). pose proof (Qlog2_lt D _ HD HD2).
    subst eD e. unfold exponent. fold L. lia. }
  pose proof (pow2_pos eD) as HpD.
  assert (Hscale : pow2 e == inject_Z (2 ^ (e - eD)) * pow2 eD).
  { rewrite <- pow2_Z by lia. rewrite <- pow2_add.
    now replace (e - eD + eD)%Z with e by lia. }
  assert (Hc' : c == inject_Z (M * 2 ^ (e - eD)) * pow2 eD).
  { rewrite inject_Z_mult, Hform, Hscale at 1. ring. }
  assert (Hnear : round_half_even (D / pow2 eD) = (M * 2 ^ (e - eD))%Z).
  { assert (Hq : D / pow2 eD - inject_Z (M * 2 ^ (e - eD)) == (D - c) / pow2 eD).
    { rewrite Hc' at 1. field. intros H0. rewrite H0 in HpD. discriminate. }
    assert (Hhalf : pow2 (e - 2) / pow2 eD <= 1 # 2).
    { apply Qle_shift_div_r; [exact HpD|].
      assert (pow2 (e - 1) <= pow2 eD) by (apply pow2_le; lia). lra. }
    pose proof (div_pow2_lt _ _ eD Hlo) as H1.
    pose proof (div_pow2_lt _ _ eD Hhi) as H2.
    assert (Hneg : - pow2 (e - 2) / pow2 eD == - (pow2 (e - 2) / pow2 eD)).
    { field. intros H0. rewrite H0 in HpD. discriminate. }
    rewrite Hneg in H1.
    set (a := pow2 (e - 2) / pow2 eD) in *. set (b := (D - c) / pow2 eD) in *.
    apply round_half_even_near; rewrite Hq; lra. }
  rewrite Hnear. symmetry. exact Hc'.
Qed.

End Format.

Section Signed.
Local Open Scope Q_scope.
Variables prec emin : Z.
Hypothesis Hprec : (1 <= prec)%Z.

Lemma round_to_pos x : 0 < x -> round_to prec emin x = round_positive prec emin x.
Proof. intros H. unfold round_to. now rewrite (proj1 (Qgt_alt x 0) H). Qed.

Lemma round_to_neg x : x < 0 -> round_to prec emin x = - round_positive prec emin (- x).
Proof. intros H. unfold round_to. now rewrite (proj1 (Qlt_alt x 0) H). Qed.

Lemma round_to_zero x : x == 0 -> round_to prec emin x = 0.
Proof. intros H. unfold round_to. now rewrite (proj1 (Qeq_alt x 0) H). Qed.

Lemma sign_cases x : x < 0 \/ x == 0 \/ 0 < x.
Proof.
  destruct (Qlt_le_dec x 0) as [H | H]; [now left | right].
  destruct (Qlt_le_dec 0 x) as [H' | H']; [now right | left; now apply Qle_antisym].
Qed.

Lemma opp_pos x : x < 0 -> 0 < - x.
Proof. intros H. lra. Qed.

Lemma round_to_comp x y : x == y -> round_to prec emin x == round_to prec emin y.
Proof.
  intros E. destruct (sign_cases x) as [H | [H | H]].
  - rewrite (round_to_neg x H), (round_to_neg y) by (now rewrite <- E).
    apply Qopp_comp. apply round_positive_comp; [now apply opp_pos | now rewrite E].
  - rewrite (round_to_zero x H), (round_to_zero y) by (now rewrite <- E). reflexivity.
  - rewrite (round_to_pos x H), (round_to_pos y) by (now rewrite <- E).
    now apply round_positive_comp.
Qed.

Lemma round_to_opp x : round_to prec emin (- x) == - round_to prec emin x.
Proof.
  destruct (sign_cases x) as [H | [H | H]].
  - rewrite (round_to_neg x H), (round_to_pos (- x)) by (now apply opp_pos). ring.
  - rewrite (round_to_zero x H), (round_to_zero (- x)) by (rewrite H; reflexivity).
    reflexivity.
  - assert (Hn : - x < 0) by lra.
    rewrite (round_to_pos x H), (round_to_neg (- x) Hn).
    apply Qopp_comp. apply round_positive_comp; [lra | ring].
Qed.

Lemma round_to_nonneg x : 0 <= x -> 0 <= round_to prec emin x.
Proof.
  intros H. destruct (sign_cases x) as [Hx | [Hx | Hx]]; [lra | |].
  - rewrite (round_to_zero x Hx). apply Qle_refl.
  - rewrite (round_to_pos x Hx). now apply round_positive_nonneg.
Qed.

Lemma round_to_nonpos x : x <= 0 -> round_to prec emin x <= 0.
Proof.
  intros H. assert (H' : 0 <= - x) by lra.
  pose proof (round_to_nonneg _ H') as Hn. rewrite round_to_opp in Hn. lra.
Qed.

(** Rounding is monotone. *)
Lemma round_to_le x y : x <= y -> round_to prec emin x <= round_to prec emin y.
Proof.
  intros H. destruct (sign_cases x) as [Hx | [Hx | Hx]].
  - destruct (Qlt_le_dec y 0) as [Hy | Hy].
    + rewrite (round_to_neg x Hx), (round_to_neg y Hy).
      assert (H1 : round_positive prec emin (- y) <= round_positive prec emin (- x))
        by (apply round_positive_le; [exact Hprec | lra | lra]).
      lra.
    + apply Qle_trans with 0; [apply round_to_nonpos; lra | now apply round_to_nonneg].
  - rewrite (round_to_zero x Hx). apply round_to_nonneg. lra.
  - assert (Hy : 0 < y) by lra.
    rewrite (round_to_pos x Hx), (round_to_pos y Hy).
    apply round_positive_le; [exact Hprec | exact Hx | exact H].
Qed.

(** A number with a significand of [prec] bits is not changed. *)
Lemma round_to_exact x (m e0 : Z) :
  (Z.abs m < 2 ^ prec)%Z -> (emin <= e0)%Z -> x == inject_Z m * pow2 e0 ->
  round_to prec emin x == x.
Proof.
  intros Hm He0 E. pose proof (pow2_pos e0) as Hp.
  destruct (Z.lt_trichotomy m 0) as [Hneg | [-> | Hpos]].
  - assert (Hx : x < 0).
    { rewrite E. assert (Hm0 : inject_Z m < 0)
        by (change 0 with (inject_Z 0); rewrite <- Zlt_Qlt; exact Hneg).
      assert (H1 : inject_Z m * pow2 e0 < 0 * pow2 e0)
        by (apply Qmult_lt_compat_r; assumption).
      lra. }
    rewrite (round_to_neg x Hx).
    rewrite (round_positive_exact prec emin Hprec (- x) (- m) e0); [ring | lia | exact He0 |].
    rewrite inject_Z_opp, E. ring.
  - rewrite (round_to_zero x); [|rewrite E; ring]. rewrite E. ring.
  - assert (Hx : 0 < x).
    { rewrite E. apply Qmult_lt_0_compat; [|exact Hp].
      change 0 with (inject_Z 0). now rewrite <- Zlt_Qlt. }
    rewrite (round_to_pos x Hx).
    apply (round_positive_exact prec emin Hprec x m e0); [lia | exact He0 | exact E].
Qed.

Lemma round_to_Z (z : Z) :
  (Z.abs z < 2 ^ prec)%Z -> (emin <= 0)%Z -> round_to prec emin (inject_Z z) == inject_Z z.
Proof.
  intros Hz He. apply (round_to_exact _ z 0 Hz He). rewrite pow2_0. ring.
Qed.

(** The rounding error of a number of magnitude below [2 ^ (K + 1)]. *)
Lemma round_to_error x (K e0 : Z) :
  - pow2 (K + 1) < x -> x < pow2 (K + 1) ->
  (Z.max (K - (prec - 1)) emin <= e0)%Z ->
  - pow2 (e0 - 1) <= round_to prec emin x - x
  /\ round_to prec emin x - x <= pow2 (e0 - 1).
Proof.
  intros Hlo Hhi He. pose proof (pow2_pos (e0 - 1)) as Hp.
  destruct (sign_cases x) as [Hx | [Hx | Hx]].
  - rewrite (round_to_neg x Hx).
    assert (Hx' : 0 < - x) by lra. assert (Hup : - x < pow2 (K + 1)) by lra.
    pose proof (exponent_below prec emin (- x) K Hx' Hup) as Hb.
    destruct (round_positive_error prec emin (- x) e0 Hx') as [H1 H2]; [lia|].
    split; lra.
  - rewrite (round_to_zero x Hx). split; lra.
  - rewrite (round_to_pos x Hx).
    pose proof (exponent_below prec emin x K Hx Hhi) as Hb.
    destruct (round_positive_error prec emin x e0 Hx) as [H1 H2]; [lia|].
    split; lra.
Qed.

(** A number near enough to one of the format rounds to it. *)
Lemma round_to_snap c D :
  ~ c == 0 -> round_to prec emin c == c ->
  - pow2 (exponent prec emin (Qabs c) - 2) < D - c ->
  D - c < pow2 (exponent prec emin (Qabs c) - 2) ->
  round_to prec emin D == c.
Proof.
  intros Hc0 Hfix Hlo Hhi.
  destruct (sign_cases c) as [Hc | [Hc | Hc]]; [| contradiction |].
  - assert (Hc' : 0 < - c) by lra.
    assert (Habs : - c == Qabs c) by (rewrite Qabs_neg; [reflexivity | lra]).
    rewrite <- (exponent_comp prec emin _ _ Hc' Habs) in Hlo, Hhi.
    rewrite (round_to_neg c Hc) in Hfix.
    assert (Hfix' : round_positive prec emin (- c) == - c) by lra.
    destruct (round_positive_snap prec emin (- c) (- D) Hc' Hfix') as [HD Hr];
      [lra | lra |].
    assert (HD' : D < 0) by lra.
    rewrite (round_to_neg D HD'). lra.
  - assert (Habs : c == Qabs c) by (rewrite Qabs_pos; [reflexivity | lra]).
    rewrite <- (exponent_comp prec emin _ _ Hc Habs) in Hlo, Hhi.
    rewrite (round_to_pos c Hc) in Hfix.
    destruct (round_positive_snap prec emin c D Hc Hfix Hlo Hhi) as [HD Hr].
    now rewrite (round_to_pos D HD).
Qed.

(** A number of the format is an integer multiple of its last place, with a
    significand of at most [prec] bits. *)
Lemma round_positive_form x :
  0 < x -> round_positive prec emin x == x ->
  exists M : Z,
    x == inject_Z M * pow2 (exponent prec emin x) /\ (0 < M <= 2 ^ prec)%Z.
Proof.
  intros Hx Hfix. set (e := exponent prec emin x).
  exists (round_half_even (x / pow2 e)).
  assert (Hform : x == inject_Z (round_half_even (x / pow2 e)) * pow2 e)
    by (symmetry; exact Hfix).
  split; [exact Hform|]. pose proof (pow2_pos e) as Hpe. split.
  - rewrite Zlt_Qlt. apply Qmult_lt_r with (pow2 e); [exact Hpe|].
    change (inject_Z 0) with 0. rewrite Qmult_0_l, <- Hform. exact Hx.
  - rewrite <- (round_half_even_Z (2 ^ prec)). apply round_half_even_le.
    rewrite <- (pow2_Z prec) by lia. apply Qlt_le_weak.
    apply Qmult_lt_r with (pow2 e); [exact Hpe|].
    rewrite div_mul_pow2, <- pow2_add.
    destruct (Qlog2_spec x Hx) as [_ H2].
    apply Qlt_le_trans with (pow2 (Qlog2 x + 1)); [exact H2|].
    apply pow2_le. subst e. unfold exponent. lia.
Qed.

End Signed.

Section Formats.
Local Open Scope Q_scope.

(** A number of a format is a number of every format with more bits and a
    lower least exponent. *)
Lemma round_to_finer prec emin prec' emin' x :
  (1 <= prec < prec')%Z -> (emin' <= emin)%Z ->
  round_to prec emin x == x -> round_to prec' emin' x == x.
Proof.
  intros Hp He Hfix.
  assert (Hp1 : (1 <= prec)%Z) by lia.
  assert (Hp1' : (1 <= prec')%Z) by lia.
  assert (Hpow : (2 ^ prec < 2 ^ prec')%Z) by (apply Z.pow_lt_mono_r; lia).
  destruct (sign_cases x) as [Hx | [Hx | Hx]].
  - assert (Hx' : 0 < - x) by lra.
    rewrite (round_to_neg prec emin x Hx) in Hfix.
    assert (Hfix' : round_positive prec emin (- x) == - x) by lra.
    destruct (round_positive_form prec emin Hp1 (- x) Hx' Hfix') as (M & HM & Hr).
    apply (round_to_exact prec' emin' Hp1' x (- M) (exponent prec emin (- x))).
    + lia.
    + pose proof (exponent_ge prec emin (- x)). lia.
    + rewrite inject_Z_opp. lra.
  - rewrite (round_to_zero prec' emin' x Hx). now symmetry.
  - rewrite (round_to_pos prec emin x Hx) in Hfix.
    destruct (round_positive_form prec emin Hp1 x Hx Hfix) as (M & HM & Hr).
    apply (round_to_exact prec' emin' Hp1' x M (exponent prec emin x)).
    + lia.
    + pose proof (exponent_ge prec emin x). lia.
    + exact HM.
Qed.

End Formats.

Section Numbers.
Local Open Scope Q_scope.

Lemma prec_double : (1 <= 53)%Z. Proof. lia. Qed.
Lemma prec_float32 : (1 <= 24)%Z. Proof. lia. Qed.

Lemma double_comp x y : x == y -> double x == double y.
Proof. apply round_to_comp. Qed.

Lemma fround_comp x y : x == y -> fround x == fround y.
Proof. apply round_to_comp. Qed.

#[local] Instance double_Proper : Proper (Qeq ==> Qeq) double.
Proof. intros x y E. now apply double_comp. Qed.

#[local] Instance fround_Proper : Proper (Qeq ==> Qeq) fround.
Proof. intros x y E. now apply fround_comp. Qed.

Lemma double_le x y : x <= y -> double x <= double y.
Proof. apply round_to_le, prec_double. Qed.

Lemma fround_le x y : x <= y -> fround x <= fround y.
Proof. apply round_to_le, prec_float32. Qed.

Lemma double_exact x (m e : Z) :
  (Z.abs m < 2 ^ 53)%Z -> (-1074 <= e)%Z -> x == inject_Z m * pow2 e -> double x == x.
Proof. apply round_to_exact, prec_double. Qed.

Lemma double_Z (z : Z) : (Z.abs z < 2 ^ 53)%Z -> double (inject_Z z) == inject_Z z.
Proof. intros H. apply round_to_Z; [exact prec_double | exact H | lia]. Qed.

Lemma double_0 : double 0 == 0.
Proof. reflexivity. Qed.

Lemma double_1 : double 1 == 1.
Proof. apply (double_Z 1). reflexivity. Qed.

Lemma fround_0 : fround 0 == 0.
Proof. reflexivity. Qed.

(** A 32-bit float is a Number. *)
Lemma float32_double x : fround x == x -> double x == x.
Proof. apply round_to_finer; lia. Qed.

Lemma Qfloor_unique x (z : Z) : inject_Z z <= x -> x < inject_Z z + 1 -> Qfloor x = z.
Proof.
  intros H1 H2. pose proof (Qfloor_le x) as H3. pose proof (Qlt_floor x) as H4.
  rewrite inject_Z_plus in H4. change (inject_Z 1) with 1 in H4.
  assert (Ha : inject_Z (Qfloor x) < inject_Z (z + 1))
    by (rewrite inject_Z_plus; change (inject_Z 1) with 1; lra).
  assert (Hb : inject_Z z < inject_Z (Qfloor x + 1))
    by (rewrite inject_Z_plus; change (inject_Z 1) with 1; lra).
  rewrite <- Zlt_Qlt in Ha, Hb. lia.
Qed.

(** The result of a rounding is a number of the format. *)
Lemma round_to_idempotent prec emin x :
  (1 <= prec)%Z ->
  round_to prec emin (round_to prec emin x) == round_to prec emin x.
Proof.
  intros Hprec.
  assert (Hpos : forall p, 0 < p ->
            round_to prec emin (round_positive prec emin p) == round_positive prec emin p).
  { intros p Hp. unfold round_positive. set (e := exponent prec emin p).
    set (M := round_half_even (p / pow2 e)).
    assert (HM : (0 <= M <= 2 ^ prec)%Z).
    { pose proof (pow2_pos e) as Hpe. split.
      - rewrite <- (round_half_even_Z 0). apply round_half_even_le.
        apply Qle_shift_div_l; [exact Hpe|]. rewrite Qmult_0_l. now apply Qlt_le_weak.
      - rewrite <- (round_half_even_Z (2 ^ prec)). apply round_half_even_le.
        rewrite <- (pow2_Z prec) by lia. apply Qlt_le_weak.
        apply Qmult_lt_r with (pow2 e); [exact Hpe|].
        rewrite div_mul_pow2, <- pow2_add.
        destruct (Qlog2_spec p Hp) as [_ H2].
        apply Qlt_le_trans with (pow2 (Qlog2 p + 1)); [exact H2|].
        apply pow2_le. subst e. unfold exponent. lia. }
    assert (He : (emin <= e)%Z) by apply exponent_ge.
    destruct (Z.eq_dec M (2 ^ prec)%Z) as [Hmax | Hlt].
    - apply (round_to_exact prec emin Hprec _ (2 ^ (prec - 1))%Z (e + 1)%Z).
      + rewrite Z.abs_eq by (apply Z.pow_nonneg; lia).
        apply Z.pow_lt_mono_r; lia.
      + lia.
      + rewrite Hmax, pow2_succ, <- (pow2_Z prec), <- (pow2_Z (prec - 1)) by lia.
        rewrite (pow2_pred prec). ring.
    - apply (round_to_exact prec emin Hprec _ M e); [lia | exact He | reflexivity]. }
  destruct (sign_cases x) as [Hx | [Hx | Hx]].
  - rewrite (round_to_neg prec emin x Hx).
    rewrite round_to_opp. apply Qopp_comp. apply Hpos. lra.
  - rewrite (round_to_zero prec emin x Hx). reflexivity.
  - rewrite (round_to_pos prec emin x Hx). now apply Hpos.
Qed.

Lemma double_idempotent x : double (double x) == double x.
Proof. apply round_to_idempotent. lia. Qed.

Lemma is_float32_fround x : is_float32 x = true -> fround x == x.
Proof.
  unfold is_float32. intros H. apply andb_true_iff in H as [H _].
  now apply Qeq_bool_iff.
Qed.

Lemma is_float32_bound x : is_float32 x = true -> Qabs x < pow2 128.
Proof.
  unfold is_float32. intros H. apply andb_true_iff in H as [_ H].
  apply negb_true_iff in H. apply Qnot_le_lt. intros Hle.
  apply Qle_bool_iff in Hle. congruence.
Qed.

End Numbers.

(** ** Playback scheduling *)

Section Playback.
Local Open Scope Q_scope.

Lemma Qltb_lt x y : Qltb x y = true -> x < y.
Proof.
  unfold Qltb. intros H. apply negb_true_iff in H.
  apply Qnot_le_lt. intros Hle. apply Qle_bool_iff in Hle. congruence.
Qed.

Lemma Qltb_ge x y : Qltb x y = false -> y <= x.
Proof.
  unfold Qltb. intros H. apply negb_false_iff in H. now apply Qle_bool_iff.
Qed.

Lemma Math_max_nonneg x : 0 <= Math_max 0 x.
Proof.
  unfold Math_max. destruct (Qle_bool 0 x) eqn:E.
  - now apply Qle_bool_iff.
  - apply Qle_refl.
Qed.

(** What one accepted call does to the cursor. *)
Lemma playAudioQueue_inr audioData sampleRate currentTime this this' frame :
  playAudioQueue audioData sampleRate currentTime this = inr (this', frame) ->
  jitterLatency this' = jitterLatency this
  /\ nextStartTime this' = startAt frame + duration frame
  /\ clock frame = currentTime
  /\ latency frame = jitterLatency this
  /\ underrun frame = Qltb (nextStartTime this) currentTime
  /\ startAt frame
     = if underrun frame then currentTime + jitterLatency this
       else nextStartTime this.
Proof.
  unfold playAudioQueue.
  destruct (createBuffer_duration (Float32Array.length audioData) sampleRate) as [e|d];
    [discriminate|].
  intros [= <- <-]. cbn. repeat split.
Qed.

Lemma is_double_double x : is_double x = true -> double x == x.
Proof.
  unfold is_double. intros H. apply andb_true_iff in H as [H _].
  now apply Qeq_bool_iff.
Qed.

(** The duration of a buffer with frames is positive: its rate is below
    [2 ^ 128]. *)
Lemma duration_positive (n : Z) rate :
  is_float32 rate = true -> (1 <= n)%Z -> 0 < rate ->
  0 < double (inject_Z n / rate).
Proof.
  intros Hrate Hn Hr. pose proof (is_float32_bound _ Hrate) as Hb.
  rewrite Qabs_pos in Hb by lra.
  assert (Hn1 : 1 <= inject_Z n) by (change 1 with (inject_Z 1); rewrite <- Zle_Qle; lia).
  pose proof (pow2_pos (-128)) as Hp.
  assert (Hone : pow2 (-128) * pow2 128 == 1) by reflexivity.
  assert (Hq : pow2 (-128) <= inject_Z n / rate).
  { apply Qle_shift_div_l; [exact Hr|]. pose proof (pow2_pos 128). nra. }
  assert (Hex : double (pow2 (-128)) == pow2 (-128)).
  { apply (double_exact _ 1 (-128)); [reflexivity | lia | ring]. }
  apply Qlt_le_trans with (pow2 (-128)); [exact Hp|].
  rewrite <- Hex. now apply double_le.
Qed.

Lemma cursor_chain_consecutive cursor log before s1 s2 after :
  cursor_chain cursor log ->
  log = (before ++ s1 :: s2 :: after)%list ->
  cursorBefore s2 = cursorAfter s1.
Proof.
  revert cursor log.
  induction before as [|s before IH]; intros cursor log Hc ->.
  - cbn in Hc. tauto.
  - cbn in Hc. destruct Hc as [_ Hc]. now apply (IH _ _ Hc).
Qed.

End Playback.

Section PlaybackDouble.
Local Open Scope Q_scope.
Variable supported : Q -> bool.

(** What a call of [playAudioQueue] with a 32-bit float rate does, from its
    arguments and the state on entry. *)
Lemma playAudioQueue_double_cases audioData sampleRate currentTime this :
  is_float32 sampleRate = true ->
  let n := Z.of_nat (Float32Array.length audioData) in
  if (0 <? n)%Z && (n <? 2 ^ 32)%Z && Qltb 0 sampleRate
     && supported (fround sampleRate)
  then exists this',
         playAudioQueue_double supported audioData sampleRate currentTime this
         = inr (this',
                if Qltb (nextStartTime this) currentTime
                then double (currentTime + jitterLatency this)
                else nextStartTime this)
         /\ jitterLatency this' = jitterLatency this
         /\ double (nextStartTime this') == nextStartTime this'
         /\ nextStartTime this'
            == double ((if Qltb (nextStartTime this) currentTime
                        then double (currentTime + jitterLatency this)
                        else nextStartTime this)
                       + double (inject_Z n / sampleRate))
  else exists e,
         playAudioQueue_double supported audioData sampleRate currentTime this = inl e.
Proof.
  intros Hrate. cbv zeta.
  pose proof (is_float32_fround _ Hrate) as Hfix.
  pose proof (is_float32_bound _ Hrate) as Hbound.
  set (n := Z.of_nat (Float32Array.length audioData)).
  assert (Hn0 : (0 <= n)%Z) by (subst n; lia).
  assert (Hfinite : Qle_bool (pow2 128) (Qabs (fround sampleRate)) = false).
  { destruct (Qle_bool _ _) eqn:E; [|reflexivity].
    apply Qle_bool_iff in E. rewrite Hfix in E. lra. }
  assert (Hsign : Qle_bool (fround sampleRate) 0 = negb (Qltb 0 sampleRate)).
  { unfold Qltb. rewrite negb_involutive.
    destruct (Qle_bool sampleRate 0) eqn:E.
    - apply Qle_bool_iff. rewrite Hfix. now apply Qle_bool_iff.
    - destruct (Qle_bool (fround sampleRate) 0) eqn:E'; [|reflexivity].
      apply Qle_bool_iff in E'. rewrite Hfix in E'. apply Qle_bool_iff in E'. congruence. }
  assert (Hmod : (0 <= n mod 2 ^ 32 < 2 ^ 32)%Z) by (apply Z.mod_pos_bound; reflexivity).
  unfold playAudioQueue_double, createBuffer_duration_double. fold n.
  rewrite Hfinite, Hsign.
  destruct (0 <? n)%Z eqn:E0; cbn [andb].
  - apply Z.ltb_lt in E0. destruct (n <? 2 ^ 32)%Z eqn:E1; cbn [andb].
    + apply Z.ltb_lt in E1. rewrite Z.mod_small by lia.
      replace (n =? 0)%Z with false by (symmetry; apply Z.eqb_neq; lia).
      cbn [orb]. destruct (Qltb 0 sampleRate); cbn [negb andb orb].
      * destruct (supported (fround sampleRate)); cbn [negb].
        -- rewrite Z.ltb_irrefl. eexists. split; [reflexivity|]. cbn.
           split; [reflexivity|]. split; [apply double_idempotent|].
           apply double_comp. apply Qplus_comp; [reflexivity|].
           apply double_comp. rewrite Hfix. reflexivity.
        -- eexists. reflexivity.
      * eexists. reflexivity.
    + apply Z.ltb_ge in E1.
      destruct ((n mod 2 ^ 32 =? 0)%Z || negb (Qltb 0 sampleRate)
                || negb (supported (fround sampleRate)));
        [eexists; reflexivity|].
      replace (n mod 2 ^ 32 <? n)%Z with true by (symmetry; apply Z.ltb_lt; lia).
      eexists. reflexivity.
  - apply Z.ltb_ge in E0. assert (n = 0%Z) by lia. subst n.
    replace (Z.of_nat (Float32Array.length audioData)) with 0%Z.
    cbn. eexists. reflexivity.
Qed.

Lemma play_log_spec calls this :
  rates_are_float32 calls = true ->
  0 <= jitterLatency this ->
  double (nextStartTime this) == nextStartTime this ->
  let log := play_log supported calls this in
  map (fun s => (frameCount s, frameRate s, submittedAt s)) log
  = submitted supported calls
  /\ cursor_chain (nextStartTime this) log
  /\ List.Forall entry_ok log.
Proof.
  revert this.
  induction calls as [|[seconds | audioData sampleRate currentTime] calls IH];
    intros this Hrates Hjl Hnum; cbn [play_log].
  - cbn. repeat split. constructor.
  - apply (IH (setJitterLatency seconds this)); [exact Hrates | | exact Hnum].
    cbn. apply Math_max_nonneg.
  - cbn [rates_are_float32 forallb] in Hrates.
    apply andb_true_iff in Hrates as [Hrate Hrates].
    unfold submitted. cbn [flat_map]. fold (submitted supported calls).
    pose proof (playAudioQueue_double_cases audioData sampleRate currentTime this Hrate)
      as Hcases.
    cbv zeta in Hcases.
    destruct ((0 <? Z.of_nat (Float32Array.length audioData))%Z
              && (Z.of_nat (Float32Array.length audioData) <? 2 ^ 32)%Z
              && Qltb 0 sampleRate && supported (fround sampleRate)) eqn:Eacc.
    + destruct Hcases as (this' & Hrun & Hjl' & Hnum' & Hnext).
      assert (Hpos : 0 < double (inject_Z (Z.of_nat (Float32Array.length audioData))
                                 / sampleRate)).
      { apply andb_true_iff in Eacc as [Eacc _].
        apply andb_true_iff in Eacc as [Eacc Er].
        apply andb_true_iff in Eacc as [En _]. apply Z.ltb_lt in En.
        apply Qltb_lt in Er.
        apply (duration_positive _ _ Hrate); [lia | exact Er]. }
      rewrite Hrun.
      assert (Hjl1 : 0 <= jitterLatency this') by (rewrite Hjl'; exact Hjl).
      destruct (IH this' Hrates Hjl1 Hnum') as (IH1 & IH2 & IH3).
      cbv zeta. cbn [map cursor_chain app].
      cbn [frameCount frameRate submittedAt cursorBefore cursorAfter].
      rewrite IH1. split; [reflexivity|]. split; [split; [reflexivity | exact IH2]|].
      constructor; [|exact IH3].
      unfold entry_ok, playingTime.
      cbn [latencyBefore cursorBefore submittedAt startedAt cursorAfter frameCount
             frameRate].
      split; [exact Hjl|].
      destruct (Qltb (nextStartTime this) currentTime) eqn:E.
      * pose proof (Qltb_lt _ _ E) as Hlt.
        split; [|split; [reflexivity | split; [|split; [exact Hnext | exact Hpos]]]].
        -- rewrite <- Hnum. apply double_le. lra.
        -- intros Hle. exfalso. exact (Qlt_not_le _ _ Hlt Hle).
      * pose proof (Qltb_ge _ _ E) as Hge.
        split; [apply Qle_refl|].
        split; [|split; [reflexivity | split; [exact Hnext | exact Hpos]]].
        intros Hlt. exfalso. exact (Qlt_not_le _ _ Hlt Hge).
    + destruct Hcases as [e Hrun]. rewrite Hrun. cbn [app].
      apply IH; assumption.
Qed.

End PlaybackDouble.

(** C7. In the arithmetic of the platform, for any sequence of calls on a
    fresh [AudioService] (frames submitted to [playAudioQueue] with sample
    rates that are 32-bit floats, latency changes in between), whichever
    rates the implementation supports: every frame that has samples and a
    positive, supported rate is scheduled, in the order of submission.  The
    cursor a frame meets is 0 for the first frame and, for each next one, the
    sum of the start of the frame scheduled before it and that frame's
    playing time (sample count over sample rate); every frame starts no
    earlier than the cursor it meets, hence no earlier than the start of the
    frame before it plus that frame's playing time; and a frame submitted
    when the cursor is behind the clock starts at the sum of the clock
    reading and the jitter latency, which is never negative.  Each sum and
    quotient is the Number the code computes. *)
Theorem playback_schedule_monotone
    (supported : Q -> bool) (calls : list AudioCall) :
  rates_are_float32 calls = true ->
  let log := play_log supported calls AudioService_new in
  map (fun s => (frameCount s, frameRate s, submittedAt s)) log
  = submitted supported calls
  /\ (forall s rest, log = s :: rest -> cursorBefore s = 0%Q)
  /\ (forall before s1 s2 after,
        log = before ++ s1 :: s2 :: after ->
        (cursorBefore s2 == double (startedAt s1 + playingTime s1))%Q
        /\ (double (startedAt s1 + playingTime s1) <= startedAt s2)%Q)
  /\ (forall s, In s log ->
        ((cursorBefore s < submittedAt s)%Q ->
         startedAt s = double (submittedAt s + latencyBefore s))
        /\ ((submittedAt s <= cursorBefore s)%Q -> startedAt s = cursorBefore s)
        /\ (0 <= latencyBefore s)%Q
        /\ (cursorBefore s <= startedAt s)%Q
        /\ (cursorAfter s == double (startedAt s + playingTime s))%Q).
Proof.
  intros Hrates.
  assert (Hjl : (0 <= jitterLatency AudioService_new)%Q) by discriminate.
  assert (Hnum : (double (nextStartTime AudioService_new)
                  == nextStartTime AudioService_new)%Q) by reflexivity.
  destruct (play_log_spec supported calls AudioService_new Hrates Hjl Hnum)
    as (H1 & H2 & H3).
  cbv zeta. split; [exact H1|]. split; [|split].
  - intros s rest E. rewrite E in H2. cbn in H2. tauto.
  - intros before s1 s2 after E.
    pose proof (cursor_chain_consecutive _ _ _ _ _ _ H2 E) as Hc.
    assert (Hin1 : In s1 (play_log supported calls AudioService_new))
      by (rewrite E; apply in_or_app; right; left; reflexivity).
    assert (Hin2 : In s2 (play_log supported calls AudioService_new))
      by (rewrite E; apply in_or_app; right; right; left; reflexivity).
    pose proof (proj1 (List.Forall_forall _ _) H3 s1 Hin1) as (_ & _ & _ & _ & Hafter & _).
    pose proof (proj1 (List.Forall_forall _ _) H3 s2 Hin2) as (_ & Hstart & _).
    rewrite Hc in *. split; [exact Hafter|]. rewrite <- Hafter. exact Hstart.
  - intros s Hin.
    pose proof (proj1 (List.Forall_forall _ _) H3 s Hin) as Hok.
    unfold entry_ok in Hok. tauto.
Qed.

(** ** Resampling *)

Section Resampling.
Local Open Scope Q_scope.

Lemma ratio_48k_16k : rate48k / rate16k == 3.
Proof. reflexivity. Qed.

(** The output length for [n] input samples at ratio 3. *)
Lemma newLength_ratio3 (n : nat) :
  Math_round (inject_Z (Z.of_nat n) / (rate48k / rate16k))
  = ((2 * Z.of_nat n + 3) / 6)%Z.
Proof.
  unfold Math_round.
  assert (E : inject_Z (Z.of_nat n) / (rate48k / rate16k) + (1 # 2)
              == (2 * Z.of_nat n + 3 # 6)).
  { rewrite ratio_48k_16k. unfold Qeq, Qdiv, Qmult, Qplus, Qinv, inject_Z. cbn. lia. }
  rewrite E. reflexivity.
Qed.

(** The source index of output sample [i] at ratio 3 is the integer [3 i]. *)
Lemma originalIndex_ratio3 (i : nat) :
  inject_Z (Z.of_nat i) * (rate48k / rate16k) == inject_Z (3 * Z.of_nat i).
Proof.
  rewrite ratio_48k_16k. unfold Qeq, Qmult, inject_Z. cbn. lia.
Qed.

Lemma or_number_hit v d c :
  v == c -> (v == 0 -> d == c) -> or_number (Some v) d == c.
Proof.
  intros Hv Hd. unfold or_number. destruct (Qeq_bool v 0) eqn:E.
  - apply Hd. now apply Qeq_bool_iff.
  - exact Hv.
Qed.

Lemma index_at_constant (buffer : list Q) (c : Q) (k : Z) :
  List.Forall (fun x => x == c) buffer ->
  (0 <= k < Z.of_nat (length buffer))%Z ->
  exists v, index_at buffer k = Some v /\ v == c.
Proof.
  intros Hall Hk. unfold index_at.
  destruct (k <? 0)%Z eqn:E; [apply Z.ltb_lt in E; lia|].
  destruct (nth_error buffer (Z.to_nat k)) as [v|] eqn:En.
  - exists v. split; [reflexivity|].
    apply nth_error_In in En.
    exact (proj1 (List.Forall_forall _ _) Hall v En).
  - apply nth_error_None in En. lia.
Qed.

End Resampling.

(** C8. Downsampling from 48000 Hz to 16000 Hz a buffer whose samples all
    equal [c] returns a buffer whose samples all equal [c]; it has
    [round (n / 3)] samples for [n] input samples. *)
Theorem downsample_constant (buffer : list Q) (c : Q) :
  List.Forall (fun x => (x == c)%Q) buffer ->
  exists out,
    downsampleBuffer buffer rate48k rate16k = inr out
    /\ List.Forall (fun y => (y == c)%Q) out
    /\ length out = Z.to_nat ((2 * Z.of_nat (length buffer) + 3) / 6).
Proof.
  intros Hall. unfold downsampleBuffer.
  change (Qeq_bool rate16k rate48k) with false.
  change (Qltb rate48k rate16k) with false. cbv iota zeta.
  rewrite newLength_ratio3.
  set (n := length buffer) in *.
  set (m := ((2 * Z.of_nat n + 3) / 6)%Z).
  assert (Hm : (0 <= m)%Z) by (apply Z.div_pos; lia).
  destruct (m <? 0)%Z eqn:E; [apply Z.ltb_lt in E; lia|].
  eexists. split; [reflexivity|]. split; [|now rewrite length_map, length_seq].
  apply List.Forall_forall. intros y Hy.
  apply List.in_map_iff in Hy as [i [<- Hi]]. apply List.in_seq in Hi.
  cbv beta zeta.
  assert (Hi3 : (0 <= 3 * Z.of_nat i < Z.of_nat n)%Z).
  { assert (Z.of_nat i < m)%Z by lia. subst m.
    assert (6 * ((2 * Z.of_nat n + 3) / 6) <= 2 * Z.of_nat n + 3)%Z
      by (apply Z.mul_div_le; lia).
    lia. }
  pose proof (originalIndex_ratio3 i) as Hidx.
  set (originalIndex := (inject_Z (Z.of_nat i) * (rate48k / rate16k))%Q) in *.
  assert (Hfloor : Qfloor originalIndex = (3 * Z.of_nat i)%Z)
    by (rewrite Hidx; apply Qfloor_Z).
  assert (Hceil : Qceiling originalIndex = (3 * Z.of_nat i)%Z)
    by (rewrite Hidx; apply Qceiling_Z).
  rewrite Hfloor, Hceil.
  destruct (index_at_constant buffer c _ Hall Hi3) as [v [-> Hv]].
  assert (Hw : (originalIndex - inject_Z (3 * Z.of_nat i) == 0)%Q)
    by (rewrite Hidx; ring).
  assert (H1 : (or_number (Some v) 0 == c)%Q).
  { apply or_number_hit; [exact Hv|]. intros H0. now rewrite <- H0, Hv. }
  assert (H2 : (or_number (Some v) (or_number (Some v) 0) == c)%Q)
    by (apply or_number_hit; [exact Hv | intros _; exact H1]).
  rewrite H2, H1, Hw. ring.
Qed.

(** C9. A call whose target rate is strictly above the source rate throws
    the error of the utility; no buffer is returned. *)
Theorem upsampling_throws (buffer : list Q) (sourceRate targetRate : Q) :
  (sourceRate < targetRate)%Q ->
  downsampleBuffer buffer sourceRate targetRate
  = inl (Error "Upsampling not supported in this utility").
Proof.
  intros Hlt. unfold downsampleBuffer.
  destruct (Qeq_bool targetRate sourceRate) eqn:E.
  - apply Qeq_bool_iff in E. rewrite E in Hlt. now apply Qlt_irrefl in Hlt.
  - unfold Qltb. destruct (Qle_bool targetRate sourceRate) eqn:E'; [|reflexivity].
    apply Qle_bool_iff in E'. now apply Qle_not_lt in E'.
Qed.

(** ** The election notifies on every run *)

Section HostChanged.
Import NetworkService.

(** With a callback registered and some peer known, a run of
    [_handlePeerDiscovery] emits one host-changed notification, whatever was
    emitted before. *)
Lemma handlePeerDiscovery_always_notifies this :
  hostChangedCallback this = true ->
  NetworkService.peers this <> [] ->
  exists host,
    newHostId (NetworkService.peers this) = Some host
    /\ _handlePeerDiscovery this = [HostChanged host].
Proof.
  intros Hcb Hne. destruct (newHostId_some _ Hne) as [h [Eh _]].
  exists h. split; [exact Eh|].
  unfold _handlePeerDiscovery. now rewrite Eh, Hcb.
Qed.

(** Scenario A: the local peer is [C]; [A] and [B] join; the host ends as [A]. *)
Example scenario_A :
  let (n1, out1) := joinRoom (register_callbacks (new "C")) in
  let (n2, out2) := deliver [Joined "A"; Joined "B"] n1 in
  NetworkService.peers n2 = ["C"; "A"; "B"]
  /\ newHostId (NetworkService.peers n2) = Some "A"
  /\ List.last (hostChanges (out1 ++ out2)) "" = "A".
Proof. vm_compute. repeat split. Qed.

End HostChanged.

(** C4, on the code: peer [A] joins alone and is told host [A]; then [B]
    joins, the computed host is still [A], and host [A] is notified again. *)
Theorem host_changed_repeated :
  let (n1, out1) :=
    NetworkService.joinRoom (NetworkService.register_callbacks (NetworkService.new "A")) in
  let (n2, out2) := NetworkService.room_onPeerJoin "B" n1 in
  NetworkService.newHostId (NetworkService.peers n1) = Some "A"
  /\ NetworkService.newHostId (NetworkService.peers n2) = Some "A"
  /\ NetworkService.hostChanges out1 = ["A"]
  /\ NetworkService.hostChanges out2 = ["A"].
Proof. vm_compute. repeat split. Qed.

(** ** The theorems on the concrete scenarios *)

Example float32ToBase64_one :
  float32ToBase64 (Float32Array_of [1065353216%Z]) = "AACAPw==".
Proof. vm_compute. reflexivity. Qed.

(** A window narrower than its buffer is encoded with the whole buffer. *)
Example float32ToBase64_whole_buffer :
  samples middle_window = [1065353216%Z]
  /\ option_map samples
       (match base64ToFloat32 (float32ToBase64 middle_window) with
        | inr a => Some a
        | inl _ => None
        end)
     = Some [0; 1065353216; 3212836864]%Z.
Proof. vm_compute. split; reflexivity. Qed.

Example floor_scenario_at_host :
  map (fun s => speakerId (roomState s)) (trace floor_scenario host_state)
  = [Some "G"; Some "G"; Some "C"; None; None; Some "A"; None].
Proof. vm_compute. reflexivity. Qed.

Example floor_scenario_at_guest :
  map (fun s => speakerId (roomState s)) (trace floor_scenario guest_state)
  = [Some "G"; Some "G"; Some "G"; Some "G"; None; None; None].
Proof. vm_compute. reflexivity. Qed.

Example downsample_interpolates :
  downsampleBuffer [1 # 1; 2 # 1; 3 # 1; 4 # 1; 5 # 1]%Q (3 # 1) (2 # 1)
  = inr [4 # 4; 10 # 4; 16 # 4]%Q.
Proof. vm_compute. reflexivity. Qed.

Lemma single_speaker_invariant_witness :
  List.Forall (fun state => single_speaker (roomState state))
    (trace floor_scenario host_state).
Proof. exact (single_speaker_invariant floor_scenario host_state). Defined.

Lemma request_ignored_by_non_host_witness :
  is_control REQUEST_TOKEN (request_from "C")
  /\ myId guest_state <> hostId (roomState guest_state)
  /\ (let (state', sent) := handleIncomingEvent env0 (request_from "C") "C" guest_state in
      speakerId (roomState state') = speakerId (roomState guest_state)
      /\ existsb is_grant sent = false
      /\ state' = guest_state /\ sent = []).
Proof.
  assert (H1 : is_control REQUEST_TOKEN (request_from "C")) by (split; reflexivity).
  assert (H2 : myId guest_state <> hostId (roomState guest_state)) by discriminate.
  split; [exact H1 | split; [exact H2|]].
  exact (request_ignored_by_non_host env0 (request_from "C") "C" guest_state H1 H2).
Defined.

Lemma election_smallest_id_witness :
  exists host,
    NetworkService.newHostId ["C"; "A"; "B"] = Some host
    /\ NetworkService.newHostId ["B"; "C"; "A"] = Some host
    /\ In host ["C"; "A"; "B"]
    /\ (forall x, In x ["C"; "A"; "B"] -> String.leb host x = true).
Proof.
  apply (election_smallest_id ["C"; "A"; "B"] ["B"; "C"; "A"]).
  - discriminate.
  - intros x. simpl. tauto.
Defined.

Lemma peer_leave_releases_floor_witness :
  speakerId (roomState guest_state) = Some "G"
  /\ speakerId (roomState (fst (step (PeerLeft "G") guest_state))) = None
  /\ speakerId (roomState guest_state) <> Some "C"
  /\ speakerId (roomState (fst (step (PeerLeft "C") guest_state)))
     = speakerId (roomState guest_state).
Proof.
  assert (H1 : speakerId (roomState guest_state) = Some "G") by reflexivity.
  assert (H2 : speakerId (roomState guest_state) <> Some "C") by discriminate.
  split; [exact H1 | split; [|split; [exact H2|]]].
  - exact (proj1 (peer_leave_releases_floor "G" guest_state) H1).
  - exact (proj2 (peer_leave_releases_floor "C" guest_state) H2).
Defined.

Lemma wire_round_trip_witness :
  List.Forall is_f32 some_samples
  /\ exists decoded,
       base64ToFloat32 (float32ToBase64 (Float32Array_of some_samples)) = inr decoded
       /\ samples decoded = some_samples
       /\ decoded = Float32Array_of some_samples.
Proof.
  assert (H : List.Forall is_f32 some_samples)
    by (repeat constructor; discriminate).
  split; [exact H | exact (wire_round_trip some_samples H)].
Defined.

Lemma playback_schedule_monotone_witness :
  let log := play_log nominal_rate playback_scenario AudioService_new in
  map (fun s => (frameCount s, frameRate s, submittedAt s)) log
  = submitted nominal_rate playback_scenario
  /\ (forall s rest, log = s :: rest -> cursorBefore s = 0%Q)
  /\ (forall before s1 s2 after,
        log = before ++ s1 :: s2 :: after ->
        (cursorBefore s2 == double (startedAt s1 + playingTime s1))%Q
        /\ (double (startedAt s1 + playingTime s1) <= startedAt s2)%Q)
  /\ (forall s, In s log ->
        ((cursorBefore s < submittedAt s)%Q ->
         startedAt s = double (submittedAt s + latencyBefore s))
        /\ ((submittedAt s <= cursorBefore s)%Q -> startedAt s = cursorBefore s)
        /\ (0 <= latencyBefore s)%Q
        /\ (cursorBefore s <= startedAt s)%Q
        /\ (cursorAfter s == double (startedAt s + playingTime s))%Q).
Proof.
  exact (playback_schedule_monotone nominal_rate playback_scenario eq_refl).
Defined.

Lemma downsample_constant_witness :
  List.Forall (fun x => (x == 1 # 4)%Q) dc_buffer
  /\ exists out,
       downsampleBuffer dc_buffer rate48k rate16k = inr out
       /\ List.Forall (fun y => (y == 1 # 4)%Q) out
       /\ length out = Z.to_nat ((2 * Z.of_nat (length dc_buffer) + 3) / 6).
Proof.
  assert (H : List.Forall (fun x => (x == 1 # 4)%Q) dc_buffer)
    by (repeat constructor).
  split; [exact H | exact (downsample_constant dc_buffer (1 # 4)%Q H)].
Defined.

Lemma upsampling_throws_witness :
  (rate16k < rate48k)%Q
  /\ downsampleBuffer dc_buffer rate16k rate48k
     = inl (Error "Upsampling not supported in this utility").
Proof.
  assert (H : (rate16k < rate48k)%Q) by reflexivity.
  split; [exact H | exact (upsampling_throws dc_buffer rate16k rate48k H)].
Defined.

Lemma grant_without_target_clears_floor_witness :
  TranslationEvent.type (grant_to None) = CONTROL_SIGNAL
  /\ TranslationEvent.payload (grant_to None) = ControlPayload GRANT_TOKEN None
  /\ (let (state', sent) := handleIncomingEvent env0 (grant_to None) "A" guest_state in
      speakerId (roomState state') = None /\ sent = []).
Proof.
  split; [reflexivity | split; [reflexivity|]].
  exact (grant_without_target_clears_floor env0 (grant_to None) "A" guest_state
           eq_refl eq_refl).
Defined.

(** * Further properties of the embedded code *)

(** ** The floor protocol end to end *)

Section FloorProtocol.

Lemma with_speakerId_same r : with_speakerId (speakerId r) r = r.
Proof. now destruct r. Qed.

Lemma with_peers_same r : with_peers (peers r) r = r.
Proof. now destruct r. Qed.

Lemma set_roomState_same s : set_roomState (roomState s) s = s.
Proof. now destruct s. Qed.

Lemma set_transcripts_same s : set_transcripts (transcripts s) s = s.
Proof. now destruct s. Qed.

Lemma or_string_nonempty s d : s <> "" -> or_string (Some s) d = s.
Proof. intros H. unfold or_string. apply String.eqb_neq in H. now rewrite H. Qed.

Lemma or_null_nonempty s : s <> "" -> or_null (Some s) = Some s.
Proof. intros H. unfold or_null. apply String.eqb_neq in H. now rewrite H. Qed.

Lemma control_event_is_control env sender signal target :
  payload_signal (TranslationEvent.payload (control_event env sender signal target))
  = Some signal
  /\ TranslationEvent.type (control_event env sender signal target) = CONTROL_SIGNAL
  /\ payload_targetPeerId
       (TranslationEvent.payload (control_event env sender signal target)) = target.
Proof. repeat split. Qed.

(** An audio event never touches the store. *)
Lemma handle_audio env event senderId state :
  TranslationEvent.type event = AUDIO_CHUNK ->
  fst (handleIncomingEvent env event senderId state) = state.
Proof.
  intros Ht. unfold handleIncomingEvent. rewrite Ht.
  destruct (negb (String.eqb senderId (myId state))); [|reflexivity].
  destruct (base64ToFloat32 _); [reflexivity|].
  destruct (String.eqb senderId "TRANSLATOR_BOT"); reflexivity.
Qed.

(** The codec on a fresh array, as a fact other proofs can share. *)
Lemma wire_codec_fresh xs :
  List.Forall is_f32 xs ->
  base64ToFloat32 (float32ToBase64 (Float32Array_of xs)) = inr (Float32Array_of xs)
  /\ samples (Float32Array_of xs) = xs.
Proof.
  intros Hxs. rewrite base64ToFloat32_float32ToBase64.
  unfold Float32Array_on, Float32Array_of, samples.
  cbn [Float32Array.buffer Float32Array.byteOffset Float32Array.length].
  rewrite length_flat_map_f32_bytes, Nat.Div0.mod_mul, Nat.eqb_refl.
  rewrite Nat.div_mul by discriminate. split; [reflexivity|].
  rewrite List.skipn_O, List.firstn_all2
    by (rewrite length_flat_map_f32_bytes; lia).
  now apply f32_elements_flat_map.
Qed.

End FloorProtocol.

(** X1. A guest's request, sent to the host it knows, makes that host record
    the guest as speaker and broadcast one grant; any peer that handles this
    grant records the same speaker and sends nothing. *)
Theorem request_grant_round_trip
    (env1 env2 env3 : Env) (guest host peer : AppState) (via : string) :
  myId guest <> hostId (roomState guest) ->
  myId host = hostId (roomState host) ->
  myId guest <> "" ->
  exists request grant host',
    requestTalkingStick env1 guest
    = (guest, [SendToPeer (hostId (roomState guest)) request])
    /\ handleIncomingEvent env2 request (myId guest) host = (host', [Broadcast grant])
    /\ speakerId (roomState host') = Some (myId guest)
    /\ handleIncomingEvent env3 grant via peer
       = (set_roomState (with_speakerId (Some (myId guest)) (roomState peer)) peer, []).
Proof.
  intros Hguest Hhost Hid.
  exists (control_event env1 (myId guest) REQUEST_TOKEN (Some (myId guest))).
  exists (control_event env2 (myId host) GRANT_TOKEN (Some (myId guest))).
  eexists. split; [|split; [|split]].
  - unfold requestTalkingStick. apply String.eqb_neq in Hguest. now rewrite Hguest.
  - rewrite handle_request by (split; reflexivity).
    rewrite Hhost, String.eqb_refl. cbn [control_event TranslationEvent.payload
      payload_targetPeerId]. rewrite or_string_nonempty by exact Hid. reflexivity.
  - reflexivity.
  - rewrite handle_grant by (split; reflexivity).
    cbn [control_event TranslationEvent.payload payload_targetPeerId].
    now rewrite or_null_nonempty by exact Hid.
Qed.

(** X2. Only the holder of the floor can release it: for any other peer
    [releaseTalkingStick] changes nothing and sends nothing; for the holder it
    clears the floor locally and broadcasts one release, which clears the
    floor of every peer that handles it. *)
Theorem release_round_trip (env1 env2 : Env) (speaker peer : AppState) (via : string) :
  (speakerId (roomState speaker) <> Some (myId speaker) ->
   releaseTalkingStick env1 speaker = (speaker, []))
  /\ (speakerId (roomState speaker) = Some (myId speaker) ->
      exists release,
        releaseTalkingStick env1 speaker
        = (set_roomState (with_speakerId None (roomState speaker)) speaker,
           [Broadcast release])
        /\ handleIncomingEvent env2 release via peer
           = (set_roomState (with_speakerId None (roomState peer)) peer, [])).
Proof.
  unfold releaseTalkingStick. split; intros H.
  - destruct (speaker_is (myId speaker) (roomState speaker)) eqn:E; [|reflexivity].
    apply speaker_is_true in E. congruence.
  - apply speaker_is_true in H. rewrite H.
    eexists. split; [reflexivity|].
    now rewrite handle_release by (split; reflexivity).
Qed.

(** X3. Handling an incoming event can change only [speakerId] and the
    transcript log: the local id, the host, the peer map, the room id, the
    languages and the microphone flag stay as they were. *)
Theorem incoming_touches_only_floor_and_log
    (env : Env) (event : TranslationEvent.t) (senderId : string) (state : AppState) :
  let state' := fst (handleIncomingEvent env event senderId state) in
  state'
  = set_transcripts (transcripts state')
      (set_roomState
         (with_speakerId (speakerId (roomState state')) (roomState state)) state).
Proof.
  cbv zeta.
  destruct (TranslationEvent.type event) eqn:Ht.
  - rewrite (handle_audio _ _ _ _ Ht).
    now rewrite with_speakerId_same, set_roomState_same, set_transcripts_same.
  - unfold handleIncomingEvent. rewrite Ht. cbn [fst].
    cbn [set_transcripts roomState transcripts].
    rewrite with_speakerId_same. now destruct state.
  - unfold handleIncomingEvent. rewrite Ht. cbn [fst].
    now rewrite with_speakerId_same, set_roomState_same, set_transcripts_same.
  - unfold handleIncomingEvent. rewrite Ht.
    destruct (payload_signal (TranslationEvent.payload event)) as [[| | | | |lit]|];
      cbn [is_signal]; try destruct (String.eqb (myId state) (hostId (roomState state)));
      cbn [fst];
      try (now rewrite with_speakerId_same, set_roomState_same, set_transcripts_same);
      now destruct state.
  - unfold handleIncomingEvent. rewrite Ht. cbn [fst].
    now rewrite with_speakerId_same, set_roomState_same, set_transcripts_same.
Qed.

(** X4. The transcript log is append-only: after any sequence of actions it
    is the log before, followed by one item per incoming [TRANSCRIPTION]
    event, in arrival order, each with its sender and timestamp; no other
    action or event adds, removes or rewrites an item. *)
Theorem transcripts_append_only (actions : list Action) (state : AppState) :
  transcripts (run actions state) = transcripts state ++ flat_map logged actions.
Proof.
  unfold run. revert state.
  induction actions as [|a actions IH]; intros state; cbn [fold_left flat_map].
  - now rewrite app_nil_r.
  - rewrite IH, app_assoc. f_equal.
    destruct a as [env event senderId | peerId | env peerId | host | env | env];
      cbn [step fst logged].
    + destruct (TranslationEvent.type event) eqn:Ht.
      * rewrite (handle_audio _ _ _ _ Ht). now rewrite app_nil_r.
      * unfold handleIncomingEvent. rewrite Ht. reflexivity.
      * unfold handleIncomingEvent. rewrite Ht. now rewrite app_nil_r.
      * unfold handleIncomingEvent. rewrite Ht. rewrite app_nil_r.
        destruct (payload_signal (TranslationEvent.payload event)) as [[| | | | |lit]|];
          cbn [is_signal];
          try destruct (String.eqb (myId state) (hostId (roomState state)));
          reflexivity.
      * unfold handleIncomingEvent. rewrite Ht. now rewrite app_nil_r.
    + now rewrite app_nil_r.
    + now rewrite app_nil_r.
    + now rewrite app_nil_r.
    + rewrite app_nil_r. unfold requestTalkingStick.
      now destruct (String.eqb (myId state) (hostId (roomState state))).
    + rewrite app_nil_r. unfold releaseTalkingStick.
      now destruct (speaker_is (myId state) (roomState state)).
Qed.

(** X5. An incoming audio chunk never changes the store and never puts
    anything on the network.  A chunk whose sender is the local peer is not
    played at all; a chunk from the translator bot is played but never handed
    to the translation listener; without a listener nothing is handed over. *)
Theorem incoming_audio_routing
    (env : Env) (event : TranslationEvent.t) (senderId : string) (state : AppState) :
  TranslationEvent.type event = AUDIO_CHUNK ->
  let (state', out) := handleIncomingEvent env event senderId state in
  state' = state
  /\ existsb is_send out = false
  /\ (senderId = myId state -> out = [])
  /\ (senderId = "TRANSLATOR_BOT" -> existsb is_forward out = false)
  /\ (onAudioChunkReceived state = false -> existsb is_forward out = false).
Proof.
  intros Ht. unfold handleIncomingEvent. rewrite Ht.
  destruct (String.eqb senderId (myId state)) eqn:Eme; cbn [negb].
  - repeat split; reflexivity.
  - apply String.eqb_neq in Eme.
    destruct (base64ToFloat32 _) as [e | floatArray].
    + repeat split; try reflexivity. intros H. contradiction.
    + destruct (String.eqb senderId "TRANSLATOR_BOT") eqn:Ebot.
      * unfold play.
        destruct (createBuffer_duration _ _); repeat split; try reflexivity;
          intros H; contradiction.
      * apply String.eqb_neq in Ebot. unfold play.
        destruct (createBuffer_duration _ _);
          destruct (onAudioChunkReceived state);
          repeat split; try reflexivity; intros H;
          first [contradiction | discriminate].
Qed.

(** X6. A control event whose signal is none of [REQUEST_TOKEN],
    [GRANT_TOKEN], [RELEASE_TOKEN] (a mute, a kick, the heartbeat, a payload
    of another shape) is ignored: the store is unchanged, nothing is sent and
    nothing is thrown. *)
Theorem other_signals_ignored
    (env : Env) (event : TranslationEvent.t) (senderId : string) (state : AppState) :
  TranslationEvent.type event = CONTROL_SIGNAL ->
  (forall s, In s floor_signals ->
             payload_signal (TranslationEvent.payload event) <> Some s) ->
  handleIncomingEvent env event senderId state = (state, []).
Proof.
  intros Ht Hs. unfold handleIncomingEvent. rewrite Ht.
  destruct (payload_signal (TranslationEvent.payload event)) as [[| | | | |lit]|] eqn:E;
    try reflexivity; exfalso; eapply Hs; try reflexivity; simpl; tauto.
Qed.

(** X7. Captured audio is put on the network only by the holder of the
    floor.  What the holder broadcasts, any other peer that handles it passes
    to the playback queue with the very same samples at 16000 Hz. *)
Theorem captured_audio_reaches_peers
    (env env' : Env) (sequenceId : Z) (xs : list Z) (sender peer : AppState) :
  (speakerId (roomState sender) <> Some (myId sender) ->
   onCapturedAudio env sequenceId (Float32Array_of xs) sender = [])
  /\ (speakerId (roomState sender) = Some (myId sender) ->
      List.Forall is_f32 xs ->
      myId peer <> myId sender ->
      exists event forwarded rest,
        onCapturedAudio env sequenceId (Float32Array_of xs) sender
        = forwarded ++ [Broadcast event]
        /\ existsb is_send forwarded = false
        /\ snd (handleIncomingEvent env' event (myId sender) peer)
           = PlayAudioQueue (Float32Array_of xs) (16000 # 1) :: rest).
Proof.
  unfold onCapturedAudio. split.
  - intros H.
    destruct (speaker_is (myId sender) (roomState sender)) eqn:E; [|reflexivity].
    apply speaker_is_true in E. congruence.
  - intros H Hxs Hpeer. apply speaker_is_true in H. rewrite H.
    destruct (wire_codec_fresh xs Hxs) as [Hdec _].
    set (event := {| TranslationEvent.id := randomUUID env;
                     TranslationEvent.type := AUDIO_CHUNK;
                     TranslationEvent.senderId := myId sender;
                     TranslationEvent.timestamp := now env;
                     TranslationEvent.payload :=
                       AudioChunkPayload (float32ToBase64 (Float32Array_of xs))
                         (Some (16000 # 1)%Q) sequenceId |}).
    assert (Hplay : exists rest,
               snd (handleIncomingEvent env' event (myId sender) peer)
               = PlayAudioQueue (Float32Array_of xs) (16000 # 1) :: rest).
    { unfold handleIncomingEvent.
      cbn [event TranslationEvent.type TranslationEvent.payload
           payload_data payload_sampleRate].
      assert (Hne : String.eqb (myId sender) (myId peer) = false)
        by (apply String.eqb_neq; congruence).
      rewrite Hne. cbn [negb]. rewrite Hdec.
      cbn [or_number]. change (Qeq_bool (16000 # 1) 0) with false. cbv iota.
      unfold play.
      destruct (String.eqb (myId sender) "TRANSLATOR_BOT");
        destruct (createBuffer_duration _ _); cbn [snd]; eexists; reflexivity. }
    destruct Hplay as [rest Hrest].
    exists event. eexists. exists rest.
    split; [reflexivity|]. split; [now destruct (onAudioChunkReceived sender)|].
    exact Hrest.
Qed.

(** ** The peer map of the store *)

(** X8. A second join notification for a peer changes nothing: the record
    made at the first join (its name, role and time of joining) is never
    overwritten. *)
Theorem peer_join_idempotent (env1 env2 : Env) (peerId : string) (state : AppState) :
  onPeerJoin env2 peerId (onPeerJoin env1 peerId state) = onPeerJoin env1 peerId state.
Proof.
  unfold onPeerJoin at 1.
  assert (Hknown : truthy_at peerId (peers (roomState (onPeerJoin env1 peerId state)))
                   = true).
  { unfold onPeerJoin, truthy_at. cbn [roomState set_roomState peers with_peers].
    destruct (peers (roomState state) !! peerId) eqn:E; cbn [negb].
    - now rewrite E.
    - destruct (inherited peerId) eqn:Ei; cbn [negb].
      + now rewrite E.
      + now rewrite lookup_insert_eq. }
  rewrite Hknown. cbn [negb].
  now rewrite with_peers_same, set_roomState_same.
Qed.

(** X9. When a peer that was not in the peer map joins and then leaves, the
    peer map, the host and the local id are as before; the floor is as before
    too unless that peer was recorded as speaker. *)
Theorem peer_join_leave_restores (env : Env) (peerId : string) (state : AppState) :
  peers (roomState state) !! peerId = None ->
  speakerId (roomState state) <> Some peerId ->
  onPeerLeave peerId (onPeerJoin env peerId state) = state.
Proof.
  intros Hfresh Hspeaker. unfold onPeerLeave, onPeerJoin, truthy_at.
  cbn [roomState set_roomState peers with_peers speakerId speaker_is].
  rewrite Hfresh.
  replace (speaker_is peerId _) with false.
  2:{ symmetry. destruct (speaker_is peerId _) eqn:E; [|reflexivity].
      apply speaker_is_true in E. cbn in E. congruence. }
  cbn [speakerId with_peers].
  assert (Hpeers : delete peerId
                     (if negb (inherited peerId)
                      then <[peerId := {| Peer.id := peerId;
                                          Peer.name := "User " ++ String.substring 0 4 peerId;
                                          Peer.role := GUEST;
                                          Peer.batteryLevel := None;
                                          Peer.isOnline := true;
                                          Peer.joinedAt := now env |}]>
                             (peers (roomState state))
                      else peers (roomState state))
                   = peers (roomState state)).
  { destruct (inherited peerId); cbn [negb].
    - apply delete_id. exact Hfresh.
    - apply delete_insert_id. exact Hfresh. }
  rewrite Hpeers.
  destruct state as [? ? ? r ? ?]. destruct r. reflexivity.
Qed.

(** ** NetworkService and the store together *)

Section Presence.

Lemma last_cons {A : Type} (h : A) (l : list A) (d : A) :
  List.last (h :: l) d = List.last l h.
Proof.
  revert h d. induction l as [|x l IH]; intros h d; [reflexivity|].
  change (List.last (h :: x :: l) d) with (List.last (x :: l) d).
  now rewrite (IH x d), (IH x h).
Qed.

Lemma hostChanges_app out1 out2 :
  NetworkService.hostChanges (out1 ++ out2) = NetworkService.hostChanges out1 ++ NetworkService.hostChanges out2.
Proof. unfold NetworkService.hostChanges. apply flat_map_app. Qed.

Lemma notify_all_app env out1 out2 state :
  notify_all env (out1 ++ out2) state = notify_all env out2 (notify_all env out1 state).
Proof. unfold notify_all. apply fold_left_app. Qed.

(** The store ends with the host of the last host-changed notification. *)
Lemma notify_all_hostId env out state :
  hostId (roomState (notify_all env out state))
  = List.last (NetworkService.hostChanges out) (hostId (roomState state)).
Proof.
  revert state. induction out as [|n out IH]; intros state; [reflexivity|].
  change (notify_all env (n :: out) state)
    with (notify_all env out (notify env n state)).
  rewrite IH. destruct n as [p | p | h]; cbn [NetworkService.hostChanges flat_map app notify].
  - fold (NetworkService.hostChanges out). unfold onPeerJoin.
    now destruct (peers (roomState state) !! p).
  - fold (NetworkService.hostChanges out). reflexivity.
  - fold (NetworkService.hostChanges out). now rewrite last_cons.
Qed.

Lemma In_Set_add x p s : In x (Set_add p s) <-> x = p \/ In x s.
Proof.
  unfold Set_add, Set_has. destruct (existsb (String.eqb p) s) eqn:E.
  - split; [now right|]. intros [-> | H]; [|exact H].
    apply List.existsb_exists in E as [y [Hy Ey]].
    apply String.eqb_eq in Ey. now subst y.
  - rewrite List.in_app_iff. simpl. intuition.
Qed.

Lemma In_Set_delete x p s : In x (Set_delete p s) <-> x <> p /\ In x s.
Proof.
  unfold Set_delete. rewrite List.filter_In, negb_true_iff, String.eqb_neq. tauto.
Qed.

(** One presence event, for a service that reports host changes and still
    knows itself. *)
Lemma presence_step e this :
  NetworkService.hostChangedCallback this = true ->
  In (NetworkService.selfId this) (NetworkService.peers this) ->
  e <> NetworkService.Left (NetworkService.selfId this) ->
  exists this1 out1 h1,
    match e with
    | NetworkService.Joined p => NetworkService.room_onPeerJoin p this
    | NetworkService.Left p => NetworkService.room_onPeerLeave p this
    end = (this1, out1)
    /\ NetworkService.selfId this1 = NetworkService.selfId this
    /\ NetworkService.hostChangedCallback this1 = true
    /\ In (NetworkService.selfId this) (NetworkService.peers this1)
    /\ NetworkService.newHostId (NetworkService.peers this1) = Some h1
    /\ NetworkService.hostChanges out1 = [h1].
Proof.
  intros Hcb Hin Hne.
  set (ps := match e with
             | NetworkService.Joined p => Set_add p (NetworkService.peers this)
             | NetworkService.Left p => Set_delete p (NetworkService.peers this)
             end).
  assert (Hin' : In (NetworkService.selfId this) ps).
  { destruct e as [p | p]; subst ps.
    - apply In_Set_add. now right.
    - apply In_Set_delete. split; [congruence | exact Hin]. }
  assert (Hnonempty : ps <> []) by (intros E; rewrite E in Hin'; destruct Hin').
  destruct (newHostId_some ps Hnonempty) as [h1 [Eh1 _]].
  destruct e as [p | p]; subst ps;
    (eexists; eexists; exists h1; split; [reflexivity|]);
    cbn [NetworkService.set_peers NetworkService.selfId NetworkService.hostChangedCallback NetworkService.peers
         NetworkService.peerJoinCallback NetworkService.peerLeaveCallback];
    repeat split; try assumption.
  - rewrite hostChanges_app. unfold NetworkService._handlePeerDiscovery.
    cbn [NetworkService.set_peers NetworkService.selfId NetworkService.hostChangedCallback NetworkService.peers].
    rewrite Eh1, Hcb. now destruct (NetworkService.peerJoinCallback this).
  - rewrite hostChanges_app. unfold NetworkService._handlePeerDiscovery.
    cbn [NetworkService.set_peers NetworkService.selfId NetworkService.hostChangedCallback NetworkService.peers].
    rewrite Eh1, Hcb. now destruct (NetworkService.peerLeaveCallback this).
Qed.

Lemma deliver_last_host events this h0 :
  NetworkService.hostChangedCallback this = true ->
  In (NetworkService.selfId this) (NetworkService.peers this) ->
  ~ In (NetworkService.Left (NetworkService.selfId this)) events ->
  NetworkService.newHostId (NetworkService.peers this) = Some h0 ->
  NetworkService.newHostId (NetworkService.peers (fst (NetworkService.deliver events this)))
  = Some (List.last (NetworkService.hostChanges (snd (NetworkService.deliver events this))) h0).
Proof.
  revert this h0. induction events as [|e events IH]; intros this h0 Hcb Hin Hnot Hh0.
  - exact Hh0.
  - assert (Hne : e <> NetworkService.Left (NetworkService.selfId this)) by (intros ->; apply Hnot; now left).
    destruct (presence_step e this Hcb Hin Hne)
      as (this1 & out1 & h1 & Estep & Hself & Hcb1 & Hin1 & Eh1 & Hout1).
    cbn [NetworkService.deliver]. rewrite Estep.
    specialize (IH this1 h1 Hcb1). rewrite Hself in IH.
    specialize (IH Hin1 (fun H => Hnot (or_intror H)) Eh1).
    destruct (NetworkService.deliver events this1) as [final out']. cbn [fst snd] in *.
    rewrite hostChanges_app, Hout1. cbn [app]. now rewrite last_cons.
Qed.

End Presence.

(** X10. The store's host follows the election: after [joinRoom] and any
    presence events (the local id never reported as leaving), with the
    notifications run through the store's callbacks, [hostId] is the smallest
    id the network service then knows. *)
Theorem host_follows_smallest_peer
    (env : Env) (net : NetworkService.t) (events : list NetworkService.Presence)
    (state : AppState) :
  NetworkService.hostChangedCallback net = true ->
  In (NetworkService.selfId net) (NetworkService.peers net) ->
  ~ In (NetworkService.Left (NetworkService.selfId net)) events ->
  let (net1, out1) := NetworkService.joinRoom net in
  let (net2, out2) := NetworkService.deliver events net1 in
  let host := hostId (roomState (notify_all env (out1 ++ out2) state)) in
  In host (NetworkService.peers net2)
  /\ (forall x, In x (NetworkService.peers net2) -> String.leb host x = true).
Proof.
  intros Hcb Hin Hnot. unfold NetworkService.joinRoom.
  set (net0 := if NetworkService.room net then NetworkService.leaveRoom net else net).
  set (net1 := NetworkService.set_room true net0).
  assert (Hself : NetworkService.selfId net1 = NetworkService.selfId net)
    by (subst net1 net0; now destruct (NetworkService.room net)).
  assert (Hcb1 : NetworkService.hostChangedCallback net1 = true)
    by (subst net1 net0; now destruct (NetworkService.room net)).
  assert (Hin1 : In (NetworkService.selfId net1) (NetworkService.peers net1)).
  { subst net1 net0. destruct (NetworkService.room net); [now left | exact Hin]. }
  assert (Hne : NetworkService.peers net1 <> [])
    by (intros E; rewrite E in Hin1; destruct Hin1).
  destruct (newHostId_some _ Hne) as [h0 [Eh0 _]].
  pose proof (deliver_last_host events net1 h0 Hcb1 Hin1) as Hlast.
  rewrite Hself in Hlast. specialize (Hlast Hnot Eh0).
  destruct (NetworkService.deliver events net1) as [net2 out2]. cbn [fst snd] in Hlast.
  assert (Hhost : hostId (roomState
                        (notify_all env
                           (NetworkService._handlePeerDiscovery net1 ++ out2) state))
                  = List.last (NetworkService.hostChanges out2) h0).
  { rewrite notify_all_hostId, hostChanges_app.
    unfold NetworkService._handlePeerDiscovery. rewrite Eh0, Hcb1.
    cbn [NetworkService.hostChanges flat_map app]. now rewrite last_cons. }
  cbv zeta. rewrite Hhost.
  assert (Hne2 : NetworkService.peers net2 <> []).
  { intros E. rewrite E in Hlast. discriminate. }
  destruct (newHostId_some _ Hne2) as [h2 [Eh2 [Hin2 Hlow2]]].
  rewrite Eh2 in Hlast. injection Hlast as <-. split; [exact Hin2 | exact Hlow2].
Qed.

Section PeerMap.

Lemma peers_after_discovery env net state :
  peers (roomState (notify_all env (NetworkService._handlePeerDiscovery net) state))
  = peers (roomState state).
Proof.
  unfold NetworkService._handlePeerDiscovery.
  destruct (NetworkService.newHostId _) as [h|];
    [destruct (NetworkService.hostChangedCallback net)|]; reflexivity.
Qed.

Lemma known_after_join env q state p :
  is_Some (peers (roomState (onPeerJoin env q state)) !! p)
  <-> (p = q /\ inherited q = false) \/ is_Some (peers (roomState state) !! p).
Proof.
  unfold onPeerJoin, truthy_at. cbn [roomState set_roomState peers with_peers].
  destruct (peers (roomState state) !! q) eqn:E; cbn [negb].
  - split; [now right|]. intros [[-> _] | H]; [rewrite E; eauto | exact H].
  - destruct (inherited q) eqn:Ei; cbn [negb].
    + split; [now right|]. intros [[_ H] | H]; [discriminate | exact H].
    + destruct (decide (q = p)) as [-> | Hne].
      * rewrite lookup_insert_eq. split; [now left | eauto].
      * rewrite lookup_insert_ne by exact Hne. split; [now right|].
        intros [[-> _] | H]; [congruence | exact H].
Qed.

Lemma known_after_leave q state p :
  is_Some (peers (roomState (onPeerLeave q state)) !! p)
  <-> p <> q /\ is_Some (peers (roomState state) !! p).
Proof.
  unfold onPeerLeave. cbn [roomState set_roomState peers with_peers with_speakerId].
  destruct (decide (q = p)) as [-> | Hne].
  - rewrite lookup_delete_eq. split; [intros [x Hx]; discriminate | tauto].
  - rewrite lookup_delete_ne by exact Hne. split; [|tauto].
    intros H. split; [congruence | exact H].
Qed.

(** What one presence event does to the peer set of the service and, through
    the callbacks, to the peer map of the store. *)
Lemma presence_event env e net state p :
  NetworkService.peerJoinCallback net = true ->
  NetworkService.peerLeaveCallback net = true ->
  let (net1, out) := NetworkService.deliver [e] net in
  NetworkService.peerJoinCallback net1 = true
  /\ NetworkService.peerLeaveCallback net1 = true
  /\ match e with
     | NetworkService.Joined q =>
         (In p (NetworkService.peers net1) <-> p = q \/ In p (NetworkService.peers net))
         /\ (is_Some (peers (roomState (notify_all env out state)) !! p)
             <-> (p = q /\ inherited q = false)
                 \/ is_Some (peers (roomState state) !! p))
     | NetworkService.Left q =>
         (In p (NetworkService.peers net1) <-> p <> q /\ In p (NetworkService.peers net))
         /\ (is_Some (peers (roomState (notify_all env out state)) !! p)
             <-> p <> q /\ is_Some (peers (roomState state) !! p))
     end.
Proof.
  intros Hj Hl. cbn [NetworkService.deliver].
  destruct e as [q | q].
  - unfold NetworkService.room_onPeerJoin.
    set (net1 := NetworkService.set_peers _ net).
    assert (Hj1 : NetworkService.peerJoinCallback net1 = true) by exact Hj.
    rewrite Hj1. rewrite app_nil_r.
    split; [first [exact Hj | reflexivity]|].
    split; [first [exact Hl | reflexivity]|]. split.
    + subst net1. cbn [NetworkService.set_peers NetworkService.peers].
      apply In_Set_add.
    + rewrite notify_all_app, peers_after_discovery.
      change (notify_all env [NetworkService.PeerJoin q] state)
        with (onPeerJoin env q state).
      apply known_after_join.
  - unfold NetworkService.room_onPeerLeave.
    set (net1 := NetworkService.set_peers _ net).
    assert (Hl1 : NetworkService.peerLeaveCallback net1 = true) by exact Hl.
    rewrite Hl1. rewrite app_nil_r.
    split; [first [exact Hj | reflexivity]|].
    split; [first [exact Hl | reflexivity]|]. split.
    + subst net1. cbn [NetworkService.set_peers NetworkService.peers].
      apply In_Set_delete.
    + rewrite notify_all_app, peers_after_discovery.
      change (notify_all env [NetworkService.PeerLeave q] state)
        with (onPeerLeave q state).
      apply known_after_leave.
Qed.

Lemma deliver_cons e events net :
  NetworkService.deliver (e :: events) net
  = let (net1, out1) := NetworkService.deliver [e] net in
    let (net2, out2) := NetworkService.deliver events net1 in
    (net2, out1 ++ out2).
Proof.
  cbn [NetworkService.deliver].
  destruct e as [q | q];
    [destruct (NetworkService.room_onPeerJoin q net) as [net1 out1]
    |destruct (NetworkService.room_onPeerLeave q net) as [net1 out1]];
    rewrite app_nil_r; reflexivity.
Qed.

End PeerMap.

(** X11. The peer map of the store follows the peer set of the network
    service, except for ids that name a property of [Object.prototype].  For
    an id that is no such name: if the two agree on it, they still agree
    after any sequence of presence events whose notifications are run through
    the store's callbacks.  An id that is such a name ([constructor],
    [toString], ...) and is not in the peer map is never put there, whatever
    the events, even while the network service knows that peer. *)
Theorem peer_map_follows_presence
    (env : Env) (events : list NetworkService.Presence) (net : NetworkService.t)
    (state : AppState) (p : string) :
  NetworkService.peerJoinCallback net = true ->
  NetworkService.peerLeaveCallback net = true ->
  let (net', out) := NetworkService.deliver events net in
  (inherited p = false ->
   (In p (NetworkService.peers net) <-> is_Some (peers (roomState state) !! p)) ->
   (In p (NetworkService.peers net')
    <-> is_Some (peers (roomState (notify_all env out state)) !! p)))
  /\ (inherited p = true ->
      peers (roomState state) !! p = None ->
      peers (roomState (notify_all env out state)) !! p = None).
Proof.
  revert net state.
  induction events as [|e events IH]; intros net state Hj Hl.
  - cbn. split; [intros _ H; exact H | intros _ H; exact H].
  - rewrite deliver_cons.
    pose proof (presence_event env e net state p Hj Hl) as Hstep.
    destruct (NetworkService.deliver [e] net) as [net1 out1].
    destruct Hstep as (Hj1 & Hl1 & Hstep).
    specialize (IH net1 (notify_all env out1 state) Hj1 Hl1).
    destruct (NetworkService.deliver events net1) as [net2 out2].
    rewrite notify_all_app. destruct IH as [IHa IHb]. split.
    + intros Hp Hagree. apply (IHa Hp).
      destruct e as [q | q]; destruct Hstep as [Hn Hs]; rewrite Hn, Hs.
      * split.
        -- intros [-> | H]; [left; split; [reflexivity | exact Hp] | right; tauto].
        -- intros [[-> _] | H]; [now left | right; tauto].
      * tauto.
    + intros Hp Hnone. apply (IHb Hp).
      apply eq_None_not_Some. intros Hsome.
      destruct e as [q | q]; destruct Hstep as [_ Hs]; apply Hs in Hsome.
      * destruct Hsome as [[-> Hq] | [x Hx]]; congruence.
      * destruct Hsome as [_ [x Hx]]. congruence.
Qed.

(** X12. Joining while a room is open first leaves it: every peer learnt so
    far is forgotten, only the local id stays known, and it is announced as
    host. *)
Theorem rejoin_restarts_election (net : NetworkService.t) :
  NetworkService.room net = true ->
  NetworkService.hostChangedCallback net = true ->
  let (net', out) := NetworkService.joinRoom net in
  NetworkService.peers net' = [NetworkService.selfId net]
  /\ NetworkService.room net' = true
  /\ out = [NetworkService.HostChanged (NetworkService.selfId net)].
Proof.
  intros Hroom Hcb. unfold NetworkService.joinRoom. rewrite Hroom.
  unfold NetworkService._handlePeerDiscovery, NetworkService.leaveRoom.
  cbn. rewrite Hcb. repeat split.
Qed.

(** ** Playback scheduling, continued *)

Section PlaybackMore.
Local Open Scope Q_scope.

Lemma createBuffer_duration_pos length sampleRate d :
  createBuffer_duration length sampleRate = inr d -> 0 < d.
Proof.
  unfold createBuffer_duration.
  destruct (length =? 0)%nat eqn:El; [discriminate|].
  destruct (Qle_bool sampleRate 0) eqn:Er; [discriminate|].
  intros [= <-]. apply Nat.eqb_neq in El.
  assert (Hr : 0 < sampleRate).
  { apply Qnot_le_lt. intros H. apply Qle_bool_iff in H. congruence. }
  apply Qlt_shift_div_l; [exact Hr|]. rewrite Qmult_0_l.
  unfold Qlt, inject_Z. cbn. lia.
Qed.

Lemma run_audio_gapless calls this :
  0 <= jitterLatency this ->
  let frames := snd (run_audio calls this) in
  gapless_from (nextStartTime this) frames
  /\ List.Forall (fun f => clock f <= startAt f /\ 0 < duration f) frames.
Proof.
  revert this.
  induction calls as [|[seconds | audioData sampleRate currentTime] calls IH];
    intros this Hjl; cbn [run_audio].
  - cbn. split; [exact I | constructor].
  - apply (IH (setJitterLatency seconds this)). cbn. apply Math_max_nonneg.
  - destruct (playAudioQueue audioData sampleRate currentTime this)
      as [e | [this' frame]] eqn:E.
    + apply IH, Hjl.
    + destruct (playAudioQueue_inr _ _ _ _ _ _ E) as (Hjl' & Hnext & Hc & Hl & Hu & Hs).
      assert (Hd : 0 < duration frame).
      { unfold playAudioQueue in E.
        destruct (createBuffer_duration _ _) as [e|d] eqn:Ed; [discriminate|].
        injection E as <- <-. cbn. exact (createBuffer_duration_pos _ _ _ Ed). }
      specialize (IH this'). rewrite Hjl', Hnext in IH. specialize (IH Hjl).
      destruct (run_audio calls this') as [final frames]. cbn [snd] in *.
      destruct IH as [IHg IHf].
      split; [split; [|exact IHg] | constructor; [split; [|exact Hd] | exact IHf]].
      * intros Hno. rewrite Hs, Hno. reflexivity.
      * rewrite Hs, Hc. destruct (underrun frame).
        -- rewrite <- (Qplus_0_r currentTime) at 1. apply Qplus_le_r. exact Hjl.
        -- symmetry in Hu. now apply Qltb_ge.
Qed.

End PlaybackMore.

(** X13. Playback is gapless while the stream keeps up.  In the arithmetic
    of the platform, on a fresh [AudioService] and with sample rates that are
    32-bit floats, whichever rates the implementation supports: every frame
    with samples and a positive, supported rate is scheduled;
    a frame submitted no later than the end of the frame scheduled before it
    (the sum of that frame's start and its sample count over its sample rate)
    starts exactly at that end, with no gap and no overlap; a frame submitted
    after that end starts at the sum of its clock reading and the jitter
    latency, which is after that end when the clock reading is a Number. *)
Theorem playback_gapless_without_underrun
    (supported : Q -> bool) (calls : list AudioCall) :
  rates_are_float32 calls = true ->
  map (fun s => (frameCount s, frameRate s, submittedAt s))
    (play_log supported calls AudioService_new) = submitted supported calls
  /\ forall before s1 s2 after,
       play_log supported calls AudioService_new = before ++ s1 :: s2 :: after ->
       let finish := double (startedAt s1 + playingTime s1) in
       ((submittedAt s2 <= finish)%Q -> (startedAt s2 == finish)%Q)
       /\ ((finish < submittedAt s2)%Q ->
           startedAt s2 = double (submittedAt s2 + latencyBefore s2)
           /\ (finish <= startedAt s2)%Q
           /\ (is_double (submittedAt s2) = true -> (finish < startedAt s2)%Q)).
Proof.
  intros Hrates.
  assert (Hjl : (0 <= jitterLatency AudioService_new)%Q) by discriminate.
  assert (Hnum : (double (nextStartTime AudioService_new)
                  == nextStartTime AudioService_new)%Q) by reflexivity.
  destruct (play_log_spec supported calls AudioService_new Hrates Hjl Hnum)
    as (Hsub & Hchain & Hall).
  split; [exact Hsub|].
  intros before s1 s2 after E. cbv zeta.
  pose proof (cursor_chain_consecutive _ _ _ _ _ _ Hchain E) as Hc.
  assert (Hin1 : In s1 (play_log supported calls AudioService_new))
    by (rewrite E; apply in_or_app; right; left; reflexivity).
  assert (Hin2 : In s2 (play_log supported calls AudioService_new))
    by (rewrite E; apply in_or_app; right; right; left; reflexivity).
  pose proof (proj1 (List.Forall_forall _ _) Hall s1 Hin1) as (_ & _ & _ & _ & Hafter & _).
  pose proof (proj1 (List.Forall_forall _ _) Hall s2 Hin2)
    as (Hlat & Hstart & Hunder & Hkeep & _).
  rewrite Hc in *. rewrite <- Hafter. split.
  - intros Hle. rewrite (Hkeep Hle). reflexivity.
  - intros Hlt. split; [exact (Hunder Hlt)|]. split; [exact Hstart|].
    intros Hclock. rewrite (Hunder Hlt).
    apply Qlt_le_trans with (submittedAt s2); [exact Hlt|].
    rewrite <- (is_double_double _ Hclock) at 1. apply double_le. lra.
Qed.

(** X14. On a fresh [AudioService], whatever the calls, no frame is ever
    scheduled to start before the clock reading at which it was submitted,
    and every scheduled frame has a positive duration. *)
Theorem playback_never_in_the_past (calls : list AudioCall) :
  forall f, In f (snd (run_audio calls AudioService_new)) ->
            (clock f <= startAt f)%Q /\ (0 < duration f)%Q.
Proof.
  assert (Hjl : (0 <= jitterLatency AudioService_new)%Q) by discriminate.
  destruct (run_audio_gapless calls AudioService_new Hjl) as [_ Hf].
  intros f Hin. exact (proj1 (List.Forall_forall _ _) Hf f Hin).
Qed.

(** X29. In the arithmetic of the platform, on a fresh [AudioService] and
    with sample rates that are 32-bit floats, whichever rates the
    implementation supports: no frame is scheduled to start
    before the clock reading at which it was submitted, that reading being a
    Number, and every scheduled frame has a positive playing time. *)
Theorem playback_never_in_the_past_double
    (supported : Q -> bool) (calls : list AudioCall) (s : Submission) :
  rates_are_float32 calls = true ->
  In s (play_log supported calls AudioService_new) ->
  (is_double (submittedAt s) = true -> (submittedAt s <= startedAt s)%Q)
  /\ (0 < playingTime s)%Q.
Proof.
  intros Hrates Hin.
  assert (Hjl : (0 <= jitterLatency AudioService_new)%Q) by discriminate.
  assert (Hnum : (double (nextStartTime AudioService_new)
                  == nextStartTime AudioService_new)%Q) by reflexivity.
  destruct (play_log_spec supported calls AudioService_new Hrates Hjl Hnum)
    as (_ & _ & Hall).
  pose proof (proj1 (List.Forall_forall _ _) Hall s Hin)
    as (Hlat & _ & Hunder & Hkeep & _ & Hpos).
  split; [|exact Hpos].
  intros Hclock. destruct (Qlt_le_dec (cursorBefore s) (submittedAt s)) as [Hlt | Hge].
  - rewrite (Hunder Hlt). rewrite <- (is_double_double _ Hclock) at 1.
    apply double_le. lra.
  - rewrite (Hkeep Hge). exact Hge.
Qed.

(** ** Resampling, continued *)

Section ResamplingMore.
Local Open Scope Q_scope.

(** [buffer[k] || 0] is the sample itself when the index is in range. *)
Lemma val1_in_range (buffer : list Q) (k : Z) :
  (0 <= k < Z.of_nat (length buffer))%Z ->
  exists v, nth_error buffer (Z.to_nat k) = Some v
            /\ index_at buffer k = Some v
            /\ or_number (index_at buffer k) 0 == v.
Proof.
  intros Hk. unfold index_at.
  destruct (k <? 0)%Z eqn:E; [apply Z.ltb_lt in E; lia|].
  destruct (nth_error buffer (Z.to_nat k)) as [v|] eqn:En.
  - exists v. repeat split. unfold or_number.
    destruct (Qeq_bool v 0) eqn:Ev; [|reflexivity].
    apply Qeq_bool_iff in Ev. now rewrite Ev.
  - apply nth_error_None in En. lia.
Qed.

(** [buffer[k] || val1] is a sample of the buffer or [val1]. *)
Lemma val2_cases (buffer : list Q) (k : Z) (val1 : Q) :
  or_number (index_at buffer k) val1 = val1
  \/ In (or_number (index_at buffer k) val1) buffer.
Proof.
  unfold index_at, or_number.
  destruct (k <? 0)%Z; [now left|].
  destruct (nth_error buffer (Z.to_nat k)) as [u|] eqn:E; [|now left].
  destruct (Qeq_bool u 0); [now left|].
  right. eapply nth_error_In, E.
Qed.


Lemma downsampling_ratio sourceRate targetRate :
  0 < targetRate -> targetRate < sourceRate ->
  Qeq_bool targetRate sourceRate = false
  /\ Qltb sourceRate targetRate = false
  /\ 1 < sourceRate / targetRate.
Proof.
  intros Ht Hlt. split; [|split].
  - destruct (Qeq_bool targetRate sourceRate) eqn:E; [|reflexivity].
    apply Qeq_bool_iff in E. rewrite E in Hlt. now apply Qlt_irrefl in Hlt.
  - unfold Qltb. apply negb_false_iff, Qle_bool_iff. now apply Qlt_le_weak.
  - apply Qlt_shift_div_l; [exact Ht|]. now rewrite Qmult_1_l.
Qed.

End ResamplingMore.

Section Decimation.
Local Open Scope Q_scope.

Lemma nth_error_seq0 (m i j : nat) :
  nth_error (seq 0 m) i = Some j -> j = i /\ (i < m)%nat.
Proof.
  intros H.
  assert (Hi : (i < length (seq 0 m))%nat)
    by (apply List.nth_error_Some; congruence).
  rewrite List.length_seq in Hi.
  split; [|exact Hi].
  apply (List.nth_error_nth _ _ 0%nat) in H.
  rewrite List.seq_nth in H by exact Hi. lia.
Qed.

Lemma integer_ratio (sourceRate targetRate : Q) (k : nat) :
  0 < targetRate ->
  sourceRate == inject_Z (Z.of_nat k) * targetRate ->
  sourceRate / targetRate == inject_Z (Z.of_nat k).
Proof.
  intros Ht Hs. rewrite Hs. field.
  intros E. rewrite E in Ht. discriminate.
Qed.

End Decimation.


(** ** Resampling in the arithmetic of the platform *)

Section DoublePrecision.
Local Open Scope Q_scope.

#[local] Instance double_Proper' : Proper (Qeq ==> Qeq) double.
Proof. intros x y E. now apply double_comp. Qed.

#[local] Instance fround_Proper' : Proper (Qeq ==> Qeq) fround.
Proof. intros x y E. now apply fround_comp. Qed.

Lemma pow2_32 : pow2 32 == inject_Z (2 ^ 32).
Proof. apply pow2_Z. lia. Qed.

Lemma pow2_m2 : pow2 (-2) == 1 # 4.
Proof. reflexivity. Qed.

(** The ratio of a true downsampling is at least 1. *)
Lemma ratio_ge_1 sourceRate targetRate :
  0 < targetRate -> targetRate < sourceRate -> 1 <= double (sourceRate / targetRate).
Proof.
  intros Ht Hlt. rewrite <- double_1. apply double_le.
  apply Qle_shift_div_l; [exact Ht|]. lra.
Qed.

(** The output length: the rounded quotient is within [2 ^ -22] of the
    quotient, and the length is between 0 and the input length. *)
Lemma newLength_bounds (n : Z) ratio :
  1 <= ratio -> (0 <= n < 2 ^ 32)%Z ->
  let y := double (inject_Z n / ratio) in
  0 <= y /\ y <= inject_Z n / ratio + pow2 (-22) /\ (0 <= Math_round y <= n)%Z.
Proof.
  intros Hr Hn. cbv zeta.
  assert (Hn0 : 0 <= inject_Z n) by (change 0 with (inject_Z 0); rewrite <- Zle_Qle; lia).
  assert (Hn1 : inject_Z n < pow2 32) by (rewrite pow2_32, <- Zlt_Qlt; lia).
  assert (Hq0 : 0 <= inject_Z n / ratio).
  { apply Qle_shift_div_l; [lra|]. lra. }
  assert (Hq1 : inject_Z n / ratio <= inject_Z n).
  { apply Qle_shift_div_r; [lra|]. nra. }
  set (q := inject_Z n / ratio) in *.
  assert (Hy0 : 0 <= double q) by (apply round_to_nonneg; exact Hq0).
  destruct (round_to_error 53 (-1074) q 31 (-21)) as [_ He].
  { change (31 + 1)%Z with 32%Z. pose proof (pow2_pos 32). lra. }
  { change (31 + 1)%Z with 32%Z. lra. }
  { lia. }
  change (-21 - 1)%Z with (-22)%Z in He. fold double in He.
  assert (Hyn : double q <= inject_Z n).
  { rewrite <- (double_Z n) by lia. now apply double_le. }
  split; [exact Hy0|]. split; [lra|]. unfold Math_round. split.
  - change 0%Z with (Qfloor 0). apply Qfloor_resp_le. lra.
  - rewrite <- (Qfloor_unique (inject_Z n + (1 # 2)) n) by lra.
    apply Qfloor_resp_le. lra.
Qed.

(** The source position of an output index falls inside the buffer. *)
Lemma position_bounds (n i : Z) ratio :
  1 <= ratio -> (0 <= n < 2 ^ 32)%Z ->
  (0 <= i < Math_round (double (inject_Z n / ratio)))%Z ->
  let x := double (inject_Z i * ratio) in
  0 <= x /\ (0 <= Qfloor x < n)%Z /\ ((1 <= i)%Z -> 1 <= inject_Z i * ratio).
Proof.
  intros Hr Hn Hi. cbv zeta.
  destruct (newLength_bounds n ratio Hr Hn) as (Hy0 & Hy1 & Hlen).
  set (y := double (inject_Z n / ratio)) in *.
  assert (Hi0 : 0 <= inject_Z i) by (change 0 with (inject_Z 0); rewrite <- Zle_Qle; lia).
  assert (Hp : 0 <= inject_Z i * ratio) by nra.
  assert (Hx0 : 0 <= double (inject_Z i * ratio)) by (apply round_to_nonneg; exact Hp).
  assert (Hi1 : inject_Z i + 1 <= y + (1 # 2)).
  { apply Qle_trans with (inject_Z (Math_round y)).
    - change 1 with (inject_Z 1). rewrite <- inject_Z_plus, <- Zle_Qle. lia.
    - unfold Math_round. apply Qfloor_le. }
  assert (Hqr : inject_Z n / ratio * ratio == inject_Z n).
  { field. intros H0. lra. }
  set (q := inject_Z n / ratio) in *.
  assert (Hp22 : pow2 (-22) <= 1 # 4).
  { rewrite <- pow2_m2. apply pow2_le. lia. }
  assert (Hpos : inject_Z i * ratio <= inject_Z n - (1 # 4)).
  { assert (H1 : inject_Z i <= q - (1 # 4)) by lra.
    assert (H2 : inject_Z i * ratio <= (q - (1 # 4)) * ratio)
      by (apply Qmult_le_compat_r; lra).
    nra. }
  assert (Hx1 : double (inject_Z i * ratio) <= inject_Z n - (1 # 4)).
  { rewrite <- (double_exact (inject_Z n - (1 # 4)) (4 * n - 1) (-2)).
    - now apply double_le.
    - lia.
    - lia.
    - rewrite pow2_m2. unfold Z.sub. rewrite inject_Z_plus, inject_Z_mult.
      change (inject_Z 4) with (4 # 1). change (inject_Z (Z.opp 1)) with (-1 # 1). ring. }
  split; [exact Hx0|]. split; [split|].
  - change 0%Z with (Qfloor 0). now apply Qfloor_resp_le.
  - rewrite Zlt_Qlt.
    apply Qle_lt_trans with (double (inject_Z i * ratio)); [apply Qfloor_le | lra].
  - intros H1. assert (1 <= inject_Z i)
      by (change 1 with (inject_Z 1); rewrite <- Zle_Qle; lia).
    nra.
Qed.

(** A Number that is zero or at least 1 is a multiple of [2 ^ -52]. *)
Lemma double_grid p :
  p == 0 \/ 1 <= p -> exists a : Z, double p == inject_Z a * pow2 (-52).
Proof.
  intros [H0 | H1].
  - exists 0%Z. rewrite H0, double_0. ring.
  - assert (Hp : 0 < p) by lra.
    unfold double. rewrite (round_to_pos 53 (-1074) p Hp). unfold round_positive.
    set (e := exponent 53 (-1074) p).
    assert (He : (-52 <= e)%Z).
    { subst e. unfold exponent.
      assert (0 <= Qlog2 p)%Z by (apply Qlog2_ge; rewrite pow2_0; exact H1). lia. }
    exists (round_half_even (p / pow2 e) * 2 ^ (e + 52))%Z.
    rewrite inject_Z_mult, <- (pow2_Z (e + 52)) by lia.
    rewrite <- Qmult_assoc, <- pow2_add.
    now replace (e + 52 + -52)%Z with e by lia.
Qed.

Lemma pow2_52 : pow2 52 * pow2 (-52) == 1.
Proof. reflexivity. Qed.

(** The weight of a position on that grid, and one minus the weight, are
    computed without rounding. *)
Lemma weight_exact x (a : Z) :
  x == inject_Z a * pow2 (-52) ->
  let w := x - inject_Z (Qfloor x) in
  double w == w /\ double (1 - double w) == 1 - w /\ 0 <= w /\ w < 1.
Proof.
  intros Hx. cbv zeta.
  pose proof (Qfloor_le x) as H1. pose proof (Qlt_floor x) as H2.
  rewrite inject_Z_plus in H2. change (inject_Z 1) with 1 in H2.
  set (f := Qfloor x) in *.
  set (b := (a - f * 2 ^ 52)%Z).
  assert (H52 : pow2 52 == inject_Z (2 ^ 52)) by (apply pow2_Z; lia).
  pose proof pow2_52 as Hone. pose proof (pow2_pos (-52)) as Hpm.
  assert (Hb : x - inject_Z f == inject_Z b * pow2 (-52)).
  { subst b. unfold Z.sub. rewrite inject_Z_plus, inject_Z_opp, inject_Z_mult, <- H52, Hx.
    setoid_replace ((inject_Z a + - (inject_Z f * pow2 52)) * pow2 (-52))
      with (inject_Z a * pow2 (-52) - inject_Z f * (pow2 52 * pow2 (-52)))
      using relation Qeq by ring.
    rewrite Hone. ring. }
  assert (Hb0 : (0 <= b < 2 ^ 52)%Z).
  { assert (Hbq : inject_Z b == (x - inject_Z f) * pow2 52).
    { rewrite Hb. rewrite <- Qmult_assoc, (Qmult_comm (pow2 (-52))), Hone. ring. }
    pose proof (pow2_pos 52) as Hp52.
    split.
    - rewrite Zle_Qle, Hbq. change (inject_Z 0) with 0. nra.
    - rewrite Zlt_Qlt, Hbq, <- H52.
      setoid_replace (pow2 52) with (1 * pow2 52) using relation Qeq at 2 by ring.
      apply Qmult_lt_compat_r; [exact Hp52 | lra]. }
  assert (Hw : double (x - inject_Z f) == x - inject_Z f).
  { apply (double_exact _ b (-52)); [|lia | exact Hb].
    assert (2 ^ 52 < 2 ^ 53)%Z by (apply Z.pow_lt_mono_r; lia). lia. }
  split; [exact Hw|]. split; [|split; lra].
  rewrite Hw. apply (double_exact _ (2 ^ 52 - b) (-52)).
  - assert (2 ^ 52 < 2 ^ 53)%Z by (apply Z.pow_lt_mono_r; lia). lia.
  - lia.
  - unfold Z.sub. rewrite inject_Z_plus, inject_Z_opp, <- H52, Hb.
    setoid_replace ((pow2 52 + - inject_Z b) * pow2 (-52))
      with (pow2 52 * pow2 (-52) - inject_Z b * pow2 (-52)) using relation Qeq by ring.
    rewrite Hone. ring.
Qed.

(** The error of an operation on Numbers of magnitude below [2 ^ (e + 24)],
    and below [2 ^ (e + 25)]. *)
Lemma double_error p (e : Z) :
  (-149 <= e)%Z -> - pow2 (e + 24) < p -> p < pow2 (e + 24) ->
  - pow2 (e - 30) <= double p - p /\ double p - p <= pow2 (e - 30).
Proof.
  intros He H1 H2.
  destruct (round_to_error 53 (-1074) p (e + 23) (e - 29)) as [Ha Hb].
  - now replace (e + 23 + 1)%Z with (e + 24)%Z by lia.
  - now replace (e + 23 + 1)%Z with (e + 24)%Z by lia.
  - lia.
  - replace (e - 29 - 1)%Z with (e - 30)%Z in Ha, Hb by lia. now split.
Qed.

(** Mixing a 32-bit float with itself, with weights that add up to one, and
    storing the result as a 32-bit float gives it back. *)
Lemma mix_same c u w :
  fround c == c -> 0 <= w -> w <= 1 -> u == 1 - w ->
  fround (double (double (c * u) + double (c * w))) == c.
Proof.
  intros Hfix Hw0 Hw1 Hu.
  destruct (Qeq_dec c 0) as [Hc0 | Hc0].
  - assert (E1 : c * u == 0) by (rewrite Hc0; ring).
    assert (E2 : c * w == 0) by (rewrite Hc0; ring).
    rewrite (double_comp _ _ E1), (double_comp _ _ E2), double_0.
    assert (E3 : 0 + 0 == 0) by ring.
    rewrite (fround_comp _ _ (double_comp _ _ E3)), (fround_comp _ _ double_0), fround_0.
    now symmetry.
  - set (e := exponent 24 (-149) (Qabs c)).
    assert (Habs0 : 0 < Qabs c).
    { destruct (sign_cases c) as [H | [H | H]]; [| contradiction |].
      - rewrite Qabs_neg; lra.
      - rewrite Qabs_pos; lra. }
    assert (He : (-149 <= e)%Z) by apply exponent_ge.
    assert (Habs : Qabs c < pow2 (e + 24)).
    { destruct (Qlog2_spec (Qabs c) Habs0) as [_ H2].
      apply Qlt_le_trans with (pow2 (Qlog2 (Qabs c) + 1)); [exact H2|].
      apply pow2_le. subst e. unfold exponent. lia. }
    assert (Hbound : - Qabs c <= c /\ c <= Qabs c).
    { destruct (sign_cases c) as [H | [H | H]]; [| contradiction |].
      - rewrite Qabs_neg; lra.
      - rewrite Qabs_pos; lra. }
    set (B := Qabs c) in *. destruct Hbound as [Hb1 Hb2].
    assert (Hu0 : 0 <= u) by lra. assert (Hu1 : u <= 1) by lra.
    assert (Hcu : - B <= c * u /\ c * u <= B) by (split; nra).
    assert (Hcw : - B <= c * w /\ c * w <= B) by (split; nra).
    assert (Hsum : c * u + c * w == c) by (rewrite Hu; ring).
    destruct (double_error (c * u) e He) as [Ha1 Ha2]; [lra | lra |].
    destruct (double_error (c * w) e He) as [Hb3 Hb4]; [lra | lra |].
    pose proof (pow2_pred (e - 29)) as P1. replace (e - 29 - 1)%Z with (e - 30)%Z in P1 by lia.
    pose proof (pow2_pred (e - 28)) as P2. replace (e - 28 - 1)%Z with (e - 29)%Z in P2 by lia.
    pose proof (pow2_succ (e + 24)) as P3. replace (e + 24 + 1)%Z with (e + 25)%Z in P3 by lia.
    pose proof (pow2_pos (e - 30)) as P4.
    assert (P5 : pow2 (e - 29) <= pow2 (e + 24)) by (apply pow2_le; lia).
    assert (P6 : pow2 (e - 28) < pow2 (e - 2)) by (apply pow2_lt; lia).
    set (S := double (c * u) + double (c * w)) in *.
    destruct (round_to_error 53 (-1074) S (e + 24) (e - 28)) as [Hc1 Hc2].
    { replace (e + 24 + 1)%Z with (e + 25)%Z by lia. subst S. lra. }
    { replace (e + 24 + 1)%Z with (e + 25)%Z by lia. subst S. lra. }
    { lia. }
    replace (e - 28 - 1)%Z with (e - 29)%Z in Hc1, Hc2 by lia. fold double in Hc1, Hc2.
    apply (round_to_snap 24 (-149) c (double S) Hc0 Hfix);
      change (exponent 24 (-149) (Qabs c)) with e; subst S; lra.
Qed.

(** The mix is monotone in the two samples. *)
Lemma mix_le a b a' b' u w :
  0 <= u -> 0 <= w -> a <= a' -> b <= b' ->
  fround (double (double (a * u) + double (b * w)))
  <= fround (double (double (a' * u) + double (b' * w))).
Proof.
  intros Hu Hw Ha Hb. apply fround_le, double_le.
  assert (H1 : double (a * u) <= double (a' * u)) by (apply double_le; nra).
  assert (H2 : double (b * w) <= double (b' * w)) by (apply double_le; nra).
  lra.
Qed.

Lemma downsampling_tests sourceRate targetRate :
  0 < targetRate -> targetRate < sourceRate ->
  Qeq_bool targetRate sourceRate = false
  /\ Qltb sourceRate targetRate = false
  /\ Qeq_bool targetRate 0 = false
  /\ Qeq_bool (double (sourceRate / targetRate)) 0 = false.
Proof.
  intros Ht Hlt. pose proof (ratio_ge_1 _ _ Ht Hlt) as Hr.
  repeat split.
  - destruct (Qeq_bool targetRate sourceRate) eqn:E; [|reflexivity].
    apply Qeq_bool_iff in E. lra.
  - unfold Qltb. apply negb_false_iff, Qle_bool_iff. lra.
  - destruct (Qeq_bool targetRate 0) eqn:E; [|reflexivity].
    apply Qeq_bool_iff in E. lra.
  - destruct (Qeq_bool _ 0) eqn:E; [|reflexivity].
    apply Qeq_bool_iff in E. lra.
Qed.

(** What a true downsampling of fewer than [2 ^ 32] samples returns. *)
Lemma downsampleBuffer_double_shape buffer sourceRate targetRate :
  0 < targetRate -> targetRate < sourceRate ->
  (Z.of_nat (length buffer) < 2 ^ 32)%Z ->
  let ratio := double (sourceRate / targetRate) in
  let newLength := Math_round (double (inject_Z (Z.of_nat (length buffer)) / ratio)) in
  1 <= ratio
  /\ (0 <= newLength <= Z.of_nat (length buffer))%Z
  /\ downsampleBuffer_double buffer sourceRate targetRate
     = inr (map (resample_at buffer ratio) (seq 0 (Z.to_nat newLength))).
Proof.
  intros Ht Hlt Hn. cbv zeta.
  pose proof (ratio_ge_1 _ _ Ht Hlt) as Hr.
  destruct (downsampling_tests _ _ Ht Hlt) as (E1 & E2 & E3 & E4).
  destruct (newLength_bounds (Z.of_nat (length buffer)) _ Hr) as (_ & _ & Hlen); [lia|].
  split; [exact Hr|]. split; [exact Hlen|].
  unfold downsampleBuffer_double. rewrite E1, E2, E3, E4.
  set (newLength := Math_round _) in *.
  replace (newLength <? 0)%Z with false by (symmetry; apply Z.ltb_ge; lia).
  replace (2 ^ 53 <=? newLength)%Z with false; [reflexivity|].
  symmetry. apply Z.leb_gt.
  assert (2 ^ 32 < 2 ^ 53)%Z by (apply Z.pow_lt_mono_r; lia). lia.
Qed.

(** One output sample of a true downsampling: the samples read, and the
    weight, which is computed without rounding. *)
Lemma resample_at_spec buffer ratio (i : nat) :
  1 <= ratio -> (Z.of_nat (length buffer) < 2 ^ 32)%Z ->
  (Z.of_nat i < Math_round (double (inject_Z (Z.of_nat (length buffer)) / ratio)))%Z ->
  let x := double (inject_Z (Z.of_nat i) * ratio) in
  let w := x - inject_Z (Qfloor x) in
  exists v,
    index_at buffer (Qfloor x) = Some v /\ In v buffer
    /\ or_number (Some v) 0 == v
    /\ 0 <= w /\ w < 1
    /\ resample_at buffer ratio i
       == fround (double (double (or_number (Some v) 0 * (1 - w))
                          + double (or_number (index_at buffer (Qceiling x))
                                      (or_number (Some v) 0) * w))).
Proof.
  intros Hr Hn Hi. cbv zeta.
  destruct (position_bounds (Z.of_nat (length buffer)) (Z.of_nat i) ratio Hr)
    as (Hx0 & Hfloor & Hx1); [lia | lia |].
  set (x := double (inject_Z (Z.of_nat i) * ratio)) in *.
  destruct (val1_in_range buffer (Qfloor x) Hfloor) as (v & Hnth & Hat & Hv1).
  assert (Hgrid : exists a : Z, x == inject_Z a * pow2 (-52)).
  { apply double_grid. destruct (Nat.eq_dec i 0%nat) as [-> | Hne].
    - left. cbn. ring.
    - right. apply Hx1. lia. }
  destruct Hgrid as [a Ha].
  destruct (weight_exact x a Ha) as (Hw & Hu & Hw0 & Hw1).
  exists v. split; [exact Hat|]. split; [eapply nth_error_In, Hnth|].
  rewrite Hat in Hv1. split; [exact Hv1|]. split; [exact Hw0|]. split; [exact Hw1|].
  unfold resample_at. fold x. rewrite Hat.
  set (val1 := or_number (Some v) 0).
  set (val2 := or_number (index_at buffer (Qceiling x)) val1).
  set (w := x - inject_Z (Qfloor x)) in *.
  apply fround_comp, double_comp.
  assert (E1 : val1 * double (1 - double w) == val1 * (1 - w)) by (rewrite Hu; reflexivity).
  assert (E2 : val2 * double w == val2 * w) by (rewrite Hw; reflexivity).
  rewrite (double_comp _ _ E1), (double_comp _ _ E2). reflexivity.
Qed.

Lemma nth_error_map_seq {A : Type} (f : nat -> A) (m i : nat) (y : A) :
  nth_error (map f (seq 0 m)) i = Some y -> (i < m)%nat /\ y = f i.
Proof.
  intros H. rewrite List.nth_error_map in H.
  destruct (nth_error (seq 0 m) i) as [j|] eqn:Ej; [|discriminate].
  apply nth_error_seq0 in Ej as [-> Hi]. cbn in H.
  split; [exact Hi|]. now injection H.
Qed.

End DoublePrecision.

Section WholeRatio.
Local Open Scope Q_scope.

Lemma pow2_m21 : pow2 (-21) == 1 # 2097152.
Proof. reflexivity. Qed.

(** At a whole ratio below [2 ^ 20] the rounding of the quotient does not
    change the output length. *)
Lemma whole_ratio_length (n k : Z) :
  (0 <= n < 2 ^ 32)%Z -> (1 <= k < 2 ^ 20)%Z ->
  Math_round (double (inject_Z n / inject_Z k)) = Math_round (inject_Z n / inject_Z k).
Proof.
  intros Hn Hk.
  assert (HK1 : 1 <= inject_Z k) by (change 1 with (inject_Z 1); rewrite <- Zle_Qle; lia).
  assert (HK2 : inject_Z k <= 1048576 # 1)
    by (change (1048576 # 1) with (inject_Z (2 ^ 20)); rewrite <- Zle_Qle; lia).
  assert (HN0 : 0 <= inject_Z n) by (change 0 with (inject_Z 0); rewrite <- Zle_Qle; lia).
  set (z := inject_Z n / inject_Z k).
  assert (Hz : z * inject_Z k == inject_Z n) by (subst z; field; lra).
  assert (Hzn : z <= inject_Z n) by nra.
  assert (Hz0 : 0 <= z) by nra.
  set (q := Math_round z).
  pose proof (Qfloor_le (z + (1 # 2))) as H1. pose proof (Qlt_floor (z + (1 # 2))) as H2.
  fold (Math_round z) in H1, H2. fold q in H1, H2.
  rewrite inject_Z_plus in H2. change (inject_Z 1) with 1 in H2.
  assert (Hq0 : (0 <= q)%Z).
  { subst q. unfold Math_round. change 0%Z with (Qfloor 0). apply Qfloor_resp_le. lra. }
  assert (Hqn : (q <= n)%Z).
  { assert (Hlt : inject_Z q < inject_Z (n + 1))
      by (rewrite inject_Z_plus; change (inject_Z 1) with 1; lra).
    rewrite <- Zlt_Qlt in Hlt. lia. }
  unfold Math_round at 1.
  apply Qfloor_unique.
  - (* q - 1/2 is a Number below z *)
    assert (Hex : double (inject_Z q - (1 # 2)) == inject_Z q - (1 # 2)).
    { apply (double_exact _ (2 * q - 1) (-1)).
      - assert (2 ^ 32 < 2 ^ 52)%Z by (apply Z.pow_lt_mono_r; lia).
        assert (2 ^ 53 = 2 * 2 ^ 52)%Z by reflexivity. lia.
      - lia.
      - unfold Z.sub. rewrite inject_Z_plus, inject_Z_mult.
        change (inject_Z 2) with (2 # 1). change (inject_Z (Z.opp 1)) with (-1 # 1).
        change (pow2 (-1)) with (1 # 2). ring. }
    assert (Hle : double (inject_Z q - (1 # 2)) <= double z) by (apply double_le; lra).
    lra.
  - (* z is at least 2 ^ -21 below q + 1/2, which is a Number *)
    assert (Hint : (2 * n + k + 1 <= 2 * k * (q + 1))%Z).
    { assert (Hlt : inject_Z (2 * n + k) < inject_Z (2 * k * (q + 1))).
      { rewrite !inject_Z_plus, !inject_Z_mult, inject_Z_plus.
        change (inject_Z 2) with (2 # 1). change (inject_Z 1) with 1. nra. }
      rewrite <- Zlt_Qlt in Hlt. lia. }
    assert (Hq : inject_Z (2 * n + k + 1) <= inject_Z (2 * k * (q + 1)))
      by (rewrite <- Zle_Qle; exact Hint).
    rewrite !inject_Z_plus, !inject_Z_mult, inject_Z_plus in Hq.
    change (inject_Z 2) with (2 # 1) in Hq. change (inject_Z 1) with 1 in Hq.
    assert (Hgap : z <= inject_Z q + (1 # 2) - (1 # 2097152)) by nra.
    assert (Hex : double (inject_Z q + (1 # 2) - (1 # 2097152))
                  == inject_Z q + (1 # 2) - (1 # 2097152)).
    { apply (double_exact _ (q * 2 ^ 21 + 2 ^ 20 - 1) (-21)).
      - assert (2 ^ 53 = 2 ^ 32 * 2 ^ 21)%Z by reflexivity.
        assert (0 < 2 ^ 21)%Z by reflexivity.
        assert (2 ^ 20 - 1 < 2 ^ 21)%Z by reflexivity. nia.
      - lia.
      - rewrite pow2_m21. unfold Z.sub.
        rewrite !inject_Z_plus, inject_Z_mult.
        change (inject_Z (2 ^ 21)) with (2097152 # 1).
        change (inject_Z (2 ^ 20)) with (1048576 # 1).
        change (inject_Z (Z.opp 1)) with (-1 # 1). field. }
    assert (Hle : double z <= double (inject_Z q + (1 # 2) - (1 # 2097152)))
      by (apply double_le; exact Hgap).
    lra.
Qed.

Lemma Forall2_map_seq (f g : nat -> Q) (start len : nat) :
  (forall i, (start <= i < start + len)%nat -> f i == g i) ->
  Forall2 Qeq (map f (seq start len)) (map g (seq start len)).
Proof.
  revert start. induction len as [|len IH]; intros start H; cbn [seq map].
  - constructor.
  - constructor; [apply H; lia | apply IH; intros i Hi; apply H; lia].
Qed.

End WholeRatio.

(** X15. In the arithmetic of the platform, a true downsampling
    (0 < target rate < source rate) of fewer than [2 ^ 32] samples never
    fails, never returns more samples than it was given, and never leaves
    the range of its input: if every input sample lies between the 32-bit
    floats [lo] and [hi], so does every output sample (neither the
    interpolation nor its rounding overshoots; samples within [-1, 1] stay
    within [-1, 1]). *)
Theorem downsample_stays_within_range
    (buffer : list Q) (sourceRate targetRate lo hi : Q) :
  (0 < targetRate)%Q -> (targetRate < sourceRate)%Q ->
  (Z.of_nat (length buffer) < 2 ^ 32)%Z ->
  is_float32 lo = true -> is_float32 hi = true ->
  within lo hi buffer ->
  exists out,
    downsampleBuffer_double buffer sourceRate targetRate = inr out
    /\ within lo hi out
    /\ (length out <= length buffer)%nat.
Proof.
  intros Ht Hlt Hn Hlo Hhi Hin.
  apply is_float32_fround in Hlo. apply is_float32_fround in Hhi.
  destruct (downsampleBuffer_double_shape buffer _ _ Ht Hlt Hn) as (Hr & Hlen & Hout).
  eexists. split; [exact Hout|]. split; [|rewrite length_map, length_seq; lia].
  apply List.Forall_forall. intros y Hy.
  apply List.in_map_iff in Hy as [i [<- Hi]]. apply List.in_seq in Hi.
  set (ratio := double (sourceRate / targetRate)) in *.
  destruct (resample_at_spec buffer ratio i Hr Hn)
    as (v & Hat & Hv & Hv1 & Hw0 & Hw1 & E); [lia|].
  set (x := double (inject_Z (Z.of_nat i) * ratio)) in *.
  set (w := (x - inject_Z (Qfloor x))%Q) in *.
  set (val1 := or_number (Some v) 0) in *.
  set (val2 := or_number (index_at buffer (Qceiling x)) val1) in *.
  pose proof (proj1 (List.Forall_forall _ _) Hin) as Hall.
  assert (H1 : (lo <= val1 /\ val1 <= hi)%Q).
  { destruct (Hall v Hv) as [Ha Hb]. split; rewrite Hv1; assumption. }
  assert (H2 : (lo <= val2 /\ val2 <= hi)%Q).
  { destruct (val2_cases buffer (Qceiling x) val1) as [Hsame | Hmem].
    - fold val2 in Hsame. rewrite Hsame. exact H1.
    - fold val2 in Hmem. exact (Hall val2 Hmem). }
  assert (Hu0 : (0 <= 1 - w)%Q) by lra.
  assert (Hw1' : (w <= 1)%Q) by lra.
  pose proof (mix_same lo (1 - w) w Hlo Hw0 Hw1' (Qeq_refl _)) as Elo.
  pose proof (mix_same hi (1 - w) w Hhi Hw0 Hw1' (Qeq_refl _)) as Ehi.
  rewrite E. split.
  - eapply Qle_trans; [|apply (mix_le lo lo val1 val2 (1 - w) w); tauto].
    rewrite Elo. apply Qle_refl.
  - eapply Qle_trans; [apply (mix_le val1 val2 hi hi (1 - w) w); tauto|].
    rewrite Ehi. apply Qle_refl.
Qed.

(** X27. The interpolation treats a zero as a missing sample.  In a true
    downsampling of fewer than [2 ^ 32] 32-bit float samples, as the platform
    computes it: when the sample just above the source position of an output
    index (the position being the rounded product of the index and the
    rounded ratio) is zero or past the end of the buffer, the output is
    exactly the sample just below that position, not a value between the
    two. *)
Theorem downsample_skips_zero_neighbour
    (buffer : list Q) (sourceRate targetRate : Q) (out : list Q) (i : nat) (y : Q) :
  (0 < targetRate)%Q -> (targetRate < sourceRate)%Q ->
  (Z.of_nat (length buffer) < 2 ^ 32)%Z ->
  List.Forall (fun v => is_float32 v = true) buffer ->
  downsampleBuffer_double buffer sourceRate targetRate = inr out ->
  nth_error out i = Some y ->
  let position := double (inject_Z (Z.of_nat i) * double (sourceRate / targetRate)) in
  (forall u, index_at buffer (Qceiling position) = Some u -> (u == 0)%Q) ->
  exists v, index_at buffer (Qfloor position) = Some v /\ (y == v)%Q.
Proof.
  intros Ht Hlt Hn Hfloat Hout Hy position Hzero.
  destruct (downsampleBuffer_double_shape buffer _ _ Ht Hlt Hn) as (Hr & Hlen & Hshape).
  rewrite Hshape in Hout.
  set (ratio := double (sourceRate / targetRate)) in *.
  assert (Hout' : map (resample_at buffer ratio)
                    (seq 0 (Z.to_nat (Math_round
                       (double (inject_Z (Z.of_nat (length buffer)) / ratio))))) = out)
    by (injection Hout; intros H; exact H).
  clear Hout. subst out.
  apply nth_error_map_seq in Hy as [Hi ->].
  destruct (resample_at_spec buffer ratio i Hr Hn)
    as (v & Hat & Hv & Hv1 & Hw0 & Hw1 & E); [lia|].
  fold position in Hat, E, Hw0, Hw1.
  exists v. split; [exact Hat|].
  set (w := (position - inject_Z (Qfloor position))%Q) in *.
  set (val1 := or_number (Some v) 0) in *.
  assert (Hv2 : or_number (index_at buffer (Qceiling position)) val1 = val1).
  { unfold or_number at 1.
    destruct (index_at buffer (Qceiling position)) as [u|] eqn:Eu; [|reflexivity].
    specialize (Hzero u eq_refl). apply Qeq_bool_iff in Hzero. now rewrite Hzero. }
  rewrite Hv2 in E. rewrite E, <- Hv1.
  apply mix_same; [| exact Hw0 | lra | reflexivity].
  rewrite (fround_comp _ _ Hv1), Hv1. apply is_float32_fround.
  exact (proj1 (List.Forall_forall _ _) Hfloat v Hv).
Qed.

(** X28. On whole ratios the arithmetic of the platform and exact
    arithmetic give the same result: when the source rate is a whole
    multiple [k] of the target rate, with [2 <= k < 2 ^ 20], and the buffer
    holds fewer than [2 ^ 32] samples that are 32-bit floats,
    [downsampleBuffer] computed in Numbers with a 32-bit float store and
    [downsampleBuffer] computed in exact rationals return the same number of
    samples with the same values. *)
Theorem double_precision_agrees_on_whole_ratios
    (buffer : list Q) (sourceRate targetRate : Q) (k : nat) :
  (0 < targetRate)%Q -> (2 <= k)%nat -> (Z.of_nat k < 2 ^ 20)%Z ->
  (sourceRate == inject_Z (Z.of_nat k) * targetRate)%Q ->
  (Z.of_nat (length buffer) < 2 ^ 32)%Z ->
  List.Forall (fun v => is_float32 v = true) buffer ->
  exists out out',
    downsampleBuffer_double buffer sourceRate targetRate = inr out
    /\ downsampleBuffer buffer sourceRate targetRate = inr out'
    /\ Forall2 Qeq out out'.
Proof.
  intros Ht Hk Hk20 Hs Hn Hfloat.
  pose proof (integer_ratio _ _ _ Ht Hs) as Hratio.
  assert (HK : (2 <= inject_Z (Z.of_nat k))%Q)
    by (change (2 # 1)%Q with (inject_Z 2); rewrite <- Zle_Qle; lia).
  assert (Hlt : (targetRate < sourceRate)%Q) by (rewrite Hs; nra).
  destruct (downsampleBuffer_double_shape buffer _ _ Ht Hlt Hn) as (Hr & Hlen & Hshape).
  destruct (downsampling_ratio _ _ Ht Hlt) as (Heq & Hup & Hgt1).
  set (n := length buffer) in *.
  set (ratio := double (sourceRate / targetRate)) in *.
  assert (Hrk : (ratio == inject_Z (Z.of_nat k))%Q).
  { subst ratio. rewrite (double_comp _ _ Hratio). apply double_Z.
    assert (2 ^ 20 < 2 ^ 53)%Z by (apply Z.pow_lt_mono_r; lia). lia. }
  (* the two lengths *)
  assert (Hsame : Math_round (double (inject_Z (Z.of_nat n) / ratio))
                  = Math_round (inject_Z (Z.of_nat n) / (sourceRate / targetRate))).
  { assert (E1 : (inject_Z (Z.of_nat n) / ratio
                  == inject_Z (Z.of_nat n) / inject_Z (Z.of_nat k))%Q)
      by (rewrite Hrk; reflexivity).
    assert (E2 : (inject_Z (Z.of_nat n) / (sourceRate / targetRate)
                  == inject_Z (Z.of_nat n) / inject_Z (Z.of_nat k))%Q)
      by (rewrite Hratio; reflexivity).
    unfold Math_round at 1.
    rewrite (Qfloor_comp _ _ (Qplus_comp _ _ (double_comp _ _ E1) _ _ (Qeq_refl (1 # 2)))).
    fold (Math_round (double (inject_Z (Z.of_nat n) / inject_Z (Z.of_nat k)))).
    rewrite whole_ratio_length by lia.
    unfold Math_round.
    apply Qfloor_comp. rewrite E2. reflexivity. }
  set (newLength := Math_round (double (inject_Z (Z.of_nat n) / ratio))) in *.
  exists (map (resample_at buffer ratio) (seq 0 (Z.to_nat newLength))).
  eexists. split; [exact Hshape|]. split.
  - unfold downsampleBuffer. rewrite Heq, Hup. cbv zeta. fold n. rewrite <- Hsame.
    destruct (newLength <? 0)%Z eqn:E; [apply Z.ltb_lt in E; lia|]. reflexivity.
  - apply Forall2_map_seq. intros i Hi. cbv beta zeta.
    destruct (resample_at_spec buffer ratio i Hr Hn)
      as (v & Hat & Hv & Hv1 & Hw0 & Hw1 & E); [fold n; fold newLength; lia|].
    (* the position is the integer k * i on both sides *)
    assert (Hik : (Z.abs (Z.of_nat (k * i)) < 2 ^ 53)%Z).
    { assert (2 ^ 53 = 2 ^ 21 * 2 ^ 32)%Z by reflexivity.
      assert (2 ^ 20 < 2 ^ 21)%Z by reflexivity. nia. }
    assert (Hx : (double (inject_Z (Z.of_nat i) * ratio)
                  == inject_Z (Z.of_nat (k * i)))%Q).
    { assert (E0 : (inject_Z (Z.of_nat i) * ratio == inject_Z (Z.of_nat (k * i)))%Q).
      { rewrite Hrk, <- inject_Z_mult. apply inject_Z_injective. lia. }
      rewrite (double_comp _ _ E0). now apply double_Z. }
    set (x := double (inject_Z (Z.of_nat i) * ratio)) in *.
    set (x' := (inject_Z (Z.of_nat i) * (sourceRate / targetRate))%Q).
    assert (Hx' : (x' == inject_Z (Z.of_nat (k * i)))%Q).
    { subst x'. rewrite Hratio, <- inject_Z_mult. apply inject_Z_injective. lia. }
    assert (Hfl : Qfloor x = Z.of_nat (k * i)) by (rewrite Hx; apply Qfloor_Z).
    assert (Hfl' : Qfloor x' = Z.of_nat (k * i)) by (rewrite Hx'; apply Qfloor_Z).
    assert (Hw : (x - inject_Z (Qfloor x) == 0)%Q) by (rewrite Hfl, Hx; ring).
    assert (Hw' : (x' - inject_Z (Z.of_nat (k * i)) == 0)%Q) by (rewrite Hx'; ring).
    rewrite Hfl in Hat. rewrite Hfl', Hat.
    set (val1 := or_number (Some v) 0) in *.
    assert (Hfv : (fround v == v)%Q)
      by (apply is_float32_fround; exact (proj1 (List.Forall_forall _ _) Hfloat v Hv)).
    (* the platform's side *)
    assert (Hleft : (resample_at buffer ratio i == v)%Q).
    { rewrite E.
      set (val2 := or_number (index_at buffer (Qceiling x)) val1).
      assert (E1 : (val1 * (1 - (x - inject_Z (Qfloor x))) == v)%Q)
        by (rewrite Hw, Hv1; ring).
      assert (E2 : (val2 * (x - inject_Z (Qfloor x)) == 0)%Q) by (rewrite Hw; ring).
      rewrite (fround_comp _ _
                 (double_comp _ _
                    (Qplus_comp _ _ (double_comp _ _ E1) _ _ (double_comp _ _ E2)))).
      assert (Hdv : (double v == v)%Q) by (apply float32_double; exact Hfv).
      assert (E3 : (double v + double 0 == v)%Q) by (rewrite Hdv, double_0; ring).
      rewrite (fround_comp _ _ (double_comp _ _ E3)),
        (fround_comp _ _ Hdv). exact Hfv. }
    rewrite Hleft.
    set (val2' := or_number (index_at buffer (Qceiling x')) val1).
    rewrite Hw', Hv1. ring.
Qed.

(** ** Voice activity detection *)

Section VoiceActivity.
Import VoiceActivityDetector.
Variable Math_sqrt : Q -> Q.

(** The three outcomes of [process]. *)
Lemma process_cases now data this :
  let '(this', emitted, _) := process Math_sqrt now data this in
  callback this' = callback this
  /\ ((loud Math_sqrt data = true
       /\ isSpeaking this' = true /\ lastActivityTime this' = now
       /\ emitted = (if isSpeaking this then []
                     else if callback this then [true] else []))
      \/ (loud Math_sqrt data = false
          /\ isSpeaking this = true
          /\ (now - lastActivityTime this > VAD_HANGOVER_TIME)%Z
          /\ isSpeaking this' = false
          /\ lastActivityTime this' = lastActivityTime this
          /\ emitted = (if callback this then [false] else []))
      \/ (loud Math_sqrt data = false /\ this' = this /\ emitted = [])).
Proof.
  unfold process, loud.
  destruct (above_threshold (rms_of Math_sqrt data)).
  - cbn [isSpeaking lastActivityTime callback].
    destruct (isSpeaking this) eqn:Es; cbn [negb];
      (split; [reflexivity|]); left; repeat split.
  - destruct (isSpeaking this) eqn:Es; cbn [andb].
    + destruct (now - lastActivityTime this >? VAD_HANGOVER_TIME)%Z eqn:Eh.
      * split; [reflexivity|]. right. left. apply Z.gtb_gt in Eh.
        repeat split. exact Eh.
      * split; [reflexivity|]. right. right. repeat split.
    + split; [reflexivity|]. right. right. repeat split.
Qed.

Lemma notifications_cons (now : Z) emitted log :
  notifications ((now, emitted) :: log) = emitted ++ notifications log.
Proof. reflexivity. Qed.

Lemma feed_alternates frames this :
  callback this = true ->
  alternating (negb (isSpeaking this)) (notifications (snd (feed Math_sqrt frames this))).
Proof.
  revert this. induction frames as [|[now data] frames IH]; intros this Hcb.
  - exact I.
  - cbn [feed]. pose proof (process_cases now data this) as Hp.
    destruct (process Math_sqrt now data this) as [[this' emitted] rms].
    destruct Hp as [Hcb' Hp]. rewrite Hcb in Hcb'.
    specialize (IH this' Hcb').
    destruct (feed Math_sqrt frames this') as [final log].
    cbn [snd] in *. rewrite notifications_cons.
    rewrite Hcb in Hp.
    destruct Hp as [(_ & Hs' & _ & ->) | [(_ & Hs & _ & Hs' & _ & ->) | (_ & -> & ->)]].
    + rewrite Hs' in IH. destruct (isSpeaking this); cbn in *; [exact IH | tauto].
    + rewrite Hs' in IH. rewrite Hs. cbn in *. tauto.
    + exact IH.
Qed.

Lemma feed_silent frames this :
  callback this = false ->
  notifications (snd (feed Math_sqrt frames this)) = [].
Proof.
  revert this. induction frames as [|[now data] frames IH]; intros this Hcb.
  - reflexivity.
  - cbn [feed]. pose proof (process_cases now data this) as Hp.
    destruct (process Math_sqrt now data this) as [[this' emitted] rms].
    destruct Hp as [Hcb' Hp]. rewrite Hcb in Hcb'.
    specialize (IH this' Hcb').
    destruct (feed Math_sqrt frames this') as [final log].
    cbn [snd] in *. rewrite notifications_cons.
    rewrite IH, app_nil_r. rewrite Hcb in Hp.
    destruct Hp as [(_ & _ & _ & ->) | [(_ & _ & _ & _ & _ & ->) | (_ & _ & ->)]];
      [now destruct (isSpeaking this) | reflexivity | reflexivity].
Qed.

(** The last activity is the one the detector started with or the clock
    reading of one of the loud frames. *)
Lemma feed_lastActivity frames this :
  let final := fst (feed Math_sqrt frames this) in
  lastActivityTime final = lastActivityTime this
  \/ exists t d, In (t, d) frames /\ loud Math_sqrt d = true
                 /\ lastActivityTime final = t.
Proof.
  revert this. induction frames as [|[now data] frames IH]; intros this.
  - now left.
  - cbn [feed]. pose proof (process_cases now data this) as Hp.
    destruct (process Math_sqrt now data this) as [[this' emitted] rms].
    destruct Hp as [_ Hp]. specialize (IH this').
    destruct (feed Math_sqrt frames this') as [final log]. cbn [fst] in *.
    destruct IH as [IH | (t & d & Hin & Hl & IH)].
    + rewrite IH.
      destruct Hp as [(Hl & _ & Ht & _) | [(_ & _ & _ & _ & Ht & _) | (_ & -> & _)]].
      * right. exists now, data. repeat split; [now left | exact Hl | exact Ht].
      * now left.
      * now left.
    + right. exists t, d. repeat split; [now right | exact Hl | exact IH].
Qed.

Lemma feed_lastActivity_bound frames this :
  nondecreasing (map fst frames) ->
  forall t d, In (t, d) frames -> loud Math_sqrt d = true ->
              (t <= lastActivityTime (fst (feed Math_sqrt frames this)))%Z.
Proof.
  revert this. induction frames as [|[now data] frames IH]; intros this Hmono t d Hin Hl.
  - destruct Hin.
  - cbn [map fst nondecreasing] in Hmono. destruct Hmono as [Hhead Hmono].
    cbn [feed]. pose proof (process_cases now data this) as Hp.
    destruct (process Math_sqrt now data this) as [[this' emitted] rms].
    destruct Hp as [_ Hp].
    pose proof (feed_lastActivity frames this') as Hlast.
    specialize (IH this' Hmono).
    destruct (feed Math_sqrt frames this') as [final log]. cbn [fst] in *.
    destruct Hin as [[= <- <-] | Hin]; [|exact (IH t d Hin Hl)].
    destruct Hp as [(_ & _ & Ht & _) | [(Hq & _) | (Hq & _)]]; try congruence.
    destruct Hlast as [-> | (t' & d' & Hin' & _ & ->)]; [lia|].
    apply (proj1 (List.Forall_forall _ _) Hhead).
    apply List.in_map_iff. exists (t', d'). split; [reflexivity | exact Hin'].
Qed.

End VoiceActivity.

(** X17. The detector reports only changes: over any sequence of frames and
    clock readings, the notifications given to the callback alternate between
    speaking and not speaking, the first one being the opposite of the state
    the detector started in (so [true] for a new detector); without a
    callback nothing is notified. *)
Theorem vad_notifies_only_changes
    (Math_sqrt : Q -> Q) (frames : list (Z * list Q)) (this : VoiceActivityDetector.t) :
  let emitted :=
    notifications (snd (VoiceActivityDetector.feed Math_sqrt frames this)) in
  alternating (negb (VoiceActivityDetector.isSpeaking this)) emitted
  /\ (VoiceActivityDetector.callback this = false -> emitted = []).
Proof.
  cbv zeta. destruct (VoiceActivityDetector.callback this) eqn:Hcb.
  - split; [now apply feed_alternates | discriminate].
  - rewrite (feed_silent Math_sqrt frames this Hcb). split; [exact I | reflexivity].
Qed.

(** X18. A pause is reported only after the hangover: with clock readings
    that never go back, if processing a frame notifies not-speaking, then
    every loud frame processed before it lies more than 500 ms in the past. *)
Theorem vad_silence_only_after_hangover
    (Math_sqrt : Q -> Q) (before : list (Z * list Q)) (now : Z) (data : list Q)
    (this : VoiceActivityDetector.t) :
  nondecreasing (map fst before) ->
  let this1 := fst (VoiceActivityDetector.feed Math_sqrt before this) in
  In false (snd (fst (VoiceActivityDetector.process Math_sqrt now data this1))) ->
  forall t d, In (t, d) before ->
              VoiceActivityDetector.loud Math_sqrt d = true ->
              (now - t > VAD_HANGOVER_TIME)%Z.
Proof.
  intros Hmono this1 Hfalse t d Hin Hl.
  pose proof (feed_lastActivity_bound Math_sqrt before this Hmono t d Hin Hl) as Hle.
  fold this1 in Hle.
  pose proof (process_cases Math_sqrt now data this1) as Hp.
  destruct (VoiceActivityDetector.process Math_sqrt now data this1)
    as [[this' emitted] rms]. cbn [fst snd] in Hfalse.
  destruct Hp as [_ [(_ & _ & _ & ->) | [(_ & _ & Hh & _) | (_ & _ & ->)]]].
  - destruct (VoiceActivityDetector.isSpeaking this1); [destruct Hfalse|].
    destruct (VoiceActivityDetector.callback this1);
      [destruct Hfalse as [H | []]; discriminate | destruct Hfalse].
  - lia.
  - destruct Hfalse.
Qed.

(** ** Volume for the meter *)

(** X19. The volume level shown to the user is a whole number that never
    exceeds 100, is not negative for a non-negative volume, and grows with
    the volume. *)
Theorem volume_level_bounds (v w : Q) :
  (getVolumeLevel v <= 100)%Z
  /\ ((0 <= v)%Q -> (0 <= getVolumeLevel v)%Z)
  /\ ((v <= w)%Q -> (getVolumeLevel v <= getVolumeLevel w)%Z).
Proof.
  unfold getVolumeLevel, Math_round. split; [apply Z.le_min_l | split].
  - intros Hv. apply Z.min_glb; [lia|].
    change 0%Z with (Qfloor 0). apply Qfloor_resp_le.
    apply Qle_trans with (v * (500 # 1) + 0)%Q.
    + rewrite Qplus_0_r. apply Qmult_le_0_compat; [exact Hv | discriminate].
    + apply Qplus_le_r. discriminate.
  - intros Hvw. apply Z.min_le_compat_l. apply Qfloor_resp_le.
    apply Qplus_le_l. apply Qmult_le_compat_r; [exact Hvw | discriminate].
Qed.

(** ** The wire codec, continued *)

Section CodecMore.
Import Base64.

Lemma length_encode_groups_exact l :
  length (encode_groups l) = (4 * ((length l + 2) / 3))%nat.
Proof.
  induction l as [| a | a b | a b c l IH] using list_ind3; try reflexivity.
  cbn [encode_groups length]. rewrite IH.
  replace (S (S (S (length l))) + 2)%nat with (1 * 3 + (length l + 2))%nat by lia.
  rewrite Nat.div_add_l by discriminate. lia.
Qed.

Lemma length_string_of_list_ascii l :
  String.length (string_of_list_ascii l) = length l.
Proof. induction l as [|c l IH]; [reflexivity | cbn; now rewrite IH]. Qed.

Lemma length_list_ascii_of_string s :
  length (list_ascii_of_string s) = String.length s.
Proof. induction s as [|c s IH]; [reflexivity | cbn; now rewrite IH]. Qed.

Lemma length_btoa s : String.length (btoa s) = (4 * ((String.length s + 2) / 3))%nat.
Proof.
  unfold btoa.
  now rewrite length_string_of_list_ascii, length_encode_groups_exact,
    length_map, length_list_ascii_of_string.
Qed.

Lemma btoa_injective s1 s2 : btoa s1 = btoa s2 -> s1 = s2.
Proof.
  intros H. apply (f_equal atob) in H. rewrite !atob_btoa in H. congruence.
Qed.

Lemma binary_of_buffer a :
  fromCharCode_loop (Float32Array.buffer a) 0 ""
  = string_of_list_byte (Float32Array.buffer a).
Proof. rewrite fromCharCode_loop_spec. now rewrite List.skipn_O, append_nil_l. Qed.

End CodecMore.

(** X20. Decoding is defined by the byte count alone: for any binary data
    that was base64-encoded, [base64ToFloat32] returns an array over exactly
    those bytes, with a quarter as many samples, when the byte count is a
    multiple of four, and throws a RangeError otherwise. *)
Theorem decode_needs_whole_samples (binary : string) :
  let bytes := list_byte_of_string binary in
  ((length bytes mod 4 = 0)%nat ->
   exists decoded,
     base64ToFloat32 (Base64.btoa binary) = inr decoded
     /\ Float32Array.buffer decoded = bytes
     /\ Float32Array.byteOffset decoded = 0%nat
     /\ (4 * Float32Array.length decoded = length bytes)%nat)
  /\ ((length bytes mod 4 <> 0)%nat ->
      base64ToFloat32 (Base64.btoa binary) = inl RangeError).
Proof.
  cbv zeta. unfold base64ToFloat32. rewrite atob_btoa, charCodes_of_string.
  unfold Float32Array_on. split; intros H.
  - rewrite H, Nat.eqb_refl. eexists. repeat split.
    cbn [Float32Array.length].
    pose proof (Nat.div_mod_eq (length (list_byte_of_string binary)) 4). lia.
  - apply Nat.eqb_neq in H. now rewrite H.
Qed.

(** X21. The payload of an array whose buffer holds [n] bytes is
    [4 * ceil (n / 3)] characters long. *)
Theorem payload_length (a : Float32Array.t) :
  String.length (float32ToBase64 a)
  = (4 * ((length (Float32Array.buffer a) + 2) / 3))%nat.
Proof.
  unfold float32ToBase64. rewrite binary_of_buffer, length_btoa.
  unfold string_of_list_byte.
  now rewrite length_string_of_list_ascii, length_map.
Qed.

(** X22. Different audio never shares a payload: two arrays with the same
    encoding have the same bytes. *)
Theorem payload_determines_bytes (a b : Float32Array.t) :
  float32ToBase64 a = float32ToBase64 b ->
  Float32Array.buffer a = Float32Array.buffer b.
Proof.
  unfold float32ToBase64. rewrite !binary_of_buffer. intros H.
  apply btoa_injective in H.
  apply (f_equal list_byte_of_string) in H.
  now rewrite !list_byte_of_string_of_list_byte in H.
Qed.

(** ** 16-bit PCM for the translation service *)

Section PCM.
Local Open Scope Q_scope.

Lemma floatTo16BitPCM_map input :
  floatTo16BitPCM input = map (fun x => ToInt16 (scaled x)) input.
Proof. reflexivity. Qed.

Lemma Qle_bool_false x y : Qle_bool x y = false -> y < x.
Proof.
  intros H. apply Qnot_le_lt. intros Hle. apply Qle_bool_iff in Hle. congruence.
Qed.

(** The clamped sample. *)
Lemma clamp_spec x :
  let s := Math_max (-1 # 1) (Math_min 1 x) in
  -1 <= s /\ s <= 1 /\ (-1 <= x -> x <= 1 -> s == x)
  /\ (x <= -1 -> s == -1) /\ (1 <= x -> s == 1).
Proof.
  cbv zeta. unfold Math_max, Math_min.
  destruct (Qle_bool 1 x) eqn:E1.
  - apply Qle_bool_iff in E1. change (Qle_bool (-1 # 1) 1) with true. cbv iota.
    repeat split; try discriminate; intros; try lra.
  - apply Qle_bool_false in E1.
    destruct (Qle_bool (-1 # 1) x) eqn:E2.
    + apply Qle_bool_iff in E2. repeat split; intros; lra.
    + apply Qle_bool_false in E2. repeat split; intros; lra.
Qed.

Lemma clamp_monotone x y :
  x <= y ->
  Math_max (-1 # 1) (Math_min 1 x) <= Math_max (-1 # 1) (Math_min 1 y).
Proof.
  intros Hxy. unfold Math_max, Math_min.
  destruct (Qle_bool 1 x) eqn:Ex; destruct (Qle_bool 1 y) eqn:Ey;
    try apply Qle_bool_iff in Ex; try apply Qle_bool_iff in Ey;
    try apply Qle_bool_false in Ex; try apply Qle_bool_false in Ey;
    repeat match goal with
           | |- context [Qle_bool ?a ?b] =>
               let E := fresh "E" in
               destruct (Qle_bool a b) eqn:E;
               [apply Qle_bool_iff in E | apply Qle_bool_false in E]
           end; lra.
Qed.

Lemma scaled_cases x :
  let s := Math_max (-1 # 1) (Math_min 1 x) in
  (s < 0 /\ scaled x = s * (32768 # 1)) \/ (0 <= s /\ scaled x = s * (32767 # 1)).
Proof.
  cbv zeta. unfold scaled.
  destruct (Qltb (Math_max (-1 # 1) (Math_min 1 x)) 0) eqn:E.
  - left. split; [now apply Qltb_lt | reflexivity].
  - right. split; [now apply Qltb_ge | reflexivity].
Qed.

Lemma scaled_range x : -(32768 # 1) <= scaled x /\ scaled x <= 32767 # 1.
Proof.
  destruct (clamp_spec x) as (H1 & H2 & _).
  destruct (scaled_cases x) as [[Hs ->] | [Hs ->]]; lra.
Qed.

Lemma scaled_monotone x y : x <= y -> scaled x <= scaled y.
Proof.
  intros Hxy. pose proof (clamp_monotone x y Hxy) as Hc.
  destruct (scaled_cases x) as [[Hx ->] | [Hx ->]];
    destruct (scaled_cases y) as [[Hy ->] | [Hy ->]]; lra.
Qed.

Lemma truncate_monotone u v : u <= v -> (truncate u <= truncate v)%Z.
Proof.
  intros Huv. unfold truncate.
  destruct (Qltb u 0) eqn:Eu; destruct (Qltb v 0) eqn:Ev;
    try apply Qltb_lt in Eu; try apply Qltb_lt in Ev;
    try apply Qltb_ge in Eu; try apply Qltb_ge in Ev.
  - now apply Qceiling_resp_le.
  - apply Z.le_trans with 0%Z.
    + change 0%Z with (Qceiling 0). apply Qceiling_resp_le. now apply Qlt_le_weak.
    + change 0%Z with (Qfloor 0). now apply Qfloor_resp_le.
  - lra.
  - now apply Qfloor_resp_le.
Qed.

Lemma truncate_Z (z : Z) : truncate (inject_Z z) = z.
Proof. unfold truncate. destruct (Qltb _ _); [apply Qceiling_Z | apply Qfloor_Z]. Qed.

Lemma truncate_scaled_range x : is_int16 (truncate (scaled x)).
Proof.
  destruct (scaled_range x) as [Hlo Hhi]. unfold is_int16.
  change (- 2 ^ 15)%Z with (-32768)%Z. change (2 ^ 15)%Z with 32768%Z.
  pose proof (truncate_monotone _ _ Hlo) as H1.
  pose proof (truncate_monotone _ _ Hhi) as H2.
  change (- (32768 # 1)) with (inject_Z (-32768)) in H1.
  change (32767 # 1) with (inject_Z 32767) in H2.
  rewrite truncate_Z in H1, H2. lia.
Qed.

(** Within the clamped range the store into the array does not wrap. *)
Lemma ToInt16_scaled x : ToInt16 (scaled x) = truncate (scaled x).
Proof.
  pose proof (truncate_scaled_range x) as H. unfold is_int16 in H.
  change (- 2 ^ 15)%Z with (-32768)%Z in H. change (2 ^ 15)%Z with 32768%Z in H.
  unfold ToInt16. rewrite Z.mod_small by lia. lia.
Qed.

Lemma Z_of_byte_range b : (0 <= Z_of_byte b < 256)%Z.
Proof. unfold Z_of_byte. pose proof (Byte.to_N_bounded b). lia. Qed.

Lemma int16_of_bytes_range b0 b1 : is_int16 (int16_of_bytes b0 b1).
Proof.
  unfold int16_of_bytes, is_int16.
  pose proof (Z_of_byte_range b0). pose proof (Z_of_byte_range b1).
  change (2 ^ 8)%Z with 256%Z. change (2 ^ 15)%Z with 32768%Z.
  change (2 ^ 16)%Z with 65536%Z.
  destruct (_ <? _)%Z eqn:E; [apply Z.ltb_lt in E | apply Z.ltb_ge in E]; lia.
Qed.

Lemma int16_of_bytes_int16_bytes v :
  is_int16 v -> int16_of_bytes (byte_of_Z v) (byte_of_Z (v / 2 ^ 8)) = v.
Proof.
  unfold is_int16, int16_of_bytes. intros Hv. rewrite !Z_of_byte_of_Z.
  change (2 ^ 8)%Z with 256%Z. change (2 ^ 15)%Z with 32768%Z in *.
  change (2 ^ 16)%Z with 65536%Z.
  destruct (_ <? _)%Z eqn:E; [apply Z.ltb_lt in E | apply Z.ltb_ge in E];
    Z.to_euclidean_division_equations; lia.
Qed.

Lemma int16_elements_buffer l :
  List.Forall is_int16 l -> int16_elements (Int16Array_buffer l) = l.
Proof.
  induction 1 as [|v l Hv _ IH]; [reflexivity|].
  unfold Int16Array_buffer in *. cbn [flat_map int16_bytes app int16_elements].
  now rewrite int16_of_bytes_int16_bytes, IH.
Qed.

Lemma length_Int16Array_buffer l : length (Int16Array_buffer l) = (length l * 2)%nat.
Proof.
  induction l as [|v l IH]; [reflexivity|].
  unfold Int16Array_buffer in *. cbn [flat_map int16_bytes app length]. rewrite IH. lia.
Qed.

Lemma list_ind2 {A : Type} (P : list A -> Prop) :
  P [] -> (forall a, P [a]) ->
  (forall a b l, P l -> P (a :: b :: l)) ->
  forall l, P l.
Proof.
  intros H0 H1 H2. fix IH 1.
  intros [|a [|b l]]; [apply H0 | apply H1 | apply H2, IH].
Qed.

Lemma int16_elements_range bytes : List.Forall is_int16 (int16_elements bytes).
Proof.
  induction bytes as [| a | a b l IH] using list_ind2;
    cbn [int16_elements]; constructor.
  - apply int16_of_bytes_range.
  - exact IH.
Qed.

(** The byte-by-byte loop builds the same binary string. *)
Lemma bytewise_binary buffer acc :
  fold_left (fun binary b => (binary ++ String_fromCharCode [b])%string) buffer acc
  = (acc ++ string_of_list_byte buffer)%string.
Proof.
  revert acc. induction buffer as [|b buffer IH]; intros acc; cbn [fold_left].
  - symmetry. apply append_nil_r.
  - rewrite IH, string_app_assoc. reflexivity.
Qed.

Lemma base64Encode_spec buffer :
  base64Encode buffer = Base64.btoa (string_of_list_byte buffer).
Proof.
  unfold base64Encode. rewrite fromCharCode_loop_spec.
  now rewrite List.skipn_O, append_nil_l.
Qed.

(** Decoding the PCM payload of a list of 16-bit integers. *)
Lemma decode_encoded_int16 l :
  List.Forall is_int16 l ->
  decodeBase64ToFloat32 (base64Encode (Int16Array_buffer l))
  = inr (map (fun v => inject_Z v / (32768 # 1)) l).
Proof.
  intros Hl. unfold decodeBase64ToFloat32.
  rewrite base64Encode_spec, atob_btoa, charCodes_of_string.
  rewrite list_byte_of_string_of_list_byte.
  unfold Int16Array_on. rewrite length_Int16Array_buffer, Nat.Div0.mod_mul, Nat.eqb_refl.
  now rewrite int16_elements_buffer.
Qed.

(** The codes of [floatTo16BitPCM], without the wrap. *)
Lemma pcm_codes input :
  floatTo16BitPCM input = map (fun x => truncate (scaled x)) input
  /\ List.Forall is_int16 (floatTo16BitPCM input).
Proof.
  rewrite floatTo16BitPCM_map.
  assert (Hmap : map (fun x => ToInt16 (scaled x)) input
                 = map (fun x => truncate (scaled x)) input)
    by (apply map_ext; intros x; apply ToInt16_scaled).
  split; [exact Hmap|]. rewrite Hmap.
  apply List.Forall_forall. intros v Hv.
  apply List.in_map_iff in Hv as [x [<- _]]. apply truncate_scaled_range.
Qed.

Lemma pcm_monotone input input' :
  Forall2 Qle input input' ->
  Forall2 Z.le (floatTo16BitPCM input) (floatTo16BitPCM input').
Proof.
  intros Hle.
  rewrite (floatTo16BitPCM_map input), (floatTo16BitPCM_map input').
  induction Hle as [|x y l l' Hxy _ IH]; cbn [map]; constructor; [|exact IH].
  rewrite !ToInt16_scaled. apply truncate_monotone, scaled_monotone, Hxy.
Qed.

(** The quantisation error of one sample within [-1, 1]. *)
Lemma quantisation_error x :
  -1 <= x -> x <= 1 ->
  - (1 # 16384) <= x - inject_Z (truncate (scaled x)) / (32768 # 1)
  /\ x - inject_Z (truncate (scaled x)) / (32768 # 1) <= 1 # 16384.
Proof.
  intros Hlo Hhi.
  destruct (clamp_spec x) as (_ & _ & Hs & _). specialize (Hs Hlo Hhi).
  unfold truncate.
  destruct (scaled_cases x) as [[Hneg E] | [Hpos E]]; rewrite E; clear E;
    set (s := Math_max (-1 # 1) (Math_min 1 x)) in *.
  - assert (Hlt : s * (32768 # 1) < 0) by lra.
    replace (Qltb (s * (32768 # 1)) 0) with true
      by (symmetry; unfold Qltb; apply negb_true_iff;
          destruct (Qle_bool 0 (s * (32768 # 1))) eqn:E; [|reflexivity];
          apply Qle_bool_iff in E; lra).
    pose proof (Qle_ceiling (s * (32768 # 1))) as H1.
    pose proof (Qceiling_lt (s * (32768 # 1))) as H2.
    unfold Zminus in H2. rewrite inject_Z_plus in H2.
    change (inject_Z (Z.opp 1)) with (-1 # 1) in H2.
    set (c := inject_Z (Qceiling (s * (32768 # 1)))) in *.
    unfold Qdiv. change (/ (32768 # 1)) with (1 # 32768). split; lra.
  - assert (Hge : 0 <= s * (32767 # 1)) by lra.
    replace (Qltb (s * (32767 # 1)) 0) with false
      by (symmetry; unfold Qltb; apply negb_false_iff, Qle_bool_iff; exact Hge).
    pose proof (Qfloor_le (s * (32767 # 1))) as H1.
    pose proof (Qlt_floor (s * (32767 # 1))) as H2.
    rewrite inject_Z_plus in H2. change (inject_Z 1) with 1 in H2.
    set (c := inject_Z (Qfloor (s * (32767 # 1)))) in *.
    unfold Qdiv. change (/ (32768 # 1)) with (1 # 32768). split; lra.
Qed.

End PCM.

(** X23. [floatTo16BitPCM] clips and never wraps: every output is a 16-bit
    signed integer obtained without overflow (the clamped, scaled sample with
    its fraction dropped), samples at or beyond the ends of [-1, 1] map to
    -32768 and 32767, and a louder sample never gets a smaller code. *)
Theorem pcm_clips_never_wraps (input : list Q) :
  floatTo16BitPCM input = map (fun x => truncate (scaled x)) input
  /\ List.Forall is_int16 (floatTo16BitPCM input)
  /\ (forall x, In x input -> (1 <= x)%Q ->
        In 32767%Z (floatTo16BitPCM input))
  /\ (forall x, In x input -> (x <= -1)%Q ->
        In (-32768)%Z (floatTo16BitPCM input))
  /\ (forall input', Forall2 Qle input input' ->
        Forall2 Z.le (floatTo16BitPCM input) (floatTo16BitPCM input')).
Proof.
  destruct (pcm_codes input) as [Hmap Hrange].
  split; [exact Hmap|]. split; [exact Hrange|].
  split; [|split]; [rewrite Hmap | rewrite Hmap | apply pcm_monotone].
  - intros x Hin Hx. apply List.in_map_iff. exists x. split; [|exact Hin].
    destruct (clamp_spec x) as (_ & _ & _ & _ & H1). specialize (H1 Hx).
    destruct (scaled_cases x) as [[Hs E] | [Hs E]]; [lra|].
    rewrite E. unfold truncate.
    set (s := Math_max (-1 # 1) (Math_min 1 x)) in *.
    assert (Ev : (s * (32767 # 1) == inject_Z 32767)%Q) by (rewrite H1; reflexivity).
    replace (Qltb (s * (32767 # 1)) 0) with false
      by (symmetry; unfold Qltb; apply negb_false_iff, Qle_bool_iff; lra).
    rewrite Ev. apply Qfloor_Z.
  - intros x Hin Hx. apply List.in_map_iff. exists x. split; [|exact Hin].
    destruct (clamp_spec x) as (_ & _ & _ & H1 & _). specialize (H1 Hx).
    destruct (scaled_cases x) as [[Hs E] | [Hs E]]; [|lra].
    rewrite E. unfold truncate.
    set (s := Math_max (-1 # 1) (Math_min 1 x)) in *.
    assert (Ev : (s * (32768 # 1) == inject_Z (-32768))%Q) by (rewrite H1; reflexivity).
    replace (Qltb (s * (32768 # 1)) 0) with true
      by (symmetry; unfold Qltb; apply negb_true_iff;
          destruct (Qle_bool 0 (s * (32768 # 1))) eqn:E0; [|reflexivity];
          apply Qle_bool_iff in E0; lra).
    rewrite Ev. apply Qceiling_Z.
Qed.

(** X24. Whatever text the translation service returns, when
    [decodeBase64ToFloat32] accepts it every decoded sample lies in [-1, 1).
    For the base64 of [n] bytes it succeeds with [n / 2] samples, sample [i]
    being the little-endian 16-bit integer of bytes [2 i] and [2 i + 1]
    divided by 32768, when [n] is even, and throws a RangeError when [n] is
    odd. *)
Theorem pcm_decode_range (base64 binary : string) :
  (forall out, decodeBase64ToFloat32 base64 = inr out ->
     List.Forall (fun y => (-1 <= y)%Q /\ (y < 1)%Q) out)
  /\ ((String.length binary mod 2 = 0)%nat ->
      exists out,
        decodeBase64ToFloat32 (Base64.btoa binary) = inr out
        /\ (2 * length out = String.length binary)%nat
        /\ List.Forall (fun y => (-1 <= y)%Q /\ (y < 1)%Q) out
        /\ forall i b0 b1,
             nth_error (list_byte_of_string binary) (2 * i) = Some b0 ->
             nth_error (list_byte_of_string binary) (2 * i + 1) = Some b1 ->
             nth_error out i
             = Some (inject_Z (int16_of_bytes b0 b1) / (32768 # 1))%Q)
  /\ ((String.length binary mod 2 <> 0)%nat ->
      decodeBase64ToFloat32 (Base64.btoa binary) = inl RangeError).
Proof.
  assert (Hrange : forall text out, decodeBase64ToFloat32 text = inr out ->
            List.Forall (fun y => (-1 <= y)%Q /\ (y < 1)%Q) out).
  { intros text out. unfold decodeBase64ToFloat32.
    destruct (Base64.atob text) as [e | bin]; [discriminate|].
    unfold Int16Array_on. destruct (_ =? 0)%nat; [|discriminate].
    intros [= <-].
    apply List.Forall_forall. intros y Hy.
    apply List.in_map_iff in Hy as [v [<- Hv]].
    pose proof (proj1 (List.Forall_forall _ _) (int16_elements_range _) v Hv) as Hr.
    unfold is_int16 in Hr. change (- 2 ^ 15)%Z with (-32768)%Z in Hr.
    change (2 ^ 15)%Z with 32768%Z in Hr.
    assert (H1 : (inject_Z (-32768) <= inject_Z v)%Q) by (rewrite <- Zle_Qle; lia).
    assert (H2 : (inject_Z v < inject_Z 32768)%Q) by (rewrite <- Zlt_Qlt; lia).
    change (inject_Z (-32768)) with (-32768 # 1)%Q in H1.
    change (inject_Z 32768) with (32768 # 1)%Q in H2.
    unfold Qdiv. change (/ (32768 # 1))%Q with (1 # 32768)%Q. split; lra. }
  split; [exact (Hrange base64)|].
  assert (Hlen : length (list_byte_of_string binary) = String.length binary).
  { unfold list_byte_of_string. now rewrite length_map, length_list_ascii_of_string. }
  split.
  - intros Heven.
    assert (Hdec : decodeBase64ToFloat32 (Base64.btoa binary)
                   = inr (map (fun v => (inject_Z v / (32768 # 1))%Q)
                            (int16_elements (list_byte_of_string binary)))).
    { unfold decodeBase64ToFloat32. rewrite atob_btoa, charCodes_of_string.
      unfold Int16Array_on. rewrite Hlen, Heven. reflexivity. }
    eexists. split; [exact Hdec|]. split; [|split].
    + rewrite length_map, <- Hlen. rewrite <- Hlen in Heven. clear Hlen Hdec.
      revert Heven.
      induction (list_byte_of_string binary) as [| a | a b l IH] using list_ind2;
        intros E; [reflexivity | discriminate |].
      cbn [int16_elements length].
      change (length (a :: b :: l)) with (1 * 2 + length l)%nat in E.
      rewrite Nat.add_comm, Nat.Div0.mod_add in E. specialize (IH E). lia.
    + exact (Hrange _ _ Hdec).
    + clear Hdec Hlen Heven.
      induction (list_byte_of_string binary) as [| a | a b l IH] using list_ind2;
        intros i b0 b1 H0 H1.
      * destruct i; discriminate.
      * destruct i; [discriminate|].
        replace (2 * S i)%nat with (S (S (2 * i))) in H0 by lia.
        destruct i; discriminate.
      * destruct i as [|i].
        -- cbn in H0, H1. injection H0 as <-. injection H1 as <-. reflexivity.
        -- replace (2 * S i)%nat with (S (S (2 * i))) in H0 by lia.
           replace (2 * S i + 1)%nat with (S (S (2 * i + 1))) in H1 by lia.
           cbn [nth_error] in H0, H1. cbn [int16_elements map nth_error].
           exact (IH i b0 b1 H0 H1).
  - intros Hodd. unfold decodeBase64ToFloat32. rewrite atob_btoa, charCodes_of_string.
    unfold Int16Array_on. rewrite Hlen. apply Nat.eqb_neq in Hodd. now rewrite Hodd.
Qed.

(** X25. The 16-bit PCM format round trip: what [pushAudio] sends for
    samples within [-1, 1], decoded by [decodeBase64ToFloat32], gives as many
    samples, each within 1/16384 of the original. *)
Theorem pcm_round_trip_error (data : list Q) :
  within (-1 # 1) 1 data ->
  exists payload decoded,
    pushAudio true true data = Some payload
    /\ decodeBase64ToFloat32 payload = inr decoded
    /\ close_to (1 # 16384) data decoded.
Proof.
  intros Hin. unfold pushAudio. cbn [negb orb].
  eexists. eexists. split; [reflexivity|].
  destruct (pcm_codes data) as [Hmap Hrange].
  split; [apply decode_encoded_int16, Hrange|].
  rewrite Hmap, map_map. clear Hmap Hrange. unfold close_to, within in *.
  induction Hin as [|x l [Hlo Hhi] _ IH]; cbn [map].
  - constructor.
  - constructor; [|exact IH]. apply quantisation_error; assumption.
Qed.

(** X26. The encoders of the repository agree: the byte-by-byte
    [base64Encode] of the first revision, the chunked [base64Encode] of the
    second and [float32ToBase64] of the store give the same text for the same
    bytes, and [atob] turns that text back into those bytes. *)
Theorem encoders_agree (a : Float32Array.t) :
  let bytes := Float32Array.buffer a in
  base64Encode_bytewise bytes = base64Encode bytes
  /\ base64Encode bytes = float32ToBase64 a
  /\ Base64.atob (base64Encode bytes) = inr (string_of_list_byte bytes).
Proof.
  cbv zeta. unfold base64Encode_bytewise.
  rewrite bytewise_binary, append_nil_l, base64Encode_spec.
  repeat split.
  - unfold float32ToBase64. now rewrite binary_of_buffer.
  - apply atob_btoa.
Qed.

(** ** The further properties on concrete scenarios *)

(** The two arithmetics part ways off the whole ratios: from 48000 Hz to
    44100 Hz, 240 samples give 220 samples on the platform and 221 in exact
    arithmetic; from 15000 Hz to 11000 Hz the platform takes output 11 from
    just below position 15, where the buffer steps from 1 to 0. *)
Example double_precision_length :
  (exists out, downsampleBuffer_double (repeat 0%Q 240) (48000 # 1) (44100 # 1) = inr out
               /\ length out = 220%nat)
  /\ (exists out, downsampleBuffer (repeat 0%Q 240) (48000 # 1) (44100 # 1) = inr out
                  /\ length out = 221%nat).
Proof. split; eexists; (split; [vm_compute; reflexivity | reflexivity]). Qed.

Example double_precision_position :
  Qred (double (inject_Z 11 * double ((15000 # 1) / (11000 # 1))))
  = (8444249301319679 # 562949953421312)%Q
  /\ (inject_Z 11 * ((15000 # 1) / (11000 # 1)) == 15)%Q
  /\ map Qred step_resampled = [1; 1; 1; 1; 1; 1; 1; 1; 1; 1; 1; 1; 0; 0; 0]%Q.
Proof. split; [|split]; vm_compute; reflexivity. Qed.

Lemma request_grant_round_trip_witness :
  exists request grant host',
    requestTalkingStick env0 guest_state
    = (guest_state, [SendToPeer (hostId (roomState guest_state)) request])
    /\ handleIncomingEvent env0 request (myId guest_state) host_state
       = (host', [Broadcast grant])
    /\ speakerId (roomState host') = Some (myId guest_state)
    /\ handleIncomingEvent env0 grant "A" speaker_state
       = (set_roomState
            (with_speakerId (Some (myId guest_state)) (roomState speaker_state))
            speaker_state, []).
Proof.
  apply (request_grant_round_trip env0 env0 env0 guest_state host_state speaker_state "A").
  - discriminate.
  - reflexivity.
  - discriminate.
Defined.

Lemma release_round_trip_witness :
  releaseTalkingStick env0 guest_state = (guest_state, [])
  /\ exists release,
       releaseTalkingStick env0 speaker_state
       = (set_roomState (with_speakerId None (roomState speaker_state)) speaker_state,
          [Broadcast release])
       /\ handleIncomingEvent env0 release "G" guest_state
          = (set_roomState (with_speakerId None (roomState guest_state)) guest_state, []).
Proof.
  split.
  - apply (proj1 (release_round_trip env0 env0 guest_state guest_state "G")).
    discriminate.
  - apply (proj2 (release_round_trip env0 env0 speaker_state guest_state "G")).
    reflexivity.
Defined.

Lemma incoming_audio_routing_witness :
  let (state', out) :=
    handleIncomingEvent env0 (audio_from "TRANSLATOR_BOT" some_samples)
      "TRANSLATOR_BOT" speaker_state in
  state' = speaker_state
  /\ existsb is_send out = false
  /\ ("TRANSLATOR_BOT" = myId speaker_state -> out = [])
  /\ ("TRANSLATOR_BOT" = "TRANSLATOR_BOT" -> existsb is_forward out = false)
  /\ (onAudioChunkReceived speaker_state = false -> existsb is_forward out = false).
Proof.
  apply (incoming_audio_routing env0 (audio_from "TRANSLATOR_BOT" some_samples)
           "TRANSLATOR_BOT" speaker_state).
  reflexivity.
Defined.

Lemma other_signals_ignored_witness :
  handleIncomingEvent env0 heartbeat "C" speaker_state = (speaker_state, []).
Proof.
  apply (other_signals_ignored env0 heartbeat "C" speaker_state).
  - reflexivity.
  - intros s [<- | [<- | [<- | []]]]; discriminate.
Defined.

Lemma captured_audio_reaches_peers_witness :
  onCapturedAudio env0 7 (Float32Array_of some_samples) guest_state = []
  /\ exists event forwarded rest,
       onCapturedAudio env0 7 (Float32Array_of some_samples) speaker_state
       = forwarded ++ [Broadcast event]
       /\ existsb is_send forwarded = false
       /\ snd (handleIncomingEvent env0 event (myId speaker_state) guest_state)
          = PlayAudioQueue (Float32Array_of some_samples) (16000 # 1) :: rest.
Proof.
  split.
  - apply (proj1 (captured_audio_reaches_peers env0 env0 7 some_samples
                    guest_state guest_state)).
    discriminate.
  - apply (proj2 (captured_audio_reaches_peers env0 env0 7 some_samples
                    speaker_state guest_state)).
    + reflexivity.
    + repeat constructor; discriminate.
    + discriminate.
Defined.

Lemma peer_join_leave_restores_witness :
  onPeerLeave "C" (onPeerJoin env0 "C" guest_state) = guest_state.
Proof.
  apply (peer_join_leave_restores env0 "C" guest_state).
  - reflexivity.
  - discriminate.
Defined.

Lemma host_follows_smallest_peer_witness :
  let (net1, out1) := NetworkService.joinRoom net_C in
  let (net2, out2) := NetworkService.deliver presence_scenario net1 in
  let host := hostId (roomState (notify_all env0 (out1 ++ out2) guest_state)) in
  In host (NetworkService.peers net2)
  /\ (forall x, In x (NetworkService.peers net2) -> String.leb host x = true).
Proof.
  apply (host_follows_smallest_peer env0 net_C presence_scenario guest_state).
  - reflexivity.
  - simpl. tauto.
  - simpl. intros [H | [H | []]]; discriminate.
Defined.

Lemma peer_map_follows_presence_witness :
  (let (net', out) := NetworkService.deliver presence_scenario net_C in
   In "A" (NetworkService.peers net')
   <-> is_Some (peers (roomState (notify_all env0 out guest_state)) !! "A"))
  /\ (let (net', out) :=
         NetworkService.deliver [NetworkService.Joined "constructor"] net_C in
       In "constructor" (NetworkService.peers net')
       /\ peers (roomState (notify_all env0 out guest_state)) !! "constructor" = None).
Proof.
  split.
  - pose proof (peer_map_follows_presence env0 presence_scenario net_C guest_state "A"
                  eq_refl eq_refl) as H.
    destruct (NetworkService.deliver presence_scenario net_C) as [net' out].
    apply (proj1 H); [reflexivity|]. split.
    + simpl. intros [H1 | []]. discriminate.
    + intros [x Hx]. discriminate.
  - pose proof (peer_map_follows_presence env0 [NetworkService.Joined "constructor"]
                  net_C guest_state "constructor" eq_refl eq_refl) as H.
    destruct (NetworkService.deliver [NetworkService.Joined "constructor"] net_C)
      as [net' out] eqn:E.
    split.
    + injection E as <- _. simpl. right. left. reflexivity.
    + apply (proj2 H); reflexivity.
Defined.

Lemma rejoin_restarts_election_witness :
  let (net', out) := NetworkService.joinRoom net_C_in_room in
  NetworkService.peers net' = [NetworkService.selfId net_C_in_room]
  /\ NetworkService.room net' = true
  /\ out = [NetworkService.HostChanged (NetworkService.selfId net_C_in_room)].
Proof.
  apply (rejoin_restarts_election net_C_in_room); reflexivity.
Defined.

Lemma playback_gapless_without_underrun_witness :
  (startedAt (nth 3 playback_log no_submission)
   == double (startedAt (nth 2 playback_log no_submission)
              + playingTime (nth 2 playback_log no_submission)))%Q
  /\ startedAt (nth 1 playback_log no_submission)
     = double (submittedAt (nth 1 playback_log no_submission)
               + latencyBefore (nth 1 playback_log no_submission)).
Proof.
  split.
  - apply (proj2 (playback_gapless_without_underrun nominal_rate playback_scenario eq_refl)
             (firstn 2 playback_log) (nth 2 playback_log no_submission)
             (nth 3 playback_log no_submission) (skipn 4 playback_log)).
    + reflexivity.
    + vm_compute. discriminate.
  - apply (proj2 (playback_gapless_without_underrun nominal_rate playback_scenario eq_refl)
             [] (nth 0 playback_log no_submission)
             (nth 1 playback_log no_submission) (skipn 2 playback_log)).
    + reflexivity.
    + vm_compute. reflexivity.
Defined.

Lemma playback_never_in_the_past_witness :
  (clock (nth 1 scheduled_frames no_frame)
   <= startAt (nth 1 scheduled_frames no_frame))%Q
  /\ (0 < duration (nth 1 scheduled_frames no_frame))%Q.
Proof.
  apply (playback_never_in_the_past playback_scenario).
  right. left. reflexivity.
Defined.


Lemma vad_notifies_only_changes_witness :
  let emitted :=
    notifications
      (snd (VoiceActivityDetector.feed sqrt_stub vad_scenario
              (VoiceActivityDetector.setCallback VoiceActivityDetector.new))) in
  alternating true emitted
  /\ (true = false -> emitted = []).
Proof.
  exact (vad_notifies_only_changes sqrt_stub vad_scenario
           (VoiceActivityDetector.setCallback VoiceActivityDetector.new)).
Defined.

Lemma vad_silence_only_after_hangover_witness :
  (900 - 300 > VAD_HANGOVER_TIME)%Z.
Proof.
  apply (vad_silence_only_after_hangover sqrt_stub (firstn 4 vad_scenario) 900
           quiet_frame
           (VoiceActivityDetector.setCallback VoiceActivityDetector.new))
    with (d := loud_frame).
  - simpl. repeat split; repeat constructor; lia.
  - left. reflexivity.
  - simpl. tauto.
  - reflexivity.
Defined.

Lemma volume_level_bounds_witness :
  (getVolumeLevel (1 # 10) <= 100)%Z
  /\ (0 <= getVolumeLevel (1 # 10))%Z
  /\ (getVolumeLevel (1 # 10) <= getVolumeLevel (1 # 5))%Z.
Proof.
  destruct (volume_level_bounds (1 # 10) (1 # 5)) as (H1 & H2 & H3).
  split; [exact H1 | split; [apply H2 | apply H3]]; discriminate.
Defined.

Lemma decode_needs_whole_samples_witness :
  (exists decoded,
     base64ToFloat32 (Base64.btoa "abcdefgh") = inr decoded
     /\ Float32Array.buffer decoded = list_byte_of_string "abcdefgh"
     /\ Float32Array.byteOffset decoded = 0%nat
     /\ (4 * Float32Array.length decoded = 8)%nat)
  /\ base64ToFloat32 (Base64.btoa "abcdef") = inl RangeError.
Proof.
  split.
  - apply (proj1 (decode_needs_whole_samples "abcdefgh")). reflexivity.
  - apply (proj2 (decode_needs_whole_samples "abcdef")). discriminate.
Defined.

Lemma payload_determines_bytes_witness :
  Float32Array.buffer (Float32Array_of some_samples)
  = Float32Array.buffer
      {| Float32Array.buffer := flat_map f32_bytes some_samples;
         Float32Array.byteOffset := 4; Float32Array.length := 1 |}.
Proof.
  apply (payload_determines_bytes (Float32Array_of some_samples)). reflexivity.
Defined.

Lemma pcm_clips_never_wraps_witness :
  In 32767%Z (floatTo16BitPCM pcm_input)
  /\ In (-32768)%Z (floatTo16BitPCM pcm_input)
  /\ Forall2 Z.le (floatTo16BitPCM [-1 # 2; 0]%Q) (floatTo16BitPCM [0; 1 # 3]%Q).
Proof.
  destruct (pcm_clips_never_wraps pcm_input) as (_ & _ & Hhi & Hlo & _).
  destruct (pcm_clips_never_wraps [-1 # 2; 0]%Q) as (_ & _ & _ & _ & Hmono).
  split; [|split].
  - apply (Hhi 3%Q); [simpl; tauto | discriminate].
  - apply (Hlo (-2 # 1)%Q); [simpl; tauto | discriminate].
  - apply Hmono. repeat constructor; discriminate.
Defined.

Lemma pcm_decode_range_witness :
  (exists out,
     decodeBase64ToFloat32 "AIAAQP9/" = inr out
     /\ List.Forall (fun y => (-1 <= y)%Q /\ (y < 1)%Q) out)
  /\ (exists out,
        decodeBase64ToFloat32 (Base64.btoa "abcd") = inr out
        /\ (2 * length out = String.length "abcd")%nat
        /\ List.Forall (fun y => (-1 <= y)%Q /\ (y < 1)%Q) out
        /\ forall i b0 b1,
             nth_error (list_byte_of_string "abcd") (2 * i) = Some b0 ->
             nth_error (list_byte_of_string "abcd") (2 * i + 1) = Some b1 ->
             nth_error out i
             = Some (inject_Z (int16_of_bytes b0 b1) / (32768 # 1))%Q)
  /\ decodeBase64ToFloat32 (Base64.btoa "abc") = inl RangeError.
Proof.
  split; [|split].
  - eexists. split; [vm_compute; reflexivity|].
    apply (proj1 (pcm_decode_range "AIAAQP9/" "abc")). vm_compute. reflexivity.
  - apply (proj1 (proj2 (pcm_decode_range "AIAAQP9/" "abcd"))). reflexivity.
  - apply (proj2 (proj2 (pcm_decode_range "AIAAQP9/" "abc"))). discriminate.
Defined.

Lemma pcm_round_trip_error_witness :
  exists payload decoded,
    pushAudio true true [1 # 2; -1 # 4; 1]%Q = Some payload
    /\ decodeBase64ToFloat32 payload = inr decoded
    /\ close_to (1 # 16384) [1 # 2; -1 # 4; 1]%Q decoded.
Proof.
  apply (pcm_round_trip_error [1 # 2; -1 # 4; 1]%Q).
  repeat constructor; discriminate.
Defined.

Lemma downsample_stays_within_range_witness :
  exists out,
    downsampleBuffer_double ramp (44100 # 1) rate16k = inr out
    /\ within 0 1 out
    /\ (length out <= length ramp)%nat.
Proof.
  apply (downsample_stays_within_range ramp (44100 # 1) rate16k 0 1).
  - reflexivity.
  - reflexivity.
  - reflexivity.
  - reflexivity.
  - reflexivity.
  - repeat constructor; discriminate.
Defined.

Lemma downsample_skips_zero_neighbour_witness :
  exists v,
    index_at step_buffer
      (Qfloor (double (inject_Z (Z.of_nat 11)
                       * double ((15000 # 1) / (11000 # 1))))) = Some v
    /\ (nth 11 step_resampled 0 == v)%Q.
Proof.
  apply (downsample_skips_zero_neighbour step_buffer (15000 # 1) (11000 # 1)
           step_resampled 11 (nth 11 step_resampled 0%Q)).
  - reflexivity.
  - reflexivity.
  - reflexivity.
  - repeat constructor.
  - vm_compute. reflexivity.
  - reflexivity.
  - intros u. vm_compute. intros [= <-]. reflexivity.
Defined.

Lemma double_precision_agrees_on_whole_ratios_witness :
  exists out out',
    downsampleBuffer_double ramp rate48k rate16k = inr out
    /\ downsampleBuffer ramp rate48k rate16k = inr out'
    /\ Forall2 Qeq out out'.
Proof.
  apply (double_precision_agrees_on_whole_ratios ramp rate48k rate16k 3).
  - reflexivity.
  - lia.
  - reflexivity.
  - reflexivity.
  - reflexivity.
  - repeat constructor.
Defined.

Lemma playback_never_in_the_past_double_witness :
  (submittedAt (nth 1 playback_log no_submission)
   <= startedAt (nth 1 playback_log no_submission))%Q
  /\ (0 < playingTime (nth 1 playback_log no_submission))%Q.
Proof.
  destruct (playback_never_in_the_past_double nominal_rate playback_scenario
              (nth 1 playback_log no_submission) eq_refl) as [H1 H2].
  - right. left. reflexivity.
  - split; [apply H1; reflexivity | exact H2].
Defined.
